(** * swagOS2: the command pipeline engine of [lib.js]

    A shallow embedding of the parser, the command registry, the
    diagnostics log, the [service] command and the serial execution queue
    of [src/lib.js], followed by the properties stated about them.

    Conventions of the embedding:
    - a JavaScript string is a [string]: a sequence of code units, of which
      the 8-bit ones are represented (every character the shell gives a
      meaning to is ASCII);
    - a JavaScript value is a [jsval]; a plain object is the list of its
      own properties in the order [Object.keys] lists them;
    - the static fields of the service classes form the record [world];
      every method is a function on [world] (explicit state passing);
    - a [throw] is an explicit result constructor. *)

From Stdlib Require Import List String Ascii ZArith Bool Arith Lia Sorted.
From Stdlib Require Import Numbers.DecimalString.
Import ListNotations.
Open Scope string_scope.
Open Scope nat_scope.

(** ** JavaScript strings *)

Module JsString.

(** Code units removed by [String.prototype.trim] (WhiteSpace and
    LineTerminator) among the 8-bit ones: TAB, LF, VT, FF, CR, SP, NBSP. *)
Definition is_ws (c : ascii) : bool :=
  let n := nat_of_ascii c in
  (n =? 9) || (n =? 10) || (n =? 11) || (n =? 12) || (n =? 13)
  || (n =? 32) || (n =? 160).

Fixpoint trimStart (s : string) : string :=
  match s with
  | EmptyString => EmptyString
  | String c r => if is_ws c then trimStart r else s
  end.

Fixpoint trimEnd (s : string) : string :=
  match s with
  | EmptyString => EmptyString
  | String c r =>
      match trimEnd r with
      | EmptyString => if is_ws c then EmptyString else String c EmptyString
      | r' => String c r'
      end
  end.

Definition trim (s : string) : string := trimEnd (trimStart s).

(** The double-quote character. *)
Definition dquote : ascii := ascii_of_nat 34.

(** [s += ch] *)
Definition push_char (s : string) (c : ascii) : string :=
  s ++ String c EmptyString.

(** A string is truthy when it is not empty. *)
Definition nonempty (s : string) : bool :=
  match s with EmptyString => false | _ => true end.

Fixpoint all_chars (p : ascii -> bool) (s : string) : bool :=
  match s with
  | EmptyString => true
  | String c r => p c && all_chars p r
  end.

Fixpoint any_char (p : ascii -> bool) (s : string) : bool :=
  match s with
  | EmptyString => false
  | String c r => p c || any_char p r
  end.

Definition is_digit (c : ascii) : bool :=
  let n := nat_of_ascii c in (48 <=? n) && (n <=? 57).

(** [s.includes(c)] for a one-character needle. *)
Definition includes_char (c : ascii) (s : string) : bool :=
  any_char (Ascii.eqb c) s.

(** [s.startsWith(p)] *)
Definition startsWith (p s : string) : bool := String.prefix p s.

(** [s.slice(n)] for [0 <= n]. *)
Fixpoint slice_from (n : nat) (s : string) : string :=
  match n, s with
  | O, _ => s
  | S n', String _ r => slice_from n' r
  | S _, EmptyString => EmptyString
  end.

(** [s.split(sep)] for a one-character separator: always at least one
    piece. *)
Fixpoint split_char (sep : ascii) (s : string) : list string :=
  match s with
  | EmptyString => [EmptyString]
  | String c r =>
      if Ascii.eqb c sep then EmptyString :: split_char sep r
      else match split_char sep r with
           | [] => [String c EmptyString]
           | p :: ps => String c p :: ps
           end
  end.

(** [xs.join(sep)] for an array of strings. *)
Fixpoint join (sep : string) (xs : list string) : string :=
  match xs with
  | [] => EmptyString
  | [x] => x
  | x :: rest => x ++ sep ++ join sep rest
  end.

(** [" ".repeat(n)] *)
Fixpoint repeat_space (n : nat) : string :=
  match n with
  | O => EmptyString
  | S n' => String " " (repeat_space n')
  end.

(** [s.toLowerCase()] on 8-bit code units: A-Z, and the Latin-1 capitals
    other than the multiplication sign. *)
Definition lower_char (c : ascii) : ascii :=
  let n := nat_of_ascii c in
  if ((65 <=? n) && (n <=? 90))
     || ((192 <=? n) && (n <=? 222) && negb (n =? 215))
  then ascii_of_nat (n + 32) else c.

Fixpoint toLowerCase (s : string) : string :=
  match s with
  | EmptyString => EmptyString
  | String c r => String (lower_char c) (toLowerCase r)
  end.

(** Decimal rendering of a natural number, as in a template literal. *)
Definition of_nat (n : nat) : string :=
  NilZero.string_of_uint (Nat.to_uint n).

Definition of_Z (z : Z) : string :=
  NilZero.string_of_int (Z.to_int z).

End JsString.
Import JsString.

(** ** The parser: [OS.parsePipeline] and [OS.parseCommandFragment] *)

(** The loop variables of [parsePipeline]. *)
Record pipeline_state := {
  ps_parts : list string;
  ps_current : string;
  ps_inSingle : bool;
  ps_inDouble : bool;
  ps_escape : bool
}.

(** [if (current.trim()) parts.push(current.trim())] *)
Definition push_stage (parts : list string) (current : string) : list string :=
  if nonempty (trim current) then parts ++ [trim current] else parts.

(** One iteration of the [for] loop of [parsePipeline]. *)
Definition pipeline_char (st : pipeline_state) (ch : ascii) : pipeline_state :=
  if ps_escape st then
    {| ps_parts := ps_parts st; ps_current := push_char (ps_current st) ch;
       ps_inSingle := ps_inSingle st; ps_inDouble := ps_inDouble st;
       ps_escape := false |}
  else if Ascii.eqb ch "\" then
    {| ps_parts := ps_parts st; ps_current := push_char (ps_current st) ch;
       ps_inSingle := ps_inSingle st; ps_inDouble := ps_inDouble st;
       ps_escape := true |}
  else if Ascii.eqb ch "'" && negb (ps_inDouble st) then
    {| ps_parts := ps_parts st; ps_current := push_char (ps_current st) ch;
       ps_inSingle := negb (ps_inSingle st); ps_inDouble := ps_inDouble st;
       ps_escape := false |}
  else if Ascii.eqb ch dquote && negb (ps_inSingle st) then
    {| ps_parts := ps_parts st; ps_current := push_char (ps_current st) ch;
       ps_inSingle := ps_inSingle st; ps_inDouble := negb (ps_inDouble st);
       ps_escape := false |}
  else if Ascii.eqb ch "|" && negb (ps_inSingle st) && negb (ps_inDouble st) then
    {| ps_parts := push_stage (ps_parts st) (ps_current st);
       ps_current := EmptyString;
       ps_inSingle := ps_inSingle st; ps_inDouble := ps_inDouble st;
       ps_escape := false |}
  else
    {| ps_parts := ps_parts st; ps_current := push_char (ps_current st) ch;
       ps_inSingle := ps_inSingle st; ps_inDouble := ps_inDouble st;
       ps_escape := false |}.

Fixpoint pipeline_loop (input : string) (st : pipeline_state) : pipeline_state :=
  match input with
  | EmptyString => st
  | String ch rest => pipeline_loop rest (pipeline_char st ch)
  end.

Definition pipeline_init : pipeline_state :=
  {| ps_parts := []; ps_current := EmptyString;
     ps_inSingle := false; ps_inDouble := false; ps_escape := false |}.

Definition parsePipeline (input : string) : list string :=
  let st := pipeline_loop input pipeline_init in
  push_stage (ps_parts st) (ps_current st).

(** ** JavaScript values *)

Set Warnings "-register-all".

(** A number: [NInt z] is the double nearest to the integer [z];
    [NOther src] stands for [Number(src)] when [src] is not a plain decimal
    integer (fractions, exponents, hexadecimal, text giving [NaN]). *)
Inductive jsnum :=
| NInt (z : Z)
| NOther (src : string).

Inductive jsval :=
| VUndefined
| VNull
| VBool (b : bool)
| VNum (n : jsnum)
| VStr (s : string)
| VObj (fields : list (string * jsval))
| VArr (items : list jsval).

(** A plain object (an object literal, whose prototype is
    [Object.prototype]): its own properties, in the order in which
    [Object.keys] and [Object.entries] list them - the array indices
    first, in ascending order, then the other names in the order of their
    creation. *)
Definition jsobj := list (string * jsval).

(** The value of a run of decimal digits. *)
Fixpoint digits_value (s : string) (acc : Z) : option Z :=
  match s with
  | EmptyString => Some acc
  | String c r =>
      if is_digit c
      then digits_value r (10 * acc + Z.of_nat (nat_of_ascii c - 48))%Z
      else None
  end.

(** An array index: the decimal numeral, without a leading zero, of an
    integer below 2^32 - 1. *)
Definition array_index (k : string) : option Z :=
  match k with
  | EmptyString => None
  | String c r =>
      if Ascii.eqb c "0" && nonempty r then None
      else match digits_value k 0 with
           | Some z => if (z <? 4294967295)%Z then Some z else None
           | None => None
           end
  end.

(** The names of the properties of [Object.prototype], which a plain
    object inherits. *)
Definition prototype_member (k : string) : bool :=
  existsb (String.eqb k)
          ["constructor"; "__defineGetter__"; "__defineSetter__";
           "hasOwnProperty"; "__lookupGetter__"; "__lookupSetter__";
           "isPrototypeOf"; "propertyIsEnumerable"; "toString"; "valueOf";
           "__proto__"; "toLocaleString"].

(** [Object.hasOwn(o, k)] *)
Definition own_key (o : jsobj) (k : string) : bool :=
  existsb (fun kv => String.eqb (fst kv) k) o.

(** The own property [k] of [o], [undefined] when there is none: what
    [o[k]] is for every name that is not one of [Object.prototype]. *)
Fixpoint obj_get (o : jsobj) (k : string) : jsval :=
  match o with
  | [] => VUndefined
  | (k', v) :: r => if String.eqb k' k then v else obj_get r k
  end.

(** [o[k] === undefined]: an own property decides by its value; without
    one, the name finds a member of [Object.prototype] or nothing. *)
Definition obj_absent (o : jsobj) (k : string) : bool :=
  if own_key o k
  then match obj_get o k with VUndefined => true | _ => false end
  else negb (prototype_member k).

(** An assignment to an own property: the property keeps its place. *)
Fixpoint replace_own (o : jsobj) (k : string) (v : jsval) : jsobj :=
  match o with
  | [] => []
  | (k', v') :: r =>
      if String.eqb k' k then (k, v) :: r else (k', v') :: replace_own r k v
  end.

(** The place of a new property whose name is the array index [i]: before
    the first property that is not an array index or is a greater one. *)
Fixpoint insert_index (o : jsobj) (i : Z) (k : string) (v : jsval) : jsobj :=
  match o with
  | [] => [(k, v)]
  | (k', v') :: r =>
      match array_index k' with
      | Some j =>
          if (j <? i)%Z then (k', v') :: insert_index r i k v
          else (k, v) :: o
      | None => (k, v) :: o
      end
  end.

(** [o[k] = v] on a plain object. An own property is assigned in place.
    Without one, the name [__proto__] reaches the setter of
    [Object.prototype], which creates no property (it ignores a
    primitive value, and for an object or [null] replaces the prototype,
    which this model of own properties does not follow: the values kept
    in the objects assigned to here are strings, numbers and booleans);
    any other name becomes a new property, at its place in the order of
    [Object.keys]. *)
Definition obj_set (o : jsobj) (k : string) (v : jsval) : jsobj :=
  if own_key o k then replace_own o k v
  else if String.eqb k "__proto__" then o
  else match array_index k with
       | Some i => insert_index o i k v
       | None => (o ++ [(k, v)])%list
       end.

(** [Object.keys(o)] *)
Definition obj_keys (o : jsobj) : list string := map fst o.

(** [typeof v] *)
Definition typeof (v : jsval) : string :=
  match v with
  | VUndefined => "undefined"
  | VNull => "object"
  | VBool _ => "boolean"
  | VNum _ => "number"
  | VStr _ => "string"
  | VObj _ => "object"
  | VArr _ => "object"
  end.

(** [v.type] behind [?.]: [undefined] for [null], [undefined] and every
    value without such a property. *)
Definition type_field (v : jsval) : jsval :=
  match v with
  | VObj fields => obj_get fields "type"
  | _ => VUndefined
  end.

Definition content_field (v : jsval) : jsval :=
  match v with
  | VObj fields => obj_get fields "content"
  | _ => VUndefined
  end.

Definition loc_field (v : jsval) : jsval :=
  match v with
  | VObj fields => obj_get fields "loc"
  | _ => VUndefined
  end.

(** [v === "s"] *)
Definition is_str (v : jsval) (s : string) : bool :=
  match v with
  | VStr s' => String.eqb s' s
  | _ => false
  end.

(** [Array.isArray(v)] *)
Definition isArray (v : jsval) : bool :=
  match v with VArr _ => true | _ => false end.

(** [null] and [undefined], the values reading a property of which
    throws. *)
Definition nullish (v : jsval) : bool :=
  match v with
  | VUndefined | VNull => true
  | _ => false
  end.

(** [v ?? null] *)
Definition or_null (v : jsval) : jsval :=
  match v with
  | VUndefined => VNull
  | _ => v
  end.

(** Truthiness. [NaN] and zero are falsy; of the numbers kept as
    [NOther] only the source text is known, and they count as truthy. *)
Definition truthy (v : jsval) : bool :=
  match v with
  | VUndefined | VNull => false
  | VBool b => b
  | VNum (NInt z) => negb (Z.eqb z 0)
  | VNum (NOther _) => true
  | VStr s => nonempty s
  | VObj _ | VArr _ => true
  end.

(** The object literal [{ type, content, loc }]. *)
Definition mk_line (type content loc : string) : jsval :=
  VObj [("type", VStr type); ("content", VStr content); ("loc", VStr loc)].

(** The object literal [{ type: "error", content }]. *)
Definition mk_error (content : string) : jsval :=
  VObj [("type", VStr "error"); ("content", VStr content)].

(** ** Command fragments *)

(** [{ name, args, flags }]; [name] is [undefined] ([None]) when the
    stage holds no token. *)
Record fragment := {
  name : option string;
  args : list string;
  flags : jsobj
}.

(** A name inside a template literal. *)
Definition name_text (n : option string) : string :=
  match n with
  | Some s => s
  | None => "undefined"
  end.

(** The loop variables of the tokenizer of [parseCommandFragment]. *)
Record token_state := {
  ts_current : string;
  ts_args : list string;
  ts_quotedArgs : list bool;
  ts_inDoubleQuotes : bool;
  ts_inSingleQuotes : bool;
  ts_tokenStartedQuoted : bool
}.

Definition ts_append (st : token_state) (c : ascii) : token_state :=
  {| ts_current := push_char (ts_current st) c;
     ts_args := ts_args st; ts_quotedArgs := ts_quotedArgs st;
     ts_inDoubleQuotes := ts_inDoubleQuotes st;
     ts_inSingleQuotes := ts_inSingleQuotes st;
     ts_tokenStartedQuoted := ts_tokenStartedQuoted st |}.

(** The branches of the [while] body for a character other than a
    backslash. *)
Definition token_char (st : token_state) (c : ascii) : token_state :=
  if Ascii.eqb c dquote && negb (ts_inSingleQuotes st) then
    {| ts_current := ts_current st;
       ts_args := ts_args st; ts_quotedArgs := ts_quotedArgs st;
       ts_inDoubleQuotes := negb (ts_inDoubleQuotes st);
       ts_inSingleQuotes := ts_inSingleQuotes st;
       ts_tokenStartedQuoted :=
         if negb (ts_inDoubleQuotes st) && (String.length (ts_current st) =? 0)
         then true else ts_tokenStartedQuoted st |}
  else if Ascii.eqb c "'" && negb (ts_inDoubleQuotes st) then
    {| ts_current := ts_current st;
       ts_args := ts_args st; ts_quotedArgs := ts_quotedArgs st;
       ts_inDoubleQuotes := ts_inDoubleQuotes st;
       ts_inSingleQuotes := negb (ts_inSingleQuotes st);
       ts_tokenStartedQuoted :=
         if negb (ts_inSingleQuotes st) && (String.length (ts_current st) =? 0)
         then true else ts_tokenStartedQuoted st |}
  else if Ascii.eqb c " " && negb (ts_inDoubleQuotes st)
          && negb (ts_inSingleQuotes st) then
    if 0 <? String.length (ts_current st) then
      {| ts_current := EmptyString;
         ts_args := (ts_args st ++ [ts_current st])%list;
         ts_quotedArgs := (ts_quotedArgs st ++ [ts_tokenStartedQuoted st])%list;
         ts_inDoubleQuotes := ts_inDoubleQuotes st;
         ts_inSingleQuotes := ts_inSingleQuotes st;
         ts_tokenStartedQuoted := false |}
    else st
  else ts_append st c.

(** The characters a backslash escapes: space, either quote, backslash. *)
Definition escapable (next : ascii) : bool :=
  Ascii.eqb next " " || Ascii.eqb next dquote || Ascii.eqb next "'"
  || Ascii.eqb next "\".

Fixpoint token_loop (input : string) (st : token_state) : token_state :=
  match input with
  | EmptyString => st
  | String c rest =>
      if Ascii.eqb c "\" then
        match rest with
        | String next rest' =>
            if escapable next then token_loop rest' (ts_append st next)
            else token_loop rest (ts_append st "\")
        | EmptyString => token_loop rest (ts_append st "\")
        end
      else token_loop rest (token_char st c)
  end.

Definition token_init : token_state :=
  {| ts_current := EmptyString; ts_args := []; ts_quotedArgs := [];
     ts_inDoubleQuotes := false; ts_inSingleQuotes := false;
     ts_tokenStartedQuoted := false |}.

(** The tokens of a stage with their quoted marks. *)
Definition tokenize (input : string) : list string * list bool :=
  let st := token_loop input token_init in
  if 0 <? String.length (ts_current st)
  then ((ts_args st ++ [ts_current st])%list,
        (ts_quotedArgs st ++ [ts_tokenStartedQuoted st])%list)
  else (ts_args st, ts_quotedArgs st).

(** The flag branch shared by [--name] and [-name]: [flagPart] is the
    token without its dashes. *)
Definition set_flag (flags : jsobj) (flagPart : string) : jsobj :=
  if includes_char "=" flagPart then
    match split_char "=" flagPart with
    | flag :: value :: _ => obj_set flags flag (VStr value)
    | [flag] => obj_set flags flag VUndefined
    | [] => flags
    end
  else obj_set flags flagPart (VBool true).

(** The classification loop over the tokens after the command name;
    [restQuoted[j]] is [undefined], hence falsy, past the end. *)
Fixpoint classify (rest : list string) (restQuoted : list bool)
         (positional : list string) (flags : jsobj) : list string * jsobj :=
  match rest with
  | [] => (positional, flags)
  | token :: rest' =>
      let isQuoted := match restQuoted with q :: _ => q | [] => false end in
      let restQuoted' := match restQuoted with _ :: qs => qs | [] => [] end in
      if isQuoted then classify rest' restQuoted' (positional ++ [token])%list flags
      else if startsWith "--" token then
        classify rest' restQuoted' positional (set_flag flags (slice_from 2 token))
      else if startsWith "-" token && (1 <? String.length token) then
        classify rest' restQuoted' positional (set_flag flags (slice_from 1 token))
      else classify rest' restQuoted' (positional ++ [token])%list flags
  end.

Definition parseCommandFragment (input : string) : fragment :=
  let '(toks, quoted) := tokenize input in
  let command := match toks with c :: _ => Some c | [] => None end in
  let rest := match toks with _ :: r => r | [] => [] end in
  let restQuoted := match quoted with _ :: r => r | [] => [] end in
  let '(positional, flags) := classify rest restQuoted [] [] in
  {| name := command; args := positional; flags := flags |}.

(** [OSCommandChain]: the array [parts]. *)
Definition chain := list fragment.

(** [OS.parseCommand] *)
Definition parseCommand (input : string) : chain :=
  map parseCommandFragment (parsePipeline input).

(** [OSCommandChain.simplify]; [join] renders [undefined] as the empty
    string. *)
Definition simplify (c : chain) : string :=
  join "_" (map (fun part => match name part with
                             | Some s => s
                             | None => EmptyString
                             end) c).

(** ** Command definitions *)

(** A schema parameter. [required] is read through truthiness, so an
    absent property is [false]; [options], [short], [datatype] and
    [pipeableFrom] may be absent; [default] is [VUndefined] when absent.
    The descriptions, used only by [help], are left out. *)
Record schema_param := {
  p_type : string;
  p_name : string;
  p_required : bool;
  p_options : option (list string);
  p_short : option string;
  p_datatype : option string;
  p_default : jsval;
  p_pipeableFrom : option string
}.

(** [body.options] *)
Record command_options := {
  o_description : string;
  o_alias : option string;
  o_hidden : bool
}.

(** [body] *)
Record command_body := {
  options : command_options;
  schema : list schema_param;
  aliasOf : option string
}.

(** The handler functions of [defineCommands], by name; [HConst v] is the
    handler [() => v], which returns [v] and does nothing else. *)
Inductive handler :=
| HService | HClear | HPrint | HObuffer | HCommandline | HLinecount
| HHelp | HFindtext
| HConst (v : jsval).

(** A value of the [commands] map: [{ body, fn }]. *)
Record entry := {
  body : command_body;
  fn : handler
}.

(** A [Map] keyed by strings, in insertion order. *)
Fixpoint map_get {A} (m : list (string * A)) (k : string) : option A :=
  match m with
  | [] => None
  | (k', v) :: r => if String.eqb k' k then Some v else map_get r k
  end.

Fixpoint map_set {A} (m : list (string * A)) (k : string) (v : A)
  : list (string * A) :=
  match m with
  | [] => [(k, v)]
  | (k', v') :: r =>
      if String.eqb k' k then (k, v) :: r else (k', v') :: map_set r k v
  end.

(** ** The services' static fields *)

(** What is thrown: an [OSError], the [DOMException] named [AbortError],
    or a plain [Error]. *)
Inductive exn :=
| OSError (message : string)
| AbortError
| JsError (message : string).

Inductive res (A : Type) :=
| Ok (a : A)
| Throw (e : exn).
Arguments Ok {A} a.
Arguments Throw {A} e.

(** [DiagnosticService] *)
Record diagnostic_service := {
  diag_enabled : bool;
  diag_os : bool;
  diagnosticData : list (string * Z)
}.

(** [OutputService] *)
Record output_service := {
  out_enabled : bool;
  out_os : bool;
  buffer : list jsval
}.

(** [CommandService]. [registeredCommands] is a [Set] whose members are
    [Set] objects; membership of an object is by identity and every member
    is created by its own [new Set()], so the outer set is the list of its
    members in insertion order and never merges two of them. *)
Record command_service := {
  cmd_enabled : bool;
  cmd_os : bool;
  commands : list (string * entry);
  registeredCommands : list (list string)
}.

(** [SaviorService] *)
Record savior_service := {
  sav_enabled : bool;
  sav_os : bool
}.

(** An element of [CommandExecService.queue]: the chain and the promise
    whose [resolve] and [reject] it carries, named by a ticket. *)
Record queue_item := {
  q_chain : chain;
  q_ticket : nat
}.

(** A suspended call of [runNext]: its item and its [AbortController]. *)
Record activation := {
  act_item : queue_item;
  act_controller : nat
}.

(** What the promises and the queue went through, latest first:
    [enqueue] made the promise, [runNext] took the chain from the queue,
    the promise was resolved, an exception left the [catch] clause of
    [runNext] before the promise was resolved, the [finally] clause of
    [runNext] was reached, the chain was removed from the queue without
    being run. *)
Inductive history_event :=
| Enqueued (ticket : nat)
| Started (ticket : nat)
| Resolved (ticket : nat)
| Escaped (ticket : nat)
| Ended (ticket : nat)
| Dropped (ticket : nat).

(** [CommandExecService]. Next to the static fields of the class:
    - [controllers]: the [AbortController] objects created so far, each
      with its [signal.aborted];
    - [inflight]: the calls of [runNext] suspended at an [await];
    - [next_ticket], [resolved], [rejected], [history]: bookkeeping of the
      promises [enqueue] returned, which the code does not hold and no
      method reads. *)
Record exec_service := {
  exec_enabled : bool;
  exec_os : bool;
  queue : list queue_item;
  running : bool;
  currentAbort : option nat;
  currentReject : option nat;
  controllers : list bool;
  inflight : list activation;
  next_ticket : nat;
  resolved : list (nat * jsval);
  rejected : list (nat * jsval);
  history : list history_event
}.

(** A child of [os.elem]: the presenter method that made it, its content
    and its location label. *)
Record dom_line := {
  d_kind : string;
  d_content : jsval;
  d_loc : jsval
}.

Record world := {
  now : Z;
  diag : diagnostic_service;
  out : output_service;
  cmd : command_service;
  exec : exec_service;
  savior : savior_service;
  elem : list dom_line
}.

Definition set_diag (w : world) (d : diagnostic_service) : world :=
  {| now := now w; diag := d; out := out w; cmd := cmd w; exec := exec w;
     savior := savior w; elem := elem w |}.

Definition set_out (w : world) (o : output_service) : world :=
  {| now := now w; diag := diag w; out := o; cmd := cmd w; exec := exec w;
     savior := savior w; elem := elem w |}.

Definition set_cmd (w : world) (c : command_service) : world :=
  {| now := now w; diag := diag w; out := out w; cmd := c; exec := exec w;
     savior := savior w; elem := elem w |}.

Definition set_exec (w : world) (e : exec_service) : world :=
  {| now := now w; diag := diag w; out := out w; cmd := cmd w; exec := e;
     savior := savior w; elem := elem w |}.

Definition set_savior (w : world) (s : savior_service) : world :=
  {| now := now w; diag := diag w; out := out w; cmd := cmd w; exec := exec w;
     savior := s; elem := elem w |}.

Definition set_elem (w : world) (l : list dom_line) : world :=
  {| now := now w; diag := diag w; out := out w; cmd := cmd w; exec := exec w;
     savior := savior w; elem := l |}.

(** The class fields before any constructor ran. *)
Definition world0 : world :=
  {| now := 0%Z;
     diag := {| diag_enabled := false; diag_os := false; diagnosticData := [] |};
     out := {| out_enabled := false; out_os := false; buffer := [] |};
     cmd := {| cmd_enabled := false; cmd_os := false; commands := [];
               registeredCommands := [] |};
     exec := {| exec_enabled := false; exec_os := false; queue := [];
                running := false; currentAbort := None; currentReject := None;
                controllers := []; inflight := []; next_ticket := 0;
                resolved := []; rejected := []; history := [] |};
     savior := {| sav_enabled := false; sav_os := false |};
     elem := [] |}.

(** ** [DiagnosticService] *)

(** [DiagnosticService.record]; [Date.now()] is [now w]. *)
Definition record (w : world) (action : string) : world :=
  if diag_enabled (diag w) then
    set_diag w {| diag_enabled := diag_enabled (diag w);
                  diag_os := diag_os (diag w);
                  diagnosticData :=
                    (diagnosticData (diag w) ++ [(action, now w)])%list |}
  else w.

Definition getData (w : world) : list (string * Z) := diagnosticData (diag w).

Definition diag_enable (w : world) : world :=
  set_diag w {| diag_enabled := true; diag_os := diag_os (diag w);
                diagnosticData := diagnosticData (diag w) |}.

Definition diag_disable (w : world) : world :=
  set_diag w {| diag_enabled := false; diag_os := diag_os (diag w);
                diagnosticData := diagnosticData (diag w) |}.

Definition diag_init (w : world) : world :=
  if diag_os (diag w) then w
  else set_diag w {| diag_enabled := true; diag_os := true;
                     diagnosticData := diagnosticData (diag w) |}.

(** ** The presenter: [OS.line], [OS.error], [OS.htmlLine], [OS.savior],
    [OS.commandLine] *)

Definition append_elem (w : world) (kind : string) (content loc : jsval)
  : world :=
  set_elem w (elem w ++ [{| d_kind := kind; d_content := content;
                            d_loc := loc |}])%list.

(** A default parameter: used when the argument is [undefined]. *)
Definition default_arg (v : jsval) (d : string) : jsval :=
  match v with
  | VUndefined => VStr d
  | _ => v
  end.

Definition os_line (w : world) (content loc : jsval) : world :=
  append_elem w "line" content (default_arg loc ">").

Definition os_error (w : world) (content : jsval) : world :=
  append_elem w "error" content (VStr "ERROR").

Definition os_htmlLine (w : world) (content loc : jsval) : world :=
  append_elem w "html" content (default_arg loc EmptyString).

Definition os_savior (w : world) (content : jsval) : world :=
  append_elem w "savior" content (VStr "SAVIOR").

Definition os_commandLine (w : world) : world :=
  append_elem w "commandline" (VStr EmptyString) (VStr ">").

(** ** [OutputService] *)

Definition set_buffer (w : world) (b : list jsval) : world :=
  set_out w {| out_enabled := out_enabled (out w); out_os := out_os (out w);
               buffer := b |}.

Definition out_add (w : world) (line : jsval) : world :=
  if negb (out_enabled (out w)) then w
  else
    let w1 := record w "OutputService_add" in
    set_buffer w1 (buffer (out w1) ++ [line])%list.

(** The body of the loop of [flush]. *)
Definition present (w : world) (line : jsval) : world :=
  if is_str (type_field line) "line"
  then os_line w (content_field line) (loc_field line)
  else if is_str (type_field line) "error"
  then os_error w (content_field line)
  else if is_str (type_field line) "savior"
  then os_savior w (content_field line)
  else if is_str (type_field line) "html"
  then os_htmlLine w (content_field line) (loc_field line)
  else w.

(** A line of one of the four types [flush] has a presenter for. *)
Definition known_type (line : jsval) : bool :=
  is_str (type_field line) "line" || is_str (type_field line) "error"
  || is_str (type_field line) "savior" || is_str (type_field line) "html".

(** The body of the loop throws a [TypeError]: [line.type] of [null] or
    [undefined] cannot be read, and neither can a presenter of [this.os]
    when that is [null]. *)
Definition present_throws (w : world) (line : jsval) : bool :=
  nullish line || (negb (out_os (out w)) && known_type line).

(** The loop of [flush], up to its end or to the line that throws. *)
Fixpoint present_all (lines : list jsval) (w : world) : res unit * world :=
  match lines with
  | [] => (Ok tt, w)
  | line :: rest =>
      if present_throws w line
      then (Throw (JsError "TypeError: cannot read a property of null or undefined"),
            w)
      else present_all rest (present w line)
  end.

(** [flush]: whether it returned or threw, and the world; when it throws
    the lines before the failing one have been shown and the buffer is as
    it was. *)
Definition out_flush (w : world) : res unit * world :=
  if negb (out_enabled (out w)) then (Ok tt, w)
  else
    match present_all (buffer (out w)) w with
    | (Ok _, w1) => (Ok tt, set_buffer (record w1 "OutputService_flush") [])
    | (Throw x, w1) => (Throw x, w1)
    end.

Definition out_clear (w : world) : world :=
  if negb (out_enabled (out w)) then w
  else set_buffer (record w "OutputService_clear") [].

Definition out_isEmpty (w : world) : bool :=
  if negb (out_enabled (out w)) then true
  else match buffer (out w) with [] => true | _ => false end.

Definition out_enable (w : world) : world :=
  record (set_out w {| out_enabled := true; out_os := out_os (out w);
                       buffer := buffer (out w) |}) "OutputService_enable".

Definition out_disable (w : world) : world :=
  record (set_out w {| out_enabled := false; out_os := out_os (out w);
                       buffer := buffer (out w) |}) "OutputService_disable".

Definition out_init (w : world) : world :=
  if out_os (out w) then w
  else record (set_out w {| out_enabled := true; out_os := true;
                            buffer := [] |}) "OutputService_init".

(** ** [CommandService]: the registry *)

Definition set_commands (w : world) (m : list (string * entry)) : world :=
  set_cmd w {| cmd_enabled := cmd_enabled (cmd w); cmd_os := cmd_os (cmd w);
               commands := m;
               registeredCommands := registeredCommands (cmd w) |}.

Definition set_registered (w : world) (r : list (list string)) : world :=
  set_cmd w {| cmd_enabled := cmd_enabled (cmd w); cmd_os := cmd_os (cmd w);
               commands := commands (cmd w);
               registeredCommands := r |}.

Definition cmd_enable (w : world) : world :=
  record (set_cmd w {| cmd_enabled := true; cmd_os := cmd_os (cmd w);
                       commands := commands (cmd w);
                       registeredCommands := registeredCommands (cmd w) |})
         "CommandService_enable".

Definition cmd_disable (w : world) : world :=
  record (set_cmd w {| cmd_enabled := false; cmd_os := cmd_os (cmd w);
                       commands := commands (cmd w);
                       registeredCommands := registeredCommands (cmd w) |})
         "CommandService_disable".

Definition cmd_init (w : world) : world :=
  if cmd_os (cmd w) then w
  else record (set_cmd w {| cmd_enabled := true; cmd_os := true;
                            commands := commands (cmd w);
                            registeredCommands := registeredCommands (cmd w) |})
              "CommandService_init".

(** [xs.includes(x)] on strings. *)
Definition includes (xs : list string) (x : string) : bool :=
  existsb (String.eqb x) xs.

(** [Array.from(registeredCommands).map(x => Array.from(x)).flat().includes(name)] *)
Definition registered_includes (w : world) (n : string) : bool :=
  includes (List.concat (registeredCommands (cmd w))) n.

(** [registeredCommands.has(name)] for a string [name]: a member is a
    [Set] object, and no object is the same value as a string. *)
Definition same_value (member : list string) (n : string) : bool := false.

Definition registered_has (members : list (list string)) (n : string) : bool :=
  existsb (fun member => same_value member n) members.

(** [set.add(n)] on an inner set. *)
Definition names_add (names : list string) (n : string) : list string :=
  if includes names n then names else (names ++ [n])%list.

(** [set.delete(n)] on an inner set. *)
Definition names_delete (names : list string) (n : string) : list string :=
  filter (fun x => negb (String.eqb x n)) names.

Definition defineCommand (w : world) (n : string) (b : command_body)
           (f : handler) : world :=
  if negb (cmd_enabled (cmd w)) then w
  else
    let w1 := set_commands w (map_set (commands (cmd w)) n
                                      {| body := b; fn := f |}) in
    let w2 := record w1 ("CommandService_define " ++ n) in
    match o_alias (options b) with
    | Some a =>
        if nonempty a then
          let aliasBody :=
            {| options := {| o_description := o_description (options b);
                             o_alias := None;
                             o_hidden := o_hidden (options b) |};
               schema := schema b;
               aliasOf := Some n |} in
          set_commands w2 (map_set (commands (cmd w2)) a
                                   {| body := aliasBody; fn := f |})
        else w2
    | None => w2
    end.

(** [getCommand]: [undefined] when disabled, [null] when not registered. *)
Inductive lookup_result :=
| LUndefined
| LNull
| LEntry (e : option entry).

Definition getCommand (w : world) (n : string) : lookup_result * world :=
  if negb (cmd_enabled (cmd w)) then (LUndefined, w)
  else if negb (registered_includes w n) then (LNull, w)
  else (LEntry (map_get (commands (cmd w)) n),
        record w ("CommandService_get " ++ n)).

Definition listCommands (w : world) : option (list (list string)) :=
  if negb (cmd_enabled (cmd w)) then None
  else Some (registeredCommands (cmd w)).

(** [entry.body.options.alias], when truthy. *)
Definition alias_of_entry (e : entry) : option string :=
  match o_alias (options (body e)) with
  | Some a => if nonempty a then Some a else None
  | None => None
  end.

Definition unregisterCommand (w : world) (n : string) : res world :=
  if negb (cmd_enabled (cmd w)) then Ok w
  else if negb (registered_includes w n) then Ok w
  else match map_get (commands (cmd w)) n with
       | None => Throw (JsError ("Cannot unregister unknown command: "
                                 ++ String dquote (n ++ String dquote EmptyString)))
       | Some e =>
           let commandNames :=
             match alias_of_entry e with
             | Some a => [n; a]
             | None => [n]
             end in
           let w1 := record w ("CommandService_unregister " ++ n) in
           Ok (fold_left
                 (fun w' x =>
                    set_registered w'
                      (map (fun set => names_delete set x)
                           (registeredCommands (cmd w'))))
                 commandNames w1)
       end.

Definition registerCommand (w : world) (n : string) : res world :=
  if negb (cmd_enabled (cmd w)) then Ok w
  else if registered_has (registeredCommands (cmd w)) n then Ok w
  else match map_get (commands (cmd w)) n with
       | None => Throw (JsError ("Cannot register unknown command: "
                                 ++ String dquote (n ++ String dquote EmptyString)))
       | Some e =>
           let commandNames :=
             match alias_of_entry e with
             | Some a => names_add (names_add [] n) a
             | None => names_add [] n
             end in
           let w1 := record w ("CommandService_register " ++ n) in
           Ok (set_registered w1
                 (registeredCommands (cmd w1) ++ [commandNames])%list)
       end.

Fixpoint bulk_loop (f : world -> string -> res world) (names : list string)
         (w : world) : res world :=
  match names with
  | [] => Ok w
  | n :: rest =>
      match f w n with
      | Ok w' => bulk_loop f rest w'
      | Throw e => Throw e
      end
  end.

Definition bulkRegister (w : world) (names : list string) : res world :=
  if negb (cmd_enabled (cmd w)) then Ok w
  else bulk_loop registerCommand names w.

Definition bulkUnregister (w : world) (names : list string) : res world :=
  if negb (cmd_enabled (cmd w)) then Ok w
  else bulk_loop unregisterCommand names w.

(** The registration set as the specification counts it: the members of
    [registeredCommands] that hold the name. *)
Definition pairs_for (w : world) (n : string) : list (list string) :=
  filter (fun set => includes set n) (registeredCommands (cmd w)).

(** ** [CommandService.verify] *)

(** A string between double quotes. *)
Definition quoted (s : string) : string :=
  String dquote (s ++ String dquote EmptyString).

(** [Number(s)] for a string: white space is trimmed, the empty string is
    zero, a signed run of digits is its value. *)
Definition js_Number (s : string) : jsnum :=
  match trim s with
  | EmptyString => NInt 0
  | String c r as t =>
      if (Ascii.eqb c "-" && nonempty r)%bool then
        match digits_value r 0 with
        | Some z => NInt (- z)
        | None => NOther s
        end
      else if (Ascii.eqb c "+" && nonempty r)%bool then
        match digits_value r 0 with
        | Some z => NInt z
        | None => NOther s
        end
      else
        match digits_value t 0 with
        | Some z => NInt z
        | None => NOther s
        end
  end.

(** The coercion step of [verify] on a flag value [v]: the type it is
    checked with, and the value assigned to [flags[flagName]] if any.
    [/-?\d+/.test(v)] holds when the text of [v] has a digit somewhere;
    then the type becomes ["number"] and [Number(v)] is assigned. A number
    stays the number it is either way; [true], [false] and [undefined]
    have no digit. Flag values are strings, numbers or booleans. *)
Definition coerce (v : jsval) : string * option jsval :=
  match v with
  | VStr s =>
      if any_char is_digit s then ("number", Some (VNum (js_Number s)))
      else ("string", None)
  | _ => (typeof v, None)
  end.

(** The result of [verify]: [{ valid: true, error: null, flags }] or
    [{ valid: false, error }]. *)
Inductive verification :=
| Valid (flags : jsobj)
| NotValid (error : string).

Definition valid (v : verification) : bool :=
  match v with Valid _ => true | NotValid _ => false end.

Definition is_positional (s : schema_param) : bool :=
  String.eqb (p_type s) "positional".

Definition is_flag (s : schema_param) : bool :=
  String.eqb (p_type s) "flag" || String.eqb (p_type s) "option".

(** [args[i]] inside a template literal. *)
Definition arg_text (args : list string) (i : nat) : string :=
  match nth_error args i with
  | Some a => a
  | None => "undefined"
  end.

(** [param.options.includes(args[i])] *)
Definition option_allowed (opts : list string) (args : list string) (i : nat)
  : bool :=
  match nth_error args i with
  | Some a => includes opts a
  | None => false
  end.

(** The loop over [positionalSchema]: the error of the first parameter
    that fails, if any. *)
Fixpoint check_positional (positionalSchema : list schema_param)
         (args : list string) (positionalIndex : nat) : option string :=
  match positionalSchema with
  | [] => None
  | param :: rest =>
      if p_required param && (List.length args <=? positionalIndex) then
        Some ("Missing required argument: " ++ quoted (p_name param))
      else
        match p_options param with
        | Some opts =>
            if negb (option_allowed opts args positionalIndex) then
              Some ("Invalid value for argument " ++ quoted (p_name param)
                    ++ ": expected one of "
                    ++ quoted (join (String dquote (", " ++ String dquote EmptyString)) opts)
                    ++ ", got " ++ quoted (arg_text args positionalIndex))
            else check_positional rest args (S positionalIndex)
        | None => check_positional rest args (S positionalIndex)
        end
  end.

(** A property name: [undefined] names the property ["undefined"]. *)
Definition key_text (k : option string) : string :=
  match k with
  | Some s => s
  | None => "undefined"
  end.

(** The loop over [flagSchema] for required flags; [flags[param.name]]
    and [flags[param.short]] are reads of any name, which also find what
    the object inherits. *)
Fixpoint check_required_flags (flagSchema : list schema_param) (flags : jsobj)
  : option string :=
  match flagSchema with
  | [] => None
  | param :: rest =>
      if p_required param && obj_absent flags (p_name param)
         && obj_absent flags (key_text (p_short param))
      then Some ("Missing required flag: " ++ quoted ("--" ++ p_name param))
      else check_required_flags rest flags
  end.

(** [s.name === flagName || s.short === flagName] *)
Definition names_flag (flagName : string) (s : schema_param) : bool :=
  String.eqb (p_name s) flagName
  || match p_short s with
     | Some sh => String.eqb sh flagName
     | None => false
     end.

(** [unregisterCommand] called where the entry was just read from
    [commands]: the call cannot throw there. *)
Definition unregister_defined (w : world) (n : string) : world :=
  match unregisterCommand w n with
  | Ok w' => w'
  | Throw _ => w
  end.

(** The loop over [Object.keys(flags)]: the error of the first flag that
    fails, the flags object as the loop leaves it, and the world. *)
Fixpoint check_flags (keys : list string) (flagSchema : list schema_param)
         (n : string) (flags : jsobj) (w : world)
  : option string * jsobj * world :=
  match keys with
  | [] => (None, flags, w)
  | flagName :: rest =>
      match find (names_flag flagName) flagSchema with
      | None => check_flags rest flagSchema n flags w
      | Some flagDef =>
          match p_datatype flagDef with
          | None =>
              (Some ("Flag definition for " ++ quoted ("--" ++ p_name flagDef)
                     ++ " is missing datatype (string, num, bool)"),
               flags, unregister_defined w n)
          | Some flagType =>
              let '(actualType, assigned) := coerce (obj_get flags flagName) in
              let flags' :=
                match assigned with
                | Some value => obj_set flags flagName value
                | None => flags
                end in
              if negb (String.eqb flagType actualType) then
                (Some ("Invalid value for flag " ++ quoted ("--" ++ p_name flagDef)
                       ++ ": expected " ++ flagType ++ ", got " ++ actualType),
                 flags', w)
              else if truthy (p_default flagDef)
                      && negb (String.eqb (typeof (p_default flagDef)) flagType)
              then
                (Some ("Invalid default value for flag "
                       ++ quoted ("--" ++ p_name flagDef)),
                 flags', unregister_defined w n)
              else check_flags rest flagSchema n flags' w
          end
      end
  end.

(** [verify(name, args, flags)]: the result ([None] is [undefined], when
    the service is disabled), the object [flags] as the call leaves it,
    and the world. *)
Definition verify (w : world) (n : option string) (args : list string)
           (flags : jsobj) : option verification * jsobj * world :=
  if negb (cmd_enabled (cmd w)) then (None, flags, w)
  else
    let w1 := record w ("CommandService_verify " ++ name_text n) in
    match n with
    | None => (Some (NotValid ("Unknown command: " ++ quoted (name_text n))),
               flags, w1)
    | Some nm =>
        match map_get (commands (cmd w)) nm with
        | None => (Some (NotValid ("Unknown command: " ++ quoted nm)), flags, w1)
        | Some e =>
            let positionalSchema := filter is_positional (schema (body e)) in
            let flagSchema := filter is_flag (schema (body e)) in
            match check_positional positionalSchema args 0 with
            | Some err => (Some (NotValid err), flags, w1)
            | None =>
                match check_required_flags flagSchema flags with
                | Some err => (Some (NotValid err), flags, w1)
                | None =>
                    match check_flags (obj_keys flags) flagSchema nm flags w1 with
                    | (Some err, flags', w2) => (Some (NotValid err), flags', w2)
                    | (None, flags', w2) => (Some (Valid flags'), flags', w2)
                    end
                end
            end
        end
    end.

(** [CommandService.validateCommand] *)
Definition valid_datatype (d : option string) : bool :=
  match d with
  | Some t => includes ["boolean"; "string"; "number"] t
  | None => false
  end.

Definition validate_param (n : string) (w : world) (param : schema_param)
  : world :=
  if String.eqb (p_type param) "flag" && negb (valid_datatype (p_datatype param))
  then
    os_error (unregister_defined w n)
      (VStr ("Invalid schema for command " ++ quoted n ++ ": Flag "
             ++ quoted (p_name param)
             ++ " has invalid or missing datatype (must be "
             ++ quoted "boolean" ++ ", " ++ quoted "string" ++ ", or "
             ++ quoted "number" ++ ")"))
  else w.

Definition validateCommand (w : world) (n : string) : res world :=
  if negb (cmd_enabled (cmd w)) then Ok w
  else match map_get (commands (cmd w)) n with
       | None => Throw (JsError ("Cannot validate unknown command: " ++ quoted n))
       | Some e =>
           Ok (fold_left (validate_param n) (schema (body e))
                         (record w ("CommandService_validate " ++ n)))
       end.

(** ** [CommandExecService]: the switches *)

Definition set_exec_enabled (w : world) (b : bool) : world :=
  set_exec w {| exec_enabled := b; exec_os := exec_os (exec w);
                queue := queue (exec w); running := running (exec w);
                currentAbort := currentAbort (exec w);
                currentReject := currentReject (exec w);
                controllers := controllers (exec w);
                inflight := inflight (exec w);
                next_ticket := next_ticket (exec w);
                resolved := resolved (exec w); rejected := rejected (exec w);
                history := history (exec w) |}.

Definition exec_enable (w : world) : world :=
  record (set_exec_enabled w true) "CommandExecService_enable".

Definition exec_disable (w : world) : world :=
  record (set_exec_enabled w false) "CommandExecService_disable".

(** [signal.aborted] of the controller [c]. *)
Definition signal_aborted (w : world) (c : nat) : bool :=
  nth c (controllers (exec w)) false.

(** ** [SaviorService]: the switches *)

Definition savior_enable (w : world) : world :=
  if sav_enabled (savior w) then w
  else record (set_savior w {| sav_enabled := true;
                               sav_os := sav_os (savior w) |})
              "SaviorService_enable".

Definition savior_disable (w : world) : world :=
  if negb (sav_enabled (savior w)) then w
  else record (set_savior w {| sav_enabled := false;
                               sav_os := sav_os (savior w) |})
              "SaviorService_disable".

(** ** The display of the diagnostics log ([service logs]) *)

(** [xs[xs.length - 1]] *)
Definition last_entry (xs : list string) : option string :=
  match rev xs with
  | [] => None
  | x :: _ => Some x
  end.

(** [xs[xs.length - 1] = x] on a non-empty array. *)
Definition set_last_entry (xs : list string) (x : string) : list string :=
  (removelast xs ++ [x])%list.

(** One iteration of the first loop: [compressed] and [increment]. *)
Definition compress_step (st : list string * nat) (currentEntry : string)
  : list string * nat :=
  let '(compressed, increment) := st in
  match last_entry compressed with
  | None => ((compressed ++ [currentEntry])%list, increment)
  | Some lastEntry =>
      if String.eqb currentEntry lastEntry then (compressed, S increment)
      else if 0 <? increment then
        let counted := lastEntry ++ " (x" ++ of_nat (increment + 1) ++ ")" in
        ((set_last_entry compressed counted ++ [currentEntry])%list, 0)
      else ((compressed ++ [currentEntry])%list, increment)
  end.

Definition compress (uncompressed : list string) : list string :=
  fst (fold_left compress_step uncompressed ([], 0)).

(** The text up to the first closing bracket, and the text after it. *)
Fixpoint until_bracket (s : string) : option (string * string) :=
  match s with
  | EmptyString => None
  | String c r =>
      if Ascii.eqb c "]" then Some (EmptyString, r)
      else match until_bracket r with
           | Some (a, b) => Some (String c a, b)
           | None => None
           end
  end.

(** A match of the stamp pattern (an opening bracket at the start, the
    characters other than a closing bracket, a closing bracket): the group
    and the text after the match. *)
Definition match_stamp (line : string) : option (string * string) :=
  match line with
  | String c r => if Ascii.eqb c "[" then until_bracket r else None
  | EmptyString => None
  end.

(** One iteration of the second loop: [lastStamp] and the lines already
    visited. *)
Definition blank_step (st : option string * list string) (line : string)
  : option string * list string :=
  let '(lastStamp, done) := st in
  match match_stamp line with
  | None => (lastStamp, (done ++ [line])%list)
  | Some (stamp, rest) =>
      if match lastStamp with
         | Some l => String.eqb stamp l
         | None => false
         end
      then
        let blanked := "[" ++ repeat_space (String.length stamp) ++ "]" ++ rest in
        (lastStamp, (done ++ [blanked])%list)
      else (Some stamp, (done ++ [line])%list)
  end.

Definition blank_stamps (compressed : list string) : list string :=
  snd (fold_left blank_step compressed (None, [])).

(** The final [map]: when the stamp pattern is followed by a space, the
    stamp goes to [loc] and the text after the space is the content. *)
Definition display_line (x : string) : jsval :=
  match match_stamp x with
  | Some (stamp, String c content) =>
      if Ascii.eqb c " "
      then mk_line "line" content ("[" ++ stamp ++ "]")
      else mk_line "line" x EmptyString
  | _ => mk_line "line" x EmptyString
  end.

(** [s.padEnd(n, " ")] *)
Definition padEnd (s : string) (n : nat) : string :=
  s ++ repeat_space (n - String.length s).

(** ** The handlers *)

(** [{ args, flags, pipe }] *)
Record params := {
  pr_args : list string;
  pr_flags : jsobj;
  pr_pipe : jsval
}.

(** [String(v)]; of a number kept as [NOther] the source text is given. *)
Fixpoint js_String (v : jsval) : string :=
  match v with
  | VUndefined => "undefined"
  | VNull => "null"
  | VBool true => "true"
  | VBool false => "false"
  | VNum (NInt z) => of_Z z
  | VNum (NOther src) => src
  | VStr s => s
  | VObj _ => "[object Object]"
  | VArr items =>
      join "," (map (fun i => match i with
                              | VUndefined | VNull => EmptyString
                              | _ => js_String i
                              end) items)
  end.

(** The message of [new OSError(v)]. *)
Definition error_message (v : jsval) : string :=
  match v with
  | VUndefined => EmptyString
  | _ => js_String v
  end.

(** [v.length] *)
Definition length_of (v : jsval) : jsval :=
  match v with
  | VArr items => VNum (NInt (Z.of_nat (List.length items)))
  | VStr s => VNum (NInt (Z.of_nat (String.length s)))
  | _ => VUndefined
  end.

Section Engine.

(** [os.timestamp('d/mn/Y h:m:s.l z', t)]: the rendering of a time
    depends on the time zone and locale of the host. *)
Variable timestamp : Z -> string.

(** The handlers of [help] and [findtext], which read the page and use
    the host's collation and regular expressions. *)
Variable extern : handler -> params -> world -> res jsval * world.

(** The [logs] branch of the [service] handler. *)
Definition service_logs (p : params) (w : world) : res jsval * world :=
  let w1 :=
    if truthy (obj_get (pr_flags p) "clear") then
      set_diag w {| diag_enabled := diag_enabled (diag w);
                    diag_os := diag_os (diag w);
                    diagnosticData := [] |}
    else w in
  let uncompressed :=
    map (fun e => "[" ++ timestamp (snd e) ++ "] " ++ fst e) (getData w1) in
  (Ok (VArr (map display_line (blank_stamps (compress uncompressed)))), w1).

(** The [list] branch. *)
Definition service_list (w : world) : res jsval * world :=
  let services :=
    [("OutputService", out_enabled (out w));
     ("CommandExecService", exec_enabled (exec w));
     ("CommandService", cmd_enabled (cmd w));
     ("DiagnosticService", diag_enabled (diag w));
     ("SaviorService", sav_enabled (savior w))] in
  let max := fold_left Nat.max (map (fun s => String.length (fst s)) services) 0 in
  (Ok (VArr (map (fun s : string * bool =>
                    mk_line "html"
                      (padEnd (fst s) max ++ " : "
                       ++ (if snd s
                           then "<span class='enabled'>ENABLED</span>"
                           else "<span class='disabled'>DISABLED</span>"))
                      EmptyString) services)), w).

(** The services of [serviceMap]. *)
Inductive service := SOutput | SCommandExec | SCommand | SDiagnostic | SSavior.

(** [serviceMap[key]]: one of the five services, a property inherited
    from [Object.prototype] (truthy, but with no [enable] or [disable]),
    or [undefined]. *)
Inductive service_lookup :=
  | Found (s : service)
  | Inherited
  | Missing.

Definition serviceMap (key : string) : service_lookup :=
  if String.eqb key "output" then Found SOutput
  else if String.eqb key "commandexec" then Found SCommandExec
  else if String.eqb key "command" then Found SCommand
  else if String.eqb key "diagnostic" then Found SDiagnostic
  else if String.eqb key "savior" then Found SSavior
  else if String.eqb key "constructor" || String.eqb key "__proto__"
  then Inherited
  else Missing.

Definition service_enable (s : service) (w : world) : world :=
  match s with
  | SOutput => out_enable w
  | SCommandExec => exec_enable w
  | SCommand => cmd_enable w
  | SDiagnostic => diag_enable w
  | SSavior => savior_enable w
  end.

Definition service_disable (s : service) (w : world) : world :=
  match s with
  | SOutput => out_disable w
  | SCommandExec => exec_disable w
  | SCommand => cmd_disable w
  | SDiagnostic => diag_disable w
  | SSavior => savior_disable w
  end.

Definition criticalServices : list string := ["commandexec"; "savior"; "command"].

(** The [enable]/[disable] branch. *)
Definition service_switch (action : string) (p : params) (w : world)
  : res jsval * world :=
  match nth_error (pr_args p) 1 with
  | None => (Ok (mk_error "Service name is required for enable/disable action"), w)
  | Some serviceName =>
      if negb (nonempty serviceName) then
        (Ok (mk_error "Service name is required for enable/disable action"), w)
      else
        match serviceMap (toLowerCase serviceName) with
        | Missing =>
            (Ok (mk_error ("Unknown service: " ++ quoted serviceName
                           ++ ". Valid services are: "
                           ++ "output, commandexec, command, diagnostic, savior")),
             w)
        | Inherited =>
            (Throw (JsError "TypeError: service.enable/disable is not a function"), w)
        | Found sv =>
            if String.eqb action "enable" then
              (Ok (mk_line "line" ("Enabled " ++ serviceName ++ " service")
                           EmptyString),
               service_enable sv w)
            else if includes criticalServices (toLowerCase serviceName)
                    && negb (truthy (obj_get (pr_flags p) "confirm"))
            then
              (Ok (mk_error ("The " ++ quoted serviceName
                             ++ " service is critical for the operation of the OS."
                             ++ " Use --confirm flag to confirm that you want to disable it.")),
               w)
            else
              (Ok (mk_line "line" ("Disabled " ++ serviceName ++ " service")
                           EmptyString),
               service_disable sv w)
        end
  end.

(** The handler of [service]. *)
Definition service_handler (p : params) (w : world) : res jsval * world :=
  match nth_error (pr_args p) 0 with
  | Some action =>
      if String.eqb action "logs" then service_logs p w
      else if String.eqb action "list" then service_list w
      else if String.eqb action "enable" || String.eqb action "disable"
      then service_switch action p w
      else (Ok VUndefined, w)
  | None => (Ok VUndefined, w)
  end.

Definition opt_str (o : option string) : jsval :=
  match o with
  | Some s => VStr s
  | None => VUndefined
  end.

(** [fn(params, os, signal)] for the handler [h]. *)
Definition run_handler (h : handler) (p : params) (w : world)
  : res jsval * world :=
  match h with
  | HService => service_handler p w
  | HClear => (Ok VUndefined, set_elem (out_clear w) [])
  | HPrint =>
      (Ok (VObj [("type", VStr "line");
                 ("content", opt_str (nth_error (pr_args p) 0));
                 ("loc", match nth_error (pr_args p) 1 with
                         | Some l => if nonempty l then VStr l else VStr EmptyString
                         | None => VStr EmptyString
                         end)]), w)
  | HObuffer =>
      match out_flush w with
      | (Ok _, w') => (Ok VUndefined, w')
      | (Throw x, w') => (Throw x, w')
      end
  | HCommandline => (Ok VUndefined, os_commandLine w)
  | HLinecount =>
      if truthy (pr_pipe p) then
        (Ok (VObj [("type", VStr "line"); ("content", length_of (pr_pipe p));
                   ("loc", VStr EmptyString)]), w)
      else
        (Ok (VObj [("type", VStr "line");
                   ("content", VNum (NInt (Z.of_nat (List.length (elem w)) - 1)));
                   ("loc", VStr EmptyString)]), w)
  | HHelp | HFindtext => extern h p w
  | HConst v => (Ok v, w)
  end.

(** ** [OS.runSingle] and [OS.runChain] *)

(** The loop that renames short flags. *)
Definition normalize_flags (flagSchema : list schema_param) (flags : jsobj)
  : jsobj :=
  fold_left
    (fun normalizedFlags kv =>
       match find (fun s => match p_short s with
                            | Some sh => String.eqb sh (fst kv)
                            | None => false
                            end) flagSchema with
       | Some flagDef => obj_set normalizedFlags (p_name flagDef) (snd kv)
       | None => obj_set normalizedFlags (fst kv) (snd kv)
       end)
    flags [].

(** [runSingle(fragment, signal, pipe)]: what it returns or throws, the
    fragment object as the call leaves it, and the world. *)
Definition runSingle (f : fragment) (signal : nat) (pipe : jsval) (w : world)
  : res jsval * fragment * world :=
  let '(verification, flags', w1) := verify w (name f) (args f) (flags f) in
  let f' := {| name := name f; args := args f; flags := flags' |} in
  match verification with
  | None => (Throw (OSError "CommandService is disabled."), f', w1)
  | Some v =>
      if signal_aborted w1 signal then
        (Throw AbortError, f', record w1 "OS_runSingle_aborted")
      else if negb (match name f with
                    | Some nm => registered_includes w1 nm
                    | None => false
                    end)
      then (Throw (OSError ("Unknown command: " ++ quoted (name_text (name f)))),
            f', w1)
      else
        match v with
        | NotValid error => (Throw (OSError error), f', w1)
        | Valid _ =>
            match map_get (commands (cmd w1)) (name_text (name f)) with
            | None => (Throw (JsError "TypeError: entry is undefined"), f', w1)
            | Some e =>
                let flagSchema := filter is_flag (schema (body e)) in
                let normalizedFlags := normalize_flags flagSchema flags' in
                let w2 := record w1 ("CommandExecService_run "
                                     ++ name_text (name f)) in
                match run_handler (fn e)
                        {| pr_args := args f; pr_flags := normalizedFlags;
                           pr_pipe := pipe |} w2 with
                | (Throw x, w3) => (Throw x, f', w3)
                | (Ok result, w3) =>
                    if is_str (type_field result) "error"
                    then (Throw (OSError (error_message (content_field result))),
                          f', w3)
                    else (Ok (or_null result), f', w3)
                end
            end
        end
  end.

(** The next value of [pipe] from what [runSingle] returned. *)
Definition next_pipe (result : jsval) : jsval :=
  if is_str (type_field result) "line" then VArr [result]
  else if isArray result then result
  else or_null result.

(** The [for] loop of [runChain] from the fragment at hand on. *)
Fixpoint runChain_loop (parts : list fragment) (signal : nat) (pipe : jsval)
         (w : world) : res jsval * list fragment * world :=
  match parts with
  | [] => (Ok pipe, [], w)
  | f :: rest =>
      if signal_aborted w signal then
        (Throw AbortError, parts, record w "OS_runChain_aborted")
      else
        match runSingle f signal pipe w with
        | (Throw x, f', w') => (Throw x, f' :: rest, w')
        | (Ok result, f', w') =>
            let '(r, rest', w'') :=
              runChain_loop rest signal (next_pipe result) w' in
            (r, f' :: rest', w'')
        end
  end.

(** [runChain(chain, signal)]: what it returns or throws, the chain as
    the call leaves it, and the world. *)
Definition runChain (c : chain) (signal : nat) (w : world)
  : res jsval * chain * world :=
  match runChain_loop c signal VNull w with
  | (Ok pipe, c', w') =>
      match pipe with
      | VArr lines => (Ok pipe, c', fold_left out_add lines w')
      | _ => (Ok pipe, c', w')
      end
  | other => other
  end.

End Engine.

(** ** [CommandExecService]: the queue *)

Definition exec_init (w : world) : world :=
  if exec_os (exec w) then w
  else
    record
      (set_exec w {| exec_enabled := true; exec_os := true;
                     queue := []; running := false;
                     currentAbort := currentAbort (exec w);
                     currentReject := currentReject (exec w);
                     controllers := controllers (exec w);
                     inflight := inflight (exec w);
                     next_ticket := next_ticket (exec w);
                     resolved := resolved (exec w);
                     rejected := rejected (exec w);
                     history := (map (fun i => Dropped (q_ticket i)) (queue (exec w))
                                 ++ history (exec w))%list |})
      "CommandExecService_init".

(** [runNext] up to its first [await]: the guards, the dequeue and the
    new controller; [os.runChain(chain, controller.signal)] is then under
    way and the call is suspended. What the chain does, from its first
    fragment on, is left to the events that follow ([step]), or to
    [runChain] ([finish]). A [throw] in this [async] function rejects a
    promise nobody holds. *)
Definition runNext (w : world) : world :=
  let e := exec w in
  if negb (exec_enabled e) then w
  else if negb (exec_os e) then w
  else if running e then w
  else
    match queue e with
    | [] => w
    | item :: rest =>
        let controller := List.length (controllers e) in
        set_exec w {| exec_enabled := exec_enabled e; exec_os := exec_os e;
                      queue := rest; running := true;
                      currentAbort := Some controller;
                      currentReject := Some (q_ticket item);
                      controllers := (controllers e ++ [false])%list;
                      inflight := (inflight e ++ [{| act_item := item;
                                                     act_controller := controller |}])%list;
                      next_ticket := next_ticket e;
                      resolved := resolved e; rejected := rejected e;
                      history := Started (q_ticket item) :: history e |}
    end.

(** [enqueue(chain)]: the promise returned ([None] is [undefined]) and
    the world. The executor of the promise runs at once. *)
Definition enqueue (w : world) (c : chain) : res (option nat) * world :=
  if negb (exec_enabled (exec w)) then (Ok None, w)
  else if negb (exec_os (exec w)) then
    (Throw (JsError "CommandExecService not initialized with OS instance"), w)
  else
    let w1 := record w ("CommandExecService_enqueue " ++ simplify c) in
    let e := exec w1 in
    let ticket := next_ticket e in
    let w2 :=
      set_exec w1 {| exec_enabled := exec_enabled e; exec_os := exec_os e;
                     queue := (queue e ++ [{| q_chain := c; q_ticket := ticket |}])%list;
                     running := running e;
                     currentAbort := currentAbort e;
                     currentReject := currentReject e;
                     controllers := controllers e;
                     inflight := inflight e;
                     next_ticket := S ticket;
                     resolved := resolved e; rejected := rejected e;
                     history := Enqueued ticket :: history e |} in
    (Ok (Some ticket), runNext w2).

(** Is the promise already settled? *)
Definition is_settled (e : exec_service) (ticket : nat) : bool :=
  existsb (fun r => fst r =? ticket) (resolved e)
  || existsb (fun r => fst r =? ticket) (rejected e).

(** [resolve(v)] of the promise [ticket]: the first settlement stays. *)
Definition resolve (w : world) (ticket : nat) (v : jsval) : world :=
  let e := exec w in
  if is_settled e ticket then w
  else
    set_exec w {| exec_enabled := exec_enabled e; exec_os := exec_os e;
                  queue := queue e; running := running e;
                  currentAbort := currentAbort e;
                  currentReject := currentReject e;
                  controllers := controllers e; inflight := inflight e;
                  next_ticket := next_ticket e;
                  resolved := (resolved e ++ [(ticket, v)])%list;
                  rejected := rejected e;
                  history := Resolved ticket :: history e |}.

(** [controller.abort()] *)
Fixpoint set_aborted (cs : list bool) (c : nat) : list bool :=
  match cs, c with
  | [], _ => []
  | _ :: r, O => true :: r
  | b :: r, S c' => b :: set_aborted r c'
  end.

Definition abort (w : world) (c : nat) : world :=
  let e := exec w in
  set_exec w {| exec_enabled := exec_enabled e; exec_os := exec_os e;
                queue := queue e; running := running e;
                currentAbort := currentAbort e;
                currentReject := currentReject e;
                controllers := set_aborted (controllers e) c;
                inflight := inflight e;
                next_ticket := next_ticket e;
                resolved := resolved e; rejected := rejected e;
                history := history e |}.

(** [interrupt(err)] *)
Definition interrupt (w : world) (err : jsval) : world :=
  if negb (exec_enabled (exec w)) then w
  else if negb (exec_os (exec w)) then w
  else
    let e := exec w in
    let w1 :=
      set_exec w {| exec_enabled := exec_enabled e; exec_os := exec_os e;
                    queue := []; running := running e;
                    currentAbort := currentAbort e;
                    currentReject := currentReject e;
                    controllers := controllers e; inflight := inflight e;
                    next_ticket := next_ticket e;
                    resolved := resolved e; rejected := rejected e;
                    history := (map (fun i => Dropped (q_ticket i)) (queue e)
                                ++ history e)%list |} in
    let w2 := record w1 "CommandExecService_interrupt" in
    match currentAbort (exec w2) with
    | Some c => abort w2 c
    | None => w2
    end.

(** An exception leaves the [catch] clause of [runNext]: the promise of
    the chain is not touched (the promise of the [async] call, which
    nobody holds, is rejected once the [finally] clause is through). *)
Definition escaped (w : world) (ticket : nat) : world :=
  let e := exec w in
  set_exec w {| exec_enabled := exec_enabled e; exec_os := exec_os e;
                queue := queue e; running := running e;
                currentAbort := currentAbort e;
                currentReject := currentReject e;
                controllers := controllers e; inflight := inflight e;
                next_ticket := next_ticket e;
                resolved := resolved e; rejected := rejected e;
                history := Escaped ticket :: history e |}.

(** The rest of [runNext] once the awaited [runChain] of the activation
    [a] has returned or thrown [o] (for a returned value, after the pause
    of [delay] milliseconds): the [try] continuation or the [catch]
    clause. In the clause for an abort, [resolve(null)] comes after
    [OutputService.flush()] and is not reached when that throws. *)
Definition conclude (w : world) (a : activation) (o : res jsval) : world :=
  let ticket := q_ticket (act_item a) in
  let c := q_chain (act_item a) in
  match o with
  | Ok result => resolve w ticket result
  | Throw AbortError =>
      match out_flush (out_add w (mk_error "Command execution interrupted.")) with
      | (Ok _, w1) => resolve w1 ticket VNull
      | (Throw _, w1) => escaped w1 ticket
      end
  | Throw (OSError message) =>
      resolve (out_add (record w ("CommandExecService_commandError "
                                  ++ simplify c))
                       (mk_error message))
              ticket VNull
  | Throw (JsError _) =>
      resolve (out_add (record w ("CommandExecService_unexpectedError "
                                  ++ simplify c))
                       (mk_error "An unexpected error occurred. Check console for details."))
              ticket VNull
  end.

(** The [finally] clause of [runNext] for the activation [a]. *)
Definition release (w : world) (a : activation) : world :=
  let e := exec w in
  let w' :=
    set_exec w {| exec_enabled := exec_enabled e; exec_os := exec_os e;
                  queue := queue e; running := false;
                  currentAbort := None; currentReject := None;
                  controllers := controllers e;
                  inflight := filter (fun a' => negb (q_ticket (act_item a')
                                                      =? q_ticket (act_item a)))
                                     (inflight e);
                  next_ticket := next_ticket e;
                  resolved := resolved e; rejected := rejected e;
                  history := Ended (q_ticket (act_item a)) :: history e |} in
  if negb (signal_aborted w' (act_controller a)) then runNext w' else w'.

Definition settle (w : world) (a : activation) (o : res jsval) : world :=
  release (conclude w a o) a.

(** The suspended call of [runNext] for a ticket. *)
Definition find_activation (w : world) (ticket : nat) : option activation :=
  find (fun a => q_ticket (act_item a) =? ticket) (inflight (exec w)).

(** What can happen to the execution service, one event at a time:
    the calls of its methods, the settling of the chain in flight, and
    anything else in the program, which may change every other service,
    the page and the clock. *)
Inductive event :=
| EInit
| EEnqueue (c : chain)
| ESettle (ticket : nat) (o : res jsval)
| EInterrupt (err : jsval)
| EEnable
| EDisable
| EElsewhere (others : world).

Definition step (w : world) (ev : event) : world :=
  match ev with
  | EInit => exec_init w
  | EEnqueue c => snd (enqueue w c)
  | ESettle ticket o =>
      match find_activation w ticket with
      | Some a => settle w a o
      | None => w
      end
  | EInterrupt err => interrupt w err
  | EEnable => exec_enable w
  | EDisable => exec_disable w
  | EElsewhere others => set_exec others (exec w)
  end.

Definition run (w : world) (evs : list event) : world := fold_left step evs w.

(** ** [defineCommands] and the constructor of [OS] *)

Definition positional (n : string) (required : bool)
           (opts : option (list string)) (pipeableFrom : option string)
  : schema_param :=
  {| p_type := "positional"; p_name := n; p_required := required;
     p_options := opts; p_short := None; p_datatype := None;
     p_default := VUndefined; p_pipeableFrom := pipeableFrom |}.

Definition flag (n : string) (short : option string) (required : bool)
           (datatype : string) : schema_param :=
  {| p_type := "flag"; p_name := n; p_required := required;
     p_options := None; p_short := short; p_datatype := Some datatype;
     p_default := VUndefined; p_pipeableFrom := None |}.

Definition command (description : string) (alias : option string)
           (hidden : bool) (sch : list schema_param) : command_body :=
  {| options := {| o_description := description; o_alias := alias;
                   o_hidden := hidden |};
     schema := sch; aliasOf := None |}.

Definition service_body : command_body :=
  command "Lists all available services and their status" None false
    [positional "action" true (Some ["list"; "enable"; "disable"; "logs"]) None;
     positional "service" false None None;
     flag "confirm" None false "boolean";
     flag "clear" (Some "c") false "boolean"].

Definition clear_body : command_body :=
  command "Clears the output buffer and the console" (Some "cls") false [].

Definition print_body : command_body :=
  command "Prints the provided arguments to the console" None false
    [positional "text" true None (Some "text");
     {| p_type := "positional"; p_name := "loc_text"; p_required := false;
        p_options := None; p_short := Some "l"; p_datatype := Some "string";
        p_default := VUndefined; p_pipeableFrom := None |}].

Definition obuffer_body : command_body :=
  command "Outputs the current output buffer" None true [].

Definition commandline_body : command_body :=
  command "Outputs a new command line for input" None true [].

Definition linecount_body : command_body :=
  command "Outputs the number of lines" (Some "lc") false [].

Definition help_body : command_body :=
  command ("Lists all available commands. To get help with a specific command, use "
           ++ quoted "help commandname")
    (Some "?") false
    [flag "aliases" (Some "a") false "boolean";
     positional "command" false None None;
     flag "verbose" (Some "v") false "boolean"].

Definition findtext_body : command_body :=
  command "Find text" (Some "find") false
    [positional "text" true None (Some "text");
     flag "ignorecase" (Some "i") false "boolean";
     flag "regex" (Some "r") false "boolean"].

Definition defineCommands (w : world) : res world :=
  let w1 := defineCommand w "service" service_body HService in
  let w2 := defineCommand w1 "clear" clear_body HClear in
  let w3 := defineCommand w2 "print" print_body HPrint in
  let w4 := defineCommand w3 "obuffer" obuffer_body HObuffer in
  let w5 := defineCommand w4 "commandline" commandline_body HCommandline in
  let w6 := defineCommand w5 "linecount" linecount_body HLinecount in
  let w7 := defineCommand w6 "help" help_body HHelp in
  let w8 := defineCommand w7 "findtext" findtext_body HFindtext in
  bulkRegister w8 ["print"; "obuffer"; "commandline"; "linecount"; "help";
                   "clear"; "service"; "findtext"].

(** [OS.validateCommands]: [listCommands()] is an array of the member
    sets themselves, so each member is read as it is when its turn comes
    (an earlier [validateCommand] may have emptied it); [Array.from(name)[0]]
    is its first name, [undefined] when it is empty. *)
Fixpoint validate_loop (count i : nat) (w : world) : res world :=
  match count with
  | O => Ok w
  | S count' =>
      match nth_error (registeredCommands (cmd w)) i with
      | None => Ok w
      | Some member =>
          let validated :=
            match member with
            | first :: _ => validateCommand w first
            | [] =>
                if negb (cmd_enabled (cmd w)) then Ok w
                else Throw (JsError ("Cannot validate unknown command: "
                                     ++ quoted "undefined"))
            end in
          match validated with
          | Ok w' => validate_loop count' (S i) w'
          | Throw x => Throw x
          end
      end
  end.

Definition validateCommands (w : world) : res world :=
  match listCommands w with
  | Some members => validate_loop (List.length members) 0 w
  | None => Throw (JsError "TypeError: listCommands() is undefined")
  end.

Definition savior_init (w : world) : world :=
  if sav_os (savior w) then w
  else record (set_savior w {| sav_enabled := true; sav_os := true |})
              "SaviorService_init".

(** The constructor of [OS], up to the wiring of the page. *)
Definition os_new (w : world) : res world :=
  let w1 := cmd_init (diag_init w) in
  match defineCommands w1 with
  | Throw x => Throw x
  | Ok w2 =>
      match validateCommands w2 with
      | Throw x => Throw x
      | Ok w3 => Ok (savior_init (out_init (exec_init w3)))
      end
  end.

(** The world once [new OS(elem)] has run on the fresh classes. *)
Definition booted : world :=
  match os_new world0 with
  | Ok w => w
  | Throw _ => world0
  end.

(** The callback of [SaviorService.watch(service)], for the two services
    watched. *)
Definition savior_watch (sv : service) (w : world) : world :=
  if negb (sav_enabled (savior w)) then w
  else
    let '(disabled, label) :=
      match sv with
      | SCommandExec => (negb (exec_enabled (exec w)), "CommandExecService")
      | SCommand => (negb (cmd_enabled (cmd w)), "CommandService")
      | SOutput => (negb (out_enabled (out w)), "OutputService")
      | SDiagnostic => (negb (diag_enabled (diag w)), "DiagnosticService")
      | SSavior => (negb (sav_enabled (savior w)), "SaviorService")
      end in
    if disabled then
      let w1 := os_savior w (VStr ("Enabled " ++ label)) in
      let w2 := record w1 ("SaviorService_save " ++ label) in
      os_commandLine (service_enable sv (out_clear w2))
    else w.

Section Shell.

Variable timestamp : Z -> string.
Variable extern : handler -> params -> world -> res jsval * world.

(** The chain in flight runs to its end with nothing in between, and
    the suspended [runNext] goes on. *)
Definition finish (w : world) : world :=
  match inflight (exec w) with
  | a :: _ =>
      let '(o, _, w') :=
        runChain timestamp extern (q_chain (act_item a)) (act_controller a) w in
      settle w' a o
  | [] => w
  end.

(** [enqueue(chain)], then the chain in flight running to its end with
    nothing in between. *)
Definition submit (w : world) (c : chain) : world :=
  finish (snd (enqueue w c)).

End Shell.

(** ** Predicates of the statements *)

(** Characters with a meaning for [parsePipeline]. *)
Definition is_pipe (c : ascii) : bool := Ascii.eqb c "|".
Definition is_backslash (c : ascii) : bool := Ascii.eqb c "\".
Definition is_squote (c : ascii) : bool := Ascii.eqb c "'".
Definition is_dquote (c : ascii) : bool := Ascii.eqb c dquote.

(** The splitting of a line into stages as the specification words it:
    the scan keeps the quote state (outside, within single quotes,
    within double quotes) and whether the next character is escaped. *)
Inductive quote_state := Outside | WithinSingle | WithinDouble.

Record scan_state := {
  sc_quote : quote_state;
  sc_escaped : bool
}.

Definition scan_init : scan_state := {| sc_quote := Outside; sc_escaped := false |}.

(** The state after a character: an escaped character changes nothing
    but ends the escape; a backslash escapes the next character; a quote
    opens or closes its own quote state and is a plain character within
    the other. *)
Definition scan_char (st : scan_state) (ch : ascii) : scan_state :=
  if sc_escaped st then {| sc_quote := sc_quote st; sc_escaped := false |}
  else if is_backslash ch then {| sc_quote := sc_quote st; sc_escaped := true |}
  else
    {| sc_quote :=
         match sc_quote st with
         | Outside => if is_squote ch then WithinSingle
                      else if is_dquote ch then WithinDouble
                      else Outside
         | WithinSingle => if is_squote ch then Outside else WithinSingle
         | WithinDouble => if is_dquote ch then Outside else WithinDouble
         end;
       sc_escaped := false |}.

(** A pipe separates two stages when it is outside both quote states
    and not escaped. *)
Definition separates (st : scan_state) (ch : ascii) : bool :=
  is_pipe ch && negb (sc_escaped st)
  && match sc_quote st with Outside => true | _ => false end.

(** The line cut at its separators, which are left out: the text before
    the first one (after [current]), between two of them, after the
    last. *)
Fixpoint cut_stages (input : string) (st : scan_state) (current : string)
  : list string :=
  match input with
  | EmptyString => [current]
  | String ch rest =>
      if separates st ch
      then current :: cut_stages rest (scan_char st ch) EmptyString
      else cut_stages rest (scan_char st ch) (push_char current ch)
  end.

(** The stages: the pieces trimmed, the empty ones dropped. *)
Definition stages_as_specified (input : string) : list string :=
  filter nonempty (map trim (cut_stages input scan_init EmptyString)).

(** The loop variables of [parsePipeline] and the scan of the
    specification go together. *)
Definition scanned (st : pipeline_state) (s : scan_state) : Prop :=
  ps_escape st = sc_escaped s
  /\ (ps_inSingle st, ps_inDouble st)
     = match sc_quote s with
       | Outside => (false, false)
       | WithinSingle => (true, false)
       | WithinDouble => (false, true)
       end.

(** White space or a pipe. *)
Definition ws_or_pipe (c : ascii) : bool := is_ws c || is_pipe c.

(** Neither a pipe, a backslash nor a quote. *)
Definition plain (c : ascii) : bool :=
  negb (is_pipe c) && negb (is_backslash c) && negb (is_squote c)
  && negb (is_dquote c).

(** What may stand between double quotes without closing them. *)
Definition inside_double (c : ascii) : bool :=
  negb (is_dquote c) && negb (is_backslash c).

(** What may stand between single quotes without closing them. *)
Definition inside_single (c : ascii) : bool :=
  negb (is_squote c) && negb (is_backslash c).

(** A string between single quotes. *)
Definition squoted (s : string) : string := String "'" (s ++ "'").

(** The tickets of the queued items, head first. *)
Definition tickets_of (q : list queue_item) : list nat := map q_ticket q.

(** The ticket of an activation. *)
Definition act_ticket (a : activation) : nat := q_ticket (act_item a).

(** A history (latest event first) in which every start came after the
    end, or the removal from the queue, of every chain enqueued earlier,
    and tickets were handed out in increasing order. *)
Fixpoint fifo_ok (h : list history_event) : Prop :=
  match h with
  | [] => True
  | ev :: before =>
      fifo_ok before
      /\ match ev with
         | Started b =>
             forall a, a < b -> In (Enqueued a) before ->
                       In (Ended a) before \/ In (Dropped a) before
         | Enqueued t => forall t', In (Enqueued t') before -> t' < t
         | _ => True
         end
  end.

(** What every reachable state of the execution service satisfies. *)
Record exec_inv (e : exec_service) : Prop := {
  inv_flight :
    (inflight e = [] /\ running e = false)
    \/ (exists a, inflight e = [a] /\ running e = true
                  /\ currentAbort e = Some (act_controller a)
                  /\ act_controller a < List.length (controllers e)
                  /\ exec_os e = true
                  /\ Forall (lt (act_ticket a)) (tickets_of (queue e)));
  inv_os : exec_os e = false -> queue e = [];
  inv_sorted : StronglySorted lt (tickets_of (queue e));
  inv_pending :
    forall t, In t (tickets_of (queue e)) \/ In t (map act_ticket (inflight e)) ->
              t < next_ticket e /\ ~ In (Ended t) (history e);
  inv_bound :
    forall t, In (Enqueued t) (history e) \/ In (Ended t) (history e) ->
              t < next_ticket e;
  inv_status :
    forall t, In (Enqueued t) (history e) ->
              In t (tickets_of (queue e)) \/ In t (map act_ticket (inflight e))
              \/ In (Ended t) (history e) \/ In (Dropped t) (history e);
  inv_settled :
    forall t v, In (t, v) (resolved e) \/ In (t, v) (rejected e) ->
                In (Ended t) (history e);
  inv_fifo : fifo_ok (history e)
}.

(** The execution service with another list of resolved promises. *)
Definition with_resolved (e : exec_service) (r : list (nat * jsval))
  : exec_service :=
  {| exec_enabled := exec_enabled e; exec_os := exec_os e;
     queue := queue e; running := running e;
     currentAbort := currentAbort e; currentReject := currentReject e;
     controllers := controllers e; inflight := inflight e;
     next_ticket := next_ticket e;
     resolved := r; rejected := rejected e; history := history e |}.

(** The execution service with another list of resolved promises and
    another history. *)
Definition with_outcome (e : exec_service) (r : list (nat * jsval))
           (h : list history_event) : exec_service :=
  {| exec_enabled := exec_enabled e; exec_os := exec_os e;
     queue := queue e; running := running e;
     currentAbort := currentAbort e; currentReject := currentReject e;
     controllers := controllers e; inflight := inflight e;
     next_ticket := next_ticket e;
     resolved := r; rejected := rejected e; history := h |}.

(** The events of a promise that [conclude] writes. *)
Definition outcome_event (ev : history_event) : Prop :=
  match ev with
  | Resolved _ | Escaped _ => True
  | _ => False
  end.

(** [enqueue] for each chain of a list, in order. *)
Definition enqueue_all (w : world) (cs : list chain) : world :=
  fold_left (fun w' c => snd (enqueue w' c)) cs w.

(** The statement on [interrupt()] as the specification has it: with a
    chain in flight it empties the queue, cancels the token of that chain
    and invokes the reject hook of its promise with the error. *)
Definition interrupt_as_specified : Prop :=
  forall evs err a,
    let w := run world0 evs in
    In a (inflight (exec w)) ->
    let w' := interrupt w err in
    queue (exec w') = []
    /\ signal_aborted w' (act_controller a) = true
    /\ In (act_ticket a, err) (rejected (exec w')).

(** A registry in service with [clear] (alias [cls]) defined and nothing
    registered. *)
Definition clear_defined : world :=
  defineCommand (cmd_init (diag_init world0)) "clear" clear_body HClear.

(** The statement on a missing required argument as the specification
    has it: whenever a required positional parameter has no argument,
    [verify] fails with the missing-argument error naming it. *)
Definition missing_argument_as_specified : Prop :=
  forall w n e args flags pre param post,
    cmd_enabled (cmd w) = true ->
    map_get (commands (cmd w)) n = Some e ->
    filter is_positional (schema (body e)) = (pre ++ param :: post)%list ->
    p_required param = true ->
    List.length args <= List.length pre ->
    fst (fst (verify w (Some n) args flags))
    = Some (NotValid ("Missing required argument: " ++ quoted (p_name param))).

(** A command with two required positional parameters, the first with
    allowed values. *)
Definition toggle_body : command_body :=
  command "Switches a target on or off" None false
    [positional "action" true (Some ["on"; "off"]) None;
     positional "target" true None (Some "text")].

Definition toggle_defined : world :=
  defineCommand (cmd_init (diag_init world0)) "toggle" toggle_body (HConst VUndefined).

(** Stand-ins for the two parameters of the engine where an example
    needs none of them: a clock text and handlers that do nothing. *)
Definition no_timestamp (t : Z) : string := EmptyString.
Definition no_extern (h : handler) (p : params) (w : world)
  : res jsval * world := (Ok VUndefined, w).



(** The statement on the next pipe value as the specification has it. *)
Definition pipe_conversion_as_specified : Prop :=
  forall timestamp extern f signal pipe w result f' w',
    runSingle timestamp extern f signal pipe w = (Ok result, f', w') ->
    next_pipe result
    = if is_str (type_field result) "line" then VArr [result]
      else if isArray result then result
      else VNull.

(** The booted shell with one more command, [mark], whose handler returns
    a single markup line. *)
Definition markup_line : jsval := mk_line "html" "<b>done</b>" EmptyString.

Definition mark_defined : world :=
  match registerCommand
          (defineCommand booted "mark" (command "Marks" None false [])
                         (HConst markup_line)) "mark" with
  | Ok w => w
  | Throw _ => booted
  end.

(** The execution service with nothing queued and nothing in flight,
    ready to hand out a fresh promise. *)
Definition idle (w : world) : Prop :=
  exec_enabled (exec w) = true /\ exec_os (exec w) = true
  /\ running (exec w) = false /\ queue (exec w) = []
  /\ inflight (exec w) = []
  /\ is_settled (exec w) (next_ticket (exec w)) = false.

(** The error of [service disable] on a critical service without
    [--confirm]. *)
Definition critical_message (serviceName : string) : string :=
  "The " ++ quoted serviceName
  ++ " service is critical for the operation of the OS."
  ++ " Use --confirm flag to confirm that you want to disable it.".

(** The entry of [service] as [defineCommands] makes it. *)
Definition service_entry : entry := {| body := service_body; fn := HService |}.

(** The world right after [enqueue] on an idle queue: the chain is in
    flight under a fresh controller. *)
Definition started (w : world) (c : chain) : world :=
  let w1 := record w ("CommandExecService_enqueue " ++ simplify c) in
  set_exec w1
    {| exec_enabled := true; exec_os := true; queue := []; running := true;
       currentAbort := Some (List.length (controllers (exec w)));
       currentReject := Some (next_ticket (exec w));
       controllers := (controllers (exec w) ++ [false])%list;
       inflight := [{| act_item := {| q_chain := c;
                                      q_ticket := next_ticket (exec w) |};
                       act_controller := List.length (controllers (exec w)) |}];
       next_ticket := S (next_ticket (exec w));
       resolved := resolved (exec w); rejected := rejected (exec w);
       history := Started (next_ticket (exec w))
                  :: Enqueued (next_ticket (exec w)) :: history (exec w) |}.

(** The execution service once a chain submitted to the idle queue of [w]
    has settled with the value [v]: idle again, the promise resolved. *)
Definition settled_exec (w : world) (v : jsval) : exec_service :=
  {| exec_enabled := true; exec_os := true; queue := []; running := false;
     currentAbort := None; currentReject := None;
     controllers := (controllers (exec w) ++ [false])%list;
     inflight := [];
     next_ticket := S (next_ticket (exec w));
     resolved := (resolved (exec w) ++ [(next_ticket (exec w), v)])%list;
     rejected := rejected (exec w);
     history := Ended (next_ticket (exec w))
                :: Resolved (next_ticket (exec w))
                :: Started (next_ticket (exec w))
                :: Enqueued (next_ticket (exec w)) :: history (exec w) |}.

(** A line with the count of its run, as the first loop writes it. *)
Definition counted (line : string) (n : nat) : string :=
  line ++ " (x" ++ of_nat n ++ ")".

(** A run of a log: a line and the number of its repetitions after the
    first, and the lines of a list of runs. *)
Definition expand (runs : list (string * nat)) : list string :=
  List.concat (map (fun r => repeat (fst r) (S (snd r))) runs).

(** The runs are maximal: neighbours differ. *)
Fixpoint maximal_runs (x : string) (runs : list (string * nat)) : Prop :=
  match runs with
  | [] => True
  | (y, _) :: rest => x <> y /\ maximal_runs y rest
  end.

(** A run as the first loop leaves it once another line follows. *)
Definition render (r : string * nat) : string :=
  if 0 <? snd r then counted (fst r) (snd r + 1) else fst r.

(** ** Further predicates of the statements *)

(** A character of an unquoted word: neither a space, a quote nor a
    backslash. *)
Definition wordc (c : ascii) : bool :=
  negb (Ascii.eqb c " ") && negb (is_dquote c) && negb (is_squote c)
  && negb (is_backslash c).

(** A character of a flag name or value: a word character other than the
    equals sign. *)
Definition flagc (c : ascii) : bool := wordc c && negb (Ascii.eqb c "=").

(** The tokenizer state with a text added to the token at hand. *)
Definition ts_extend (st : token_state) (u : string) : token_state :=
  {| ts_current := ts_current st ++ u;
     ts_args := ts_args st; ts_quotedArgs := ts_quotedArgs st;
     ts_inDoubleQuotes := ts_inDoubleQuotes st;
     ts_inSingleQuotes := ts_inSingleQuotes st;
     ts_tokenStartedQuoted := ts_tokenStartedQuoted st |}.

(** The first character of a string is not a dash. *)
Definition no_dash_first (s : string) : bool :=
  match s with
  | String c _ => negb (Ascii.eqb c "-")
  | EmptyString => true
  end.

(** The body [defineCommand] stores under the alias: the clone of [b]
    without [options.alias] and with [aliasOf]. *)
Definition alias_clone (n : string) (b : command_body) : command_body :=
  {| options := {| o_description := o_description (options b);
                   o_alias := None;
                   o_hidden := o_hidden (options b) |};
     schema := schema b;
     aliasOf := Some n |}.

(** [o[k]] is not [undefined]: [o] has the property with a value, or
    has no such property and inherits one. *)
Definition reads_defined (o : jsobj) (k : string) : Prop :=
  obj_get o k <> VUndefined
  \/ (own_key o k = false /\ prototype_member k = true).

(** The value the coercion step of [verify] leaves under a flag that
    held [v]. *)
Definition coerced_value (v : jsval) : jsval :=
  match snd (coerce v) with
  | Some value => value
  | None => v
  end.




(** What [verify] has checked of a flag definition for the value [v]
    supplied: the declared datatype is the type the value is checked
    with, and so is the type of a truthy default. *)
Definition flag_checked (def : schema_param) (v : jsval) : Prop :=
  p_datatype def = Some (fst (coerce v))
  /\ (truthy (p_default def) = true
      -> typeof (p_default def) = fst (coerce v)).

(** The name [runSingle] files a supplied flag under: the long name of
    the first schema flag whose short name it is, else the name as
    supplied. *)
Definition long_name (flagSchema : list schema_param) (key : string) : string :=
  match find (fun s => match p_short s with
                       | Some sh => String.eqb sh key
                       | None => false
                       end) flagSchema with
  | Some flagDef => p_name flagDef
  | None => key
  end.


(** The children [flush] appends to [os.elem] for one buffered line:
    one for a line of type "line", "error", "savior" or "html", none for
    any other. *)
Definition presented (line : jsval) : list dom_line :=
  if is_str (type_field line) "line"
  then [{| d_kind := "line"; d_content := content_field line;
           d_loc := default_arg (loc_field line) ">" |}]
  else if is_str (type_field line) "error"
  then [{| d_kind := "error"; d_content := content_field line;
           d_loc := VStr "ERROR" |}]
  else if is_str (type_field line) "savior"
  then [{| d_kind := "savior"; d_content := content_field line;
           d_loc := VStr "SAVIOR" |}]
  else if is_str (type_field line) "html"
  then [{| d_kind := "html"; d_content := content_field line;
           d_loc := default_arg (loc_field line) EmptyString |}]
  else [].

(** Every start in a history comes after the enqueueing of its ticket
    and after no other start of it. *)
Fixpoint started_ok (h : list history_event) : Prop :=
  match h with
  | [] => True
  | ev :: before =>
      started_ok before
      /\ match ev with
         | Started t => In (Enqueued t) before /\ ~ In (Started t) before
         | _ => True
         end
  end.

(** Every end of a run in a history comes after the promise of the
    chain was resolved, or after an exception left the [catch] clause
    that would have resolved it. *)
Fixpoint ended_ok (h : list history_event) : Prop :=
  match h with
  | [] => True
  | ev :: before =>
      ended_ok before
      /\ match ev with
         | Ended t => In (Resolved t) before \/ In (Escaped t) before
         | _ => True
         end
  end.

(** What every reachable state of the execution service satisfies, on
    the promises [enqueue] returned. *)
Record promise_inv (e : exec_service) : Prop := {
  pi_rejected : rejected e = [];
  pi_once : NoDup (map fst (resolved e));
  pi_queue : NoDup (tickets_of (queue e));
  pi_queued :
    forall t, In t (tickets_of (queue e)) ->
              t < next_ticket e /\ In (Enqueued t) (history e)
              /\ ~ In (Started t) (history e) /\ ~ In (Ended t) (history e)
              /\ ~ In (Dropped t) (history e);
  pi_flight :
    forall t, In t (map act_ticket (inflight e)) ->
              t < next_ticket e
              /\ ~ In t (tickets_of (queue e)) /\ ~ In (Dropped t) (history e)
              /\ In (Started t) (history e)
              /\ ~ In (Resolved t) (history e) /\ ~ In (Escaped t) (history e);
  pi_dropped :
    forall t, In (Dropped t) (history e) ->
              t < next_ticket e /\ ~ In (Started t) (history e)
              /\ ~ In (Ended t) (history e);
  pi_bound :
    forall t, In (Started t) (history e) \/ In (Ended t) (history e) ->
              t < next_ticket e;
  pi_started : started_ok (history e);
  pi_resolved :
    forall t, In (Resolved t) (history e) <-> In t (map fst (resolved e));
  pi_ended : ended_ok (history e);
  pi_outcome :
    forall t, In (Resolved t) (history e) \/ In (Escaped t) (history e) ->
              In (Started t) (history e);
  pi_escaped :
    forall t, In (Escaped t) (history e) -> ~ In (Resolved t) (history e)
}.

(** [service.enabled] *)
Definition service_enabled (s : service) (w : world) : bool :=
  match s with
  | SOutput => out_enabled (out w)
  | SCommandExec => exec_enabled (exec w)
  | SCommand => cmd_enabled (cmd w)
  | SDiagnostic => diag_enabled (diag w)
  | SSavior => sav_enabled (savior w)
  end.

(** A character other than the closing bracket. *)
Definition no_bracket (c : ascii) : bool := negb (Ascii.eqb c "]").

(** A log line as the [logs] branch builds it from a stamp and an
    action. *)
Definition log_line (p : string * string) : string :=
  "[" ++ fst p ++ "] " ++ snd p.

(** Stamps and actions with every stamp that repeats the stamp of the
    line before it replaced by as many spaces. *)
Fixpoint blank_repeats (lastStamp : option string) (ls : list (string * string))
  : list (string * string) :=
  match ls with
  | [] => []
  | (stamp, action) :: rest =>
      (if match lastStamp with
          | Some l => String.eqb stamp l
          | None => false
          end
       then repeat_space (String.length stamp)
       else stamp, action) :: blank_repeats (Some stamp) rest
  end.

(** The maximal runs of a list, first to last: each element that
    starts a run with the number of its repetitions after the first. *)
Fixpoint runs_of {A : Type} (eqb : A -> A -> bool) (l : list A) : list (A * nat) :=
  match l with
  | [] => []
  | x :: rest =>
      match runs_of eqb rest with
      | (y, n) :: rs => if eqb x y then (y, S n) :: rs else (x, 0) :: (y, n) :: rs
      | [] => [(x, 0)]
      end
  end.

(** The entries of the diagnostics log as the display formats them: the
    stamp of the time and the action. *)
Definition log_entries (timestamp : Z -> string) (log : list (string * Z))
  : list (string * string) :=
  map (fun e => (timestamp (snd e), fst e)) log.

Definition entry_eqb (p q : string * string) : bool :=
  String.eqb (fst p) (fst q) && String.eqb (snd p) (snd q).

(** A run of entries as one entry: the count of the run, when it has
    more than one line, goes after the action. *)
Definition render_entry (r : (string * string) * nat) : string * string :=
  (fst (fst r), render (snd (fst r), snd r)).

(** An entry as the line displayed. *)
Definition shown (p : string * string) : jsval :=
  mk_line "line" (snd p) ("[" ++ fst p ++ "]").

(** Stamps and actions with every stamp that was seen on a line
    before replaced by as many spaces: each stamp is kept on its first
    occurrence only. *)
Fixpoint blank_seen (seen : list string) (ls : list (string * string))
  : list (string * string) :=
  match ls with
  | [] => []
  | (stamp, action) :: rest =>
      if existsb (String.eqb stamp) seen
      then (repeat_space (String.length stamp), action) :: blank_seen seen rest
      else (stamp, action) :: blank_seen (stamp :: seen) rest
  end.

(** Equal stamps stand together: between two lines of one stamp there
    are only lines of that stamp. *)
Definition stamps_grouped (ls : list (string * string)) : Prop :=
  forall l1 p l2 q l3,
    ls = (l1 ++ p :: l2 ++ q :: l3)%list -> fst p = fst q ->
    forall r, In r l2 -> fst r = fst p.

(** The last two entries of a log, if it has two, are not of the same
    action. *)
Definition ends_fresh (log : list (string * Z)) : Prop :=
  forall l e1 e2, log = (l ++ [e1; e2])%list -> fst e1 <> fst e2.

(** The statement on the display of the log as the specification has
    it, for [service logs] run by a shell that has [service] defined and
    registered: the lines displayed are the maximal runs of the entries,
    counted, with each stamp kept on its first occurrence only, and the
    log is at most added to. *)
Definition logs_display_as_specified : Prop :=
  forall timestamp extern signal pipe w result f' w',
    cmd_enabled (cmd w) = true ->
    map_get (commands (cmd w)) "service" = Some service_entry ->
    registered_includes w "service" = true ->
    runSingle timestamp extern (parseCommandFragment "service logs") signal pipe w
    = (Ok result, f', w') ->
    result = VArr (map shown
                       (blank_seen []
                          (map render_entry
                               (runs_of entry_eqb
                                        (log_entries timestamp (getData w'))))))
    /\ exists added, getData w' = (getData w ++ added)%list.

(** The clock set to [t]. *)
Definition at_time (w : world) (t : Z) : world :=
  {| now := t; diag := diag w; out := out w; cmd := cmd w; exec := exec w;
     savior := savior w; elem := elem w |}.

(** The shell booted at time 0, [print b] typed at time 30, and the
    clock then back at 0, as when the system clock is set back or the
    local hour repeats. *)
Definition clock_set_back : world :=
  at_time (submit of_Z no_extern (at_time booted 30) (parseCommand "print b")) 0.



(** Between [w] and [w'] the execution, output and savior services and
    the switch of the command service are the same. *)
Definition services_kept (w w' : world) : Prop :=
  exec w' = exec w /\ out w' = out w /\ savior w' = savior w
  /\ cmd_enabled (cmd w') = cmd_enabled (cmd w)
  /\ cmd_os (cmd w') = cmd_os (cmd w).

(** [enqueue(chain)] up to its return. When the call of [runNext]
    inside it takes a chain from the queue, that call goes on, before it
    is suspended, into [runChain] and [runSingle] for the first fragment
    of the chain, up to and including the call of its handler: what
    [runSingle] does to the services has happened when [enqueue]
    returns. The checks after the handler, the other fragments and the
    rest of [runNext] come later. *)
Definition enqueue_returns (timestamp : Z -> string)
           (extern : handler -> params -> world -> res jsval * world)
           (w : world) (c : chain) : res (option nat) * world :=
  let '(r, w1) := enqueue w c in
  if running (exec w) then (r, w1)
  else if running (exec w1) then
    match rev (inflight (exec w1)) with
    | a :: _ =>
        match q_chain (act_item a) with
        | f :: _ =>
            (r, snd (runSingle timestamp extern f (act_controller a) VNull w1))
        | [] => (r, w1)
        end
    | [] => (r, w1)
    end
  else (r, w1).

(** [OS.sendCommand(command)]: the three calls of [enqueue], whose
    promises are dropped; a [throw] of the first ends the call. *)
Definition sendCommand (timestamp : Z -> string)
           (extern : handler -> params -> world -> res jsval * world)
           (w : world) (command : string) : res unit * world :=
  match enqueue_returns timestamp extern w (parseCommand command) with
  | (Throw x, w1) => (Throw x, w1)
  | (Ok _, w1) =>
      match enqueue_returns timestamp extern w1 (parseCommand "obuffer") with
      | (Throw x, w2) => (Throw x, w2)
      | (Ok _, w2) =>
          match enqueue_returns timestamp extern w2 (parseCommand "commandline") with
          | (Throw x, w3) => (Throw x, w3)
          | (Ok _, w3) => (Ok tt, w3)
          end
      end
  end.


(** * Properties *)

(** ** The parser *)

Section ParserFacts.

Lemma ws_not_special c :
  is_ws c = true ->
  is_pipe c = false /\ is_backslash c = false /\ is_squote c = false
  /\ is_dquote c = false.
Proof.
  destruct c as [[] [] [] [] [] [] [] []]; vm_compute; intros H;
    try discriminate H; repeat split.
Qed.

Lemma pipe_not_special c :
  is_pipe c = true ->
  is_ws c = false /\ is_backslash c = false /\ is_squote c = false
  /\ is_dquote c = false.
Proof.
  destruct c as [[] [] [] [] [] [] [] []]; vm_compute; intros H;
    try discriminate H; repeat split.
Qed.

Lemma trimStart_all_ws s : all_chars is_ws s = true -> trimStart s = EmptyString.
Proof.
  induction s as [|c r IH]; simpl; [reflexivity|].
  intros H. apply andb_true_iff in H as [Hc Hr]. rewrite Hc. auto.
Qed.

Lemma trim_all_ws s : all_chars is_ws s = true -> trim s = EmptyString.
Proof. intros H. unfold trim. rewrite trimStart_all_ws by assumption. reflexivity. Qed.

Lemma push_stage_all_ws parts s :
  all_chars is_ws s = true -> push_stage parts s = parts.
Proof. intros H. unfold push_stage. rewrite trim_all_ws by assumption. reflexivity. Qed.

Lemma all_chars_push p s c :
  all_chars p s = true -> p c = true -> all_chars p (push_char s c) = true.
Proof.
  unfold push_char. induction s as [|d r IH]; simpl; intros Hs Hc.
  - rewrite Hc. reflexivity.
  - apply andb_true_iff in Hs as [Hd Hr]. rewrite Hd. simpl. auto.
Qed.

(** Outside quotes, white space and pipes leave no stage behind. *)
Lemma pipeline_loop_blank input : forall current,
  all_chars ws_or_pipe input = true ->
  all_chars is_ws current = true ->
  exists current',
    all_chars is_ws current' = true /\
    pipeline_loop input
      {| ps_parts := []; ps_current := current; ps_inSingle := false;
         ps_inDouble := false; ps_escape := false |}
    = {| ps_parts := []; ps_current := current'; ps_inSingle := false;
         ps_inDouble := false; ps_escape := false |}.
Proof.
  induction input as [|c rest IH]; intros current Hin Hcur; simpl.
  - exists current. split; [assumption|reflexivity].
  - simpl in Hin. apply andb_true_iff in Hin as [Hc Hrest].
    unfold ws_or_pipe in Hc. apply orb_true_iff in Hc as [Hws|Hp].
    + destruct (ws_not_special c Hws) as (Hp & Hb & Hs & Hd).
      unfold is_pipe, is_backslash, is_squote, is_dquote in *.
      unfold pipeline_char; simpl. rewrite Hb, Hs, Hd, Hp. simpl.
      apply IH; [assumption|]. apply all_chars_push; assumption.
    + destruct (pipe_not_special c Hp) as (Hws & Hb & Hs & Hd).
      unfold is_pipe, is_backslash, is_squote, is_dquote in *.
      unfold pipeline_char; simpl. rewrite Hb, Hs, Hd, Hp. simpl.
      rewrite push_stage_all_ws by assumption.
      apply IH; [assumption|reflexivity].
Qed.

Lemma parsePipeline_blank input :
  all_chars ws_or_pipe input = true -> parsePipeline input = [].
Proof.
  intros H. unfold parsePipeline, pipeline_init.
  destruct (pipeline_loop_blank input EmptyString H eq_refl) as (cur & Hcur & ->).
  simpl. apply push_stage_all_ws. assumption.
Qed.

Lemma pipeline_loop_app a : forall b st,
  pipeline_loop (a ++ b) st = pipeline_loop b (pipeline_loop a st).
Proof. induction a as [|c r IH]; intros b st; simpl; [reflexivity|apply IH]. Qed.

Lemma append_push s c r : (push_char s c ++ r)%string = (s ++ String c r)%string.
Proof. unfold push_char. induction s; simpl; [reflexivity|f_equal; assumption]. Qed.

Lemma append_empty s : (s ++ EmptyString)%string = s.
Proof. induction s; simpl; [reflexivity|f_equal; assumption]. Qed.

(** Outside quotes, plain characters only lengthen the stage. *)
Lemma pipeline_loop_plain s : forall parts current,
  all_chars plain s = true ->
  pipeline_loop s {| ps_parts := parts; ps_current := current;
                     ps_inSingle := false; ps_inDouble := false;
                     ps_escape := false |}
  = {| ps_parts := parts; ps_current := current ++ s;
       ps_inSingle := false; ps_inDouble := false; ps_escape := false |}.
Proof.
  induction s as [|c r IH]; intros parts current H; simpl.
  - rewrite append_empty. reflexivity.
  - simpl in H. apply andb_true_iff in H as [Hc Hr].
    unfold plain in Hc. repeat (apply andb_true_iff in Hc as [Hc ?]).
    unfold is_pipe, is_backslash, is_squote, is_dquote in *.
    unfold pipeline_char; simpl.
    repeat match goal with
           | H : negb ?b = true |- _ => apply negb_true_iff in H; rewrite H
           end.
    simpl. rewrite IH by assumption. rewrite append_push. reflexivity.
Qed.

(** Between double quotes everything but a double quote or a backslash,
    a pipe included, only lengthens the stage. *)
Lemma pipeline_loop_double s : forall parts current,
  all_chars inside_double s = true ->
  pipeline_loop s {| ps_parts := parts; ps_current := current;
                     ps_inSingle := false; ps_inDouble := true;
                     ps_escape := false |}
  = {| ps_parts := parts; ps_current := current ++ s;
       ps_inSingle := false; ps_inDouble := true; ps_escape := false |}.
Proof.
  induction s as [|c r IH]; intros parts current H; simpl.
  - rewrite append_empty. reflexivity.
  - simpl in H. apply andb_true_iff in H as [Hc Hr].
    unfold inside_double in Hc. apply andb_true_iff in Hc as [Hd Hb].
    unfold is_backslash, is_dquote in *.
    apply negb_true_iff in Hd. apply negb_true_iff in Hb.
    unfold pipeline_char; simpl. rewrite Hb, Hd. simpl.
    rewrite !andb_false_r. rewrite IH by assumption.
    rewrite append_push. reflexivity.
Qed.

(** The same between single quotes. *)
Lemma pipeline_loop_single s : forall parts current,
  all_chars inside_single s = true ->
  pipeline_loop s {| ps_parts := parts; ps_current := current;
                     ps_inSingle := true; ps_inDouble := false;
                     ps_escape := false |}
  = {| ps_parts := parts; ps_current := current ++ s;
       ps_inSingle := true; ps_inDouble := false; ps_escape := false |}.
Proof.
  induction s as [|c r IH]; intros parts current H; simpl.
  - rewrite append_empty. reflexivity.
  - simpl in H. apply andb_true_iff in H as [Hc Hr].
    unfold inside_single in Hc. apply andb_true_iff in Hc as [Hq Hb].
    unfold is_backslash, is_squote in *.
    apply negb_true_iff in Hq. apply negb_true_iff in Hb.
    unfold pipeline_char; simpl. rewrite Hb, Hq. simpl.
    rewrite !andb_false_r. simpl. rewrite IH by assumption.
    rewrite append_push. reflexivity.
Qed.

Lemma trimEnd_keeps_last c s :
  is_ws c = false -> trimEnd (s ++ String c EmptyString) = (s ++ String c EmptyString)%string.
Proof.
  intros Hc. induction s as [|d r IH]; simpl.
  - rewrite Hc. reflexivity.
  - rewrite IH. destruct r; reflexivity.
Qed.

(** A string that neither starts nor ends with white space is its own
    trimmed form. *)
Lemma trim_delimited c d s :
  is_ws c = false -> is_ws d = false ->
  trim (String c (s ++ String d EmptyString)) = String c (s ++ String d EmptyString).
Proof.
  intros Hc Hd. unfold trim. simpl. rewrite Hc.
  change (String c (s ++ String d EmptyString))
    with ((String c s) ++ String d EmptyString)%string.
  apply trimEnd_keeps_last. assumption.
Qed.

Lemma parsePipeline_double_quoted s :
  all_chars inside_double s = true -> parsePipeline (quoted s) = [quoted s].
Proof.
  intros H. unfold parsePipeline, quoted, pipeline_init. simpl.
  unfold pipeline_char; simpl.
  rewrite pipeline_loop_app. rewrite pipeline_loop_double by assumption.
  simpl. unfold pipeline_char, push_stage, push_char; simpl.
  rewrite trim_delimited by reflexivity. reflexivity.
Qed.

Lemma parsePipeline_single_quoted s :
  all_chars inside_single s = true -> parsePipeline (squoted s) = [squoted s].
Proof.
  intros H. unfold parsePipeline, squoted, pipeline_init. simpl.
  unfold pipeline_char; simpl.
  rewrite pipeline_loop_app. rewrite pipeline_loop_single by assumption.
  simpl. unfold pipeline_char, push_stage, push_char; simpl.
  rewrite trim_delimited by reflexivity. reflexivity.
Qed.

Lemma parsePipeline_one_pipe u v :
  all_chars plain u = true -> all_chars plain v = true ->
  parsePipeline (u ++ String "|" v) = push_stage (push_stage [] u) v.
Proof.
  intros Hu Hv. unfold parsePipeline, pipeline_init.
  rewrite pipeline_loop_app. rewrite pipeline_loop_plain by assumption.
  simpl. unfold pipeline_char; simpl.
  rewrite pipeline_loop_plain by assumption. reflexivity.
Qed.

Lemma pipeline_char_scanned st s ch :
  scanned st s ->
  scanned (pipeline_char st ch) (scan_char s ch)
  /\ (if separates s ch
      then ps_parts (pipeline_char st ch) = push_stage (ps_parts st) (ps_current st)
           /\ ps_current (pipeline_char st ch) = EmptyString
      else ps_parts (pipeline_char st ch) = ps_parts st
           /\ ps_current (pipeline_char st ch) = push_char (ps_current st) ch).
Proof.
  destruct st as [parts current inS inD esc], s as [q e].
  unfold scanned. simpl. intros [He Hq]. subst esc.
  unfold pipeline_char, scan_char, separates, is_pipe, is_backslash, is_squote,
    is_dquote. simpl.
  destruct e; simpl.
  { rewrite andb_false_r. simpl. auto. }
  destruct (Ascii.eqb ch "\") eqn:Eb; simpl.
  { apply Ascii.eqb_eq in Eb. subst ch. simpl. auto. }
  destruct (Ascii.eqb ch "'") eqn:Es; simpl.
  { apply Ascii.eqb_eq in Es. subst ch.
    destruct q; inversion Hq; subst; simpl; auto. }
  destruct (Ascii.eqb ch dquote) eqn:Ed; simpl.
  { apply Ascii.eqb_eq in Ed. subst ch.
    destruct q; inversion Hq; subst; simpl; auto. }
  destruct (Ascii.eqb ch "|") eqn:Ep; simpl;
    destruct q; inversion Hq; subst; simpl; auto.
Qed.

Lemma filter_trim_stage parts current :
  push_stage parts current = (parts ++ filter nonempty (map trim [current]))%list.
Proof.
  unfold push_stage. simpl. destruct (nonempty (trim current)); [reflexivity|].
  rewrite app_nil_r. reflexivity.
Qed.

(** The loop from any of its states on, against the cut of the rest of
    the line. *)
Lemma pipeline_loop_cut input : forall st s,
  scanned st s ->
  push_stage (ps_parts (pipeline_loop input st)) (ps_current (pipeline_loop input st))
  = (ps_parts st
     ++ filter nonempty (map trim (cut_stages input s (ps_current st))))%list.
Proof.
  induction input as [|ch rest IH]; intros st s H; simpl.
  - apply filter_trim_stage.
  - destruct (pipeline_char_scanned st s ch H) as [H' Hc].
    rewrite (IH _ _ H').
    destruct (separates s ch); destruct Hc as [Hp Hcur]; rewrite Hp, Hcur.
    + unfold push_stage. simpl.
      destruct (nonempty (trim (ps_current st))); [|reflexivity].
      rewrite <- app_assoc. reflexivity.
    + reflexivity.
Qed.

(** C5. A pipe separates stages only outside both quote states:
    [a | b | c] splits into exactly three stages and the quoted [a|b]
    gives exactly one. For every line, whatever quotes and escapes it
    holds and wherever they open, the stages [parsePipeline] returns are
    the pieces between the pipes that stand outside both quote states
    and are not escaped, trimmed, without the empty ones. So a pipe
    between plain texts separates them, a text between double (or
    single) quotes is one stage whatever pipes it holds, and so is a
    stage in which a quote opens after other text. *)
Theorem parsePipeline_pipe_outside_quotes :
  parsePipeline "a | b | c" = ["a"; "b"; "c"]
  /\ parsePipeline (quoted "a|b") = [quoted "a|b"]
  /\ (forall input, parsePipeline input = stages_as_specified input)
  /\ parsePipeline ("print " ++ quoted "a|b" ++ " | find 'x|y' | cut \| z")
     = ["print " ++ quoted "a|b"; "find 'x|y'"; "cut \| z"]
  /\ (forall u v, all_chars plain u = true -> all_chars plain v = true ->
      parsePipeline (u ++ String "|" v) = push_stage (push_stage [] u) v)
  /\ (forall s, all_chars inside_double s = true ->
      parsePipeline (quoted s) = [quoted s])
  /\ (forall s, all_chars inside_single s = true ->
      parsePipeline (squoted s) = [squoted s]).
Proof.
  split; [reflexivity|]. split; [reflexivity|].
  split.
  { intros input. unfold parsePipeline, stages_as_specified.
    rewrite (pipeline_loop_cut input pipeline_init scan_init); [reflexivity|].
    split; reflexivity. }
  split; [reflexivity|].
  split; [exact parsePipeline_one_pipe|].
  split; [exact parsePipeline_double_quoted|exact parsePipeline_single_quoted].
Qed.

Lemma parsePipeline_pipe_outside_quotes_witness :
  all_chars plain "print x" = true
  /\ all_chars plain " linecount" = true
  /\ parsePipeline ("print x" ++ String "|" " linecount") = ["print x"; "linecount"]
  /\ all_chars inside_double "x|y 'z'" = true
  /\ parsePipeline (quoted "x|y 'z'") = [quoted "x|y 'z'"]
  /\ all_chars inside_single "x|y" = true
  /\ parsePipeline (squoted "x|y") = [squoted "x|y"]
  /\ parsePipeline ("print " ++ quoted "a|b")
     = stages_as_specified ("print " ++ quoted "a|b").
Proof.
  destruct parsePipeline_pipe_outside_quotes as (_ & _ & H0 & _ & H1 & H2 & H3).
  split; [reflexivity|]. split; [reflexivity|].
  split; [exact (H1 "print x" " linecount" eq_refl eq_refl)|].
  split; [reflexivity|].
  split; [exact (H2 "x|y 'z'" eq_refl)|].
  split; [reflexivity|].
  split; [exact (H3 "x|y" eq_refl)|].
  exact (H0 ("print " ++ quoted "a|b")).
Defined.

End ParserFacts.

(** ** The execution queue *)

Section QueueFacts.

Lemma exec_record w a : exec (record w a) = exec w.
Proof. unfold record. destruct (diag_enabled (diag w)); reflexivity. Qed.

Lemma exec_out_add w l : exec (out_add w l) = exec w.
Proof.
  unfold out_add. destruct (negb (out_enabled (out w))); [reflexivity|].
  simpl. apply exec_record.
Qed.

Lemma exec_present w l : exec (present w l) = exec w.
Proof.
  unfold present.
  repeat match goal with |- context [if ?b then _ else _] => destruct b end;
    reflexivity.
Qed.

Lemma exec_fold_present ls : forall w, exec (fold_left present ls w) = exec w.
Proof.
  induction ls as [|l r IH]; intros w; simpl; [reflexivity|].
  rewrite IH. apply exec_present.
Qed.

Lemma exec_present_all ls : forall w, exec (snd (present_all ls w)) = exec w.
Proof.
  induction ls as [|l r IH]; intros w; simpl; [reflexivity|].
  destruct (present_throws w l); [reflexivity|].
  rewrite IH. apply exec_present.
Qed.

Lemma exec_out_flush w : exec (snd (out_flush w)) = exec w.
Proof.
  unfold out_flush. destruct (negb (out_enabled (out w))); [reflexivity|].
  pose proof (exec_present_all (buffer (out w)) w) as E.
  destruct (present_all (buffer (out w)) w) as [[u|x] w1]; simpl in *.
  - rewrite exec_record. exact E.
  - exact E.
Qed.

Lemma fifo_ok_dropped ts : forall h,
  fifo_ok h -> fifo_ok (map Dropped ts ++ h).
Proof. induction ts as [|t r IH]; intros h H; simpl; auto. Qed.

Lemma in_dropped_app t (q : list queue_item) h :
  In (Dropped t) (map (fun i => Dropped (q_ticket i)) q ++ h)
  <-> In t (tickets_of q) \/ In (Dropped t) h.
Proof.
  rewrite in_app_iff. unfold tickets_of. rewrite !in_map_iff. split.
  - intros [(i & E & Hi)|H]; [|auto]. inversion E; subst. left. eauto.
  - intros [(i & E & Hi)|H]; [|auto]. left. exists i. subst. auto.
Qed.

Lemma in_other_app (ev : history_event) (q : list queue_item) h :
  (forall t, ev <> Dropped t) ->
  In ev (map (fun i => Dropped (q_ticket i)) q ++ h) <-> In ev h.
Proof.
  intros Hne. rewrite in_app_iff, in_map_iff. split.
  - intros [(i & E & _)|H]; [|assumption]. exfalso. eapply Hne. eauto.
  - auto.
Qed.

Lemma fifo_ok_dropped_items (q : list queue_item) h :
  fifo_ok h -> fifo_ok (map (fun i => Dropped (q_ticket i)) q ++ h).
Proof. induction q as [|i r IH]; intros H; simpl; auto. Qed.

Lemma exec_inv_world0 : exec_inv (exec world0).
Proof.
  constructor; simpl.
  - left. split; reflexivity.
  - reflexivity.
  - constructor.
  - intros t [[]|[]].
  - intros t [[]|[]].
  - intros t [].
  - intros t v [[]|[]].
  - exact I.
Qed.

Lemma sorted_snoc l : forall x,
  StronglySorted lt l -> Forall (fun y => y < x) l -> StronglySorted lt (l ++ [x]).
Proof.
  induction l as [|y r IH]; intros x Hs Hf; simpl.
  - constructor; constructor.
  - inversion Hs; subst. inversion Hf; subst. constructor.
    + apply IH; assumption.
    + apply Forall_app. split; [assumption|]. constructor; [assumption|constructor].
Qed.

Lemma length_set_aborted cs : forall c, List.length (set_aborted cs c) = List.length cs.
Proof.
  induction cs as [|b r IH]; intros c; simpl; [reflexivity|].
  destruct c; simpl; [reflexivity|]. rewrite IH. reflexivity.
Qed.

Lemma runNext_inv w : exec_inv (exec w) -> exec_inv (exec (runNext w)).
Proof.
  intros H. unfold runNext.
  destruct (negb (exec_enabled (exec w))); [assumption|].
  destruct (negb (exec_os (exec w))) eqn:Hos; [assumption|].
  destruct (running (exec w)) eqn:Hrun; [assumption|].
  destruct (queue (exec w)) as [|item rest] eqn:Hq; [assumption|].
  apply negb_false_iff in Hos.
  destruct H as [HA HB HC HD HE HF HG HH].
  assert (Hfl : inflight (exec w) = []).
  { destruct HA as [[? ?]|(a & _ & Hr & _)]; [assumption|congruence]. }
  rewrite Hq in *. simpl in HC. inversion HC as [|? ? Hsr Hlt]; subst.
  constructor; simpl.
  - right. eexists. rewrite Hfl. simpl. split; [reflexivity|].
    split; [reflexivity|]. split; [reflexivity|].
    split; [rewrite length_app; simpl; lia|].
    split; [assumption|]. exact Hlt.
  - congruence.
  - assumption.
  - intros t Ht. rewrite Hfl in *. simpl in *.
    assert (Hin : q_ticket item = t \/ In t (tickets_of rest)) by tauto.
    destruct (HD t (or_introl Hin)) as [Hb Hn].
    split; [assumption|]. intros [E|E]; [discriminate|auto].
  - intros t [[E|E]|[E|E]]; try discriminate; apply HE; auto.
  - intros t [E|E]; [discriminate|].
    rewrite Hfl. simpl.
    destruct (HF t E) as [[E'|E']|[E'|[E'|E']]]; auto.
    rewrite Hfl in E'. destruct E'.
  - intros t v Hin. right. eapply HG; eauto.
  - split; [assumption|].
    intros a Hlt' Hen.
    destruct (HF a Hen) as [[E'|E']|[E'|[E'|E']]]; auto.
    + unfold act_ticket in *. lia.
    + rewrite Forall_forall in Hlt. specialize (Hlt a E'). lia.
    + rewrite Hfl in E'. destruct E'.
Qed.
Lemma enqueue_inv w c : exec_inv (exec w) -> exec_inv (exec (snd (enqueue w c))).
Proof.
  intros H. unfold enqueue.
  destruct (negb (exec_enabled (exec w))); [assumption|].
  destruct (negb (exec_os (exec w))) eqn:Hos; [assumption|].
  apply negb_false_iff in Hos. simpl.
  apply runNext_inv. simpl. rewrite !exec_record.
  destruct H as [HA HB HC HD HE HF HG HH].
  constructor; simpl.
  - destruct HA as [HA|(a & Hi & Hr & Hc & Hl & Ho & Hf)]; [left; assumption|].
    right. exists a. repeat (split; [assumption|]).
    unfold tickets_of. rewrite map_app. apply Forall_app. split; [assumption|].
    simpl. constructor; [|constructor].
    apply (HD (act_ticket a)). right. rewrite Hi. simpl. auto.
  - congruence.
  - unfold tickets_of. rewrite map_app. simpl. apply sorted_snoc; [assumption|].
    rewrite Forall_forall. intros t Ht. apply (HD t). auto.
  - intros t Ht. unfold tickets_of in Ht. rewrite map_app, in_app_iff in Ht.
    simpl in Ht.
    assert (Hc : t = next_ticket (exec w)
                 \/ (In t (tickets_of (queue (exec w)))
                     \/ In t (map act_ticket (inflight (exec w))))) by (unfold tickets_of; intuition).
    destruct Hc as [->|Hc].
    + split; [lia|]. intros [E|E]; [discriminate|].
      assert (next_ticket (exec w) < next_ticket (exec w)) by (apply HE; auto). lia.
    + destruct (HD t Hc) as [Hb Hn]. split; [lia|].
      intros [E|E]; [discriminate|auto].
  - intros t [[E|E]|[E|E]]; try discriminate.
    + inversion E; subst. lia.
    + assert (t < next_ticket (exec w)) by (apply HE; auto). lia.
    + assert (t < next_ticket (exec w)) by (apply HE; auto). lia.
  - intros t [E|E].
    + inversion E; subst. left. unfold tickets_of. rewrite map_app, in_app_iff.
      right. simpl. auto.
    + destruct (HF t E) as [E'|[E'|[E'|E']]]; auto.
      left. unfold tickets_of in *. rewrite map_app, in_app_iff. auto.
  - intros t v Hin. right. eapply HG; eauto.
  - split; [assumption|]. intros t' Hen. apply HE. auto.
Qed.

Lemma interrupt_inv w err : exec_inv (exec w) -> exec_inv (exec (interrupt w err)).
Proof.
  intros H. unfold interrupt.
  destruct (negb (exec_enabled (exec w))); [assumption|].
  destruct (negb (exec_os (exec w))) eqn:Hos; [assumption|].
  apply negb_false_iff in Hos.
  destruct H as [HA HB HC HD HE HF HG HH].
  assert (K : forall cs,
             List.length cs = List.length (controllers (exec w)) ->
             exec_inv {| exec_enabled := exec_enabled (exec w);
                         exec_os := exec_os (exec w);
                         queue := []; running := running (exec w);
                         currentAbort := currentAbort (exec w);
                         currentReject := currentReject (exec w);
                         controllers := cs;
                         inflight := inflight (exec w);
                         next_ticket := next_ticket (exec w);
                         resolved := resolved (exec w);
                         rejected := rejected (exec w);
                         history := (map (fun i => Dropped (q_ticket i))
                                         (queue (exec w))
                                     ++ history (exec w))%list |}).
  { intros cs Hlen. constructor; simpl.
    - destruct HA as [HA|(a & Hi & Hr & Hc & Hl & Ho & Hf)]; [left; assumption|].
      right. exists a. repeat (split; [assumption|]).
      split; [lia|]. split; [assumption|constructor].
    - reflexivity.
    - constructor.
    - intros t [[]|Ht]. destruct (HD t (or_intror Ht)) as [Hb Hn].
      split; [assumption|]. rewrite in_other_app by discriminate. assumption.
    - intros t Ht. rewrite !in_other_app in Ht by discriminate. auto.
    - intros t Ht. rewrite in_other_app in Ht by discriminate.
      rewrite in_other_app by discriminate. rewrite in_dropped_app.
      destruct (HF t Ht) as [E'|[E'|[E'|E']]]; auto.
    - intros t v Hin. rewrite in_other_app by discriminate. eapply HG; eauto.
    - apply fifo_ok_dropped_items. assumption. }
  simpl. rewrite exec_record. simpl.
  destruct (currentAbort (exec w)) as [c|] eqn:Hca.
  - unfold abort. simpl. rewrite exec_record. simpl.
    apply K. apply length_set_aborted.
  - rewrite exec_record. simpl. apply K. reflexivity.
Qed.

Lemma in_outcome ev ev' h :
  outcome_event ev -> ~ outcome_event ev' -> In ev' (ev :: h) <-> In ev' h.
Proof.
  intros H H'. simpl. split; [|auto].
  intros [E|E]; [subst; contradiction|assumption].
Qed.

Lemma outcome_inv e ev :
  exec_inv e -> outcome_event ev ->
  exec_inv (with_outcome e (resolved e) (ev :: history e)).
Proof.
  intros [HA HB HC HD HE HF HG HH] Hev.
  assert (Hen : forall t, In (Enqueued t) (ev :: history e) <-> In (Enqueued t) (history e))
    by (intros t; apply in_outcome; [assumption|intros []]).
  assert (Hed : forall t, In (Ended t) (ev :: history e) <-> In (Ended t) (history e))
    by (intros t; apply in_outcome; [assumption|intros []]).
  assert (Hdr : forall t, In (Dropped t) (ev :: history e) <-> In (Dropped t) (history e))
    by (intros t; apply in_outcome; [assumption|intros []]).
  constructor; unfold with_outcome; cbn [exec_enabled exec_os queue running
    currentAbort currentReject controllers inflight next_ticket resolved
    rejected history].
  - assumption.
  - assumption.
  - assumption.
  - intros t Ht. destruct (HD t Ht) as [Hb Hn]. split; [assumption|].
    rewrite Hed. assumption.
  - intros t Ht. rewrite Hen, Hed in Ht. apply HE. assumption.
  - intros t Ht. rewrite Hen in Ht. rewrite Hed, Hdr. apply HF. assumption.
  - intros t v Ht. rewrite Hed. eapply HG; eauto.
  - simpl. split; [assumption|]. destruct ev; try exact I; destruct Hev.
Qed.

Lemma exec_resolve w t v :
  exists e' r,
    (e' = exec w
     \/ e' = with_outcome (exec w) (resolved (exec w)) (Resolved t :: history (exec w)))
    /\ (forall t' v', In (t', v') r -> In (t', v') (resolved (exec w)) \/ t' = t)
    /\ (forall x, In x (resolved (exec w)) -> In x r)
    /\ exec (resolve w t v) = with_resolved e' r.
Proof.
  unfold resolve. destruct (is_settled (exec w) t) eqn:Hs.
  - exists (exec w), (resolved (exec w)). split; [auto|]. split; [auto|].
    split; [auto|]. destruct (exec w); reflexivity.
  - exists (with_outcome (exec w) (resolved (exec w)) (Resolved t :: history (exec w))),
           (resolved (exec w) ++ [(t, v)])%list.
    split; [auto|]. split.
    + intros t' v' Hin. apply in_app_iff in Hin as [Hin|[E|[]]]; [auto|].
      inversion E. auto.
    + split; [intros x Hx; apply in_app_iff; auto|reflexivity].
Qed.

Lemma exec_conclude w a o :
  exists e' r,
    (e' = exec w
     \/ exists ev, outcome_event ev
                   /\ e' = with_outcome (exec w) (resolved (exec w))
                                        (ev :: history (exec w)))
    /\ (forall t' v', In (t', v') r ->
                      In (t', v') (resolved (exec w)) \/ t' = act_ticket a)
    /\ (forall x, In x (resolved (exec w)) -> In x r)
    /\ exec (conclude w a o) = with_resolved e' r.
Proof.
  unfold conclude.
  assert (K : forall w' v, exec w' = exec w ->
              exists e' r,
                (e' = exec w
                 \/ exists ev, outcome_event ev
                               /\ e' = with_outcome (exec w) (resolved (exec w))
                                                    (ev :: history (exec w)))
                /\ (forall t' v', In (t', v') r ->
                                  In (t', v') (resolved (exec w)) \/ t' = act_ticket a)
                /\ (forall x, In x (resolved (exec w)) -> In x r)
                /\ exec (resolve w' (q_ticket (act_item a)) v) = with_resolved e' r).
  { intros w' v E.
    destruct (exec_resolve w' (q_ticket (act_item a)) v) as (e' & r & H0 & H1 & H2 & H4).
    rewrite E in *. exists e', r. repeat split; try assumption.
    destruct H0 as [->| ->]; [left; reflexivity|].
    right. eexists. split; [|reflexivity]. exact I. }
  destruct o as [result|[message| |message]];
    try (apply K; rewrite ?exec_out_add, ?exec_record; reflexivity).
  pose proof (exec_out_flush (out_add w (mk_error "Command execution interrupted."))) as E.
  rewrite exec_out_add in E.
  destruct (out_flush (out_add w (mk_error "Command execution interrupted.")))
    as [[u|x] w1]; simpl in E.
  - apply K. exact E.
  - exists (with_outcome (exec w) (resolved (exec w))
                         (Escaped (q_ticket (act_item a)) :: history (exec w))),
           (resolved (exec w)).
    split; [right; eexists; split; [|reflexivity]; exact I|].
    split; [auto|]. split; [auto|].
    unfold escaped. simpl. rewrite E. reflexivity.
Qed.

Lemma release_inv w e r a :
  exec w = with_resolved e r ->
  exec_inv e -> In a (inflight e) ->
  (forall t' v', In (t', v') r -> In (t', v') (resolved e) \/ t' = act_ticket a) ->
  exec_inv (exec (release w a)).
Proof.
  intros Hw H Hin Hres. unfold release.
  match goal with |- exec_inv (exec (if _ then runNext ?x else _)) =>
    assert (K : exec_inv (exec x)) end.
  { destruct H as [HA HB HC HD HE HF HG HH]. simpl. rewrite Hw. simpl.
    destruct HA as [[Hi _]|(a0 & Hi & Hr & Hc & Hl & Ho & Hf)];
      [rewrite Hi in Hin; destruct Hin|].
    rewrite Hi in Hin. destruct Hin as [->|[]].
    assert (Hfil : filter (fun a' => negb (q_ticket (act_item a') =? q_ticket (act_item a)))
                          (inflight e) = []).
    { rewrite Hi. simpl. rewrite Nat.eqb_refl. reflexivity. }
    constructor; simpl; rewrite ?Hfil.
    - left. split; reflexivity.
    - assumption.
    - assumption.
    - intros t [Ht|[]]. destruct (HD t (or_introl Ht)) as [Hb Hn].
      split; [assumption|]. intros [E|E]; [|auto].
      inversion E; subst. rewrite Forall_forall in Hf. specialize (Hf _ Ht).
      unfold act_ticket in Hf. lia.
    - intros t [[E|E]|[E|E]]; try discriminate.
      + apply HE; auto.
      + inversion E; subst. apply (HD (q_ticket (act_item a))). right.
        rewrite Hi. simpl. auto.
      + apply HE; auto.
    - intros t [E|E]; [discriminate|].
      destruct (HF t E) as [E'|[E'|[E'|E']]]; auto.
      rewrite Hi in E'. destruct E' as [<- | []]. right. right. left. left. reflexivity.
    - intros t v [Hv|Hv].
      + destruct (Hres t v Hv) as [Hv' | ->].
        * right. eapply HG; eauto.
        * left. reflexivity.
      + right. eapply HG; eauto.
    - split; [assumption|exact I]. }
  destruct (negb _); [apply runNext_inv|]; exact K.
Qed.

Lemma settle_inv w a o :
  exec_inv (exec w) -> In a (inflight (exec w)) -> exec_inv (exec (settle w a o)).
Proof.
  intros H Hin. unfold settle.
  destruct (exec_conclude w a o) as (e' & r & H0 & H1 & _ & H4).
  apply (release_inv _ e' r); try assumption.
  - destruct H0 as [->|(ev & Hev & ->)]; [assumption|].
    apply outcome_inv; assumption.
  - destruct H0 as [->|(ev & Hev & ->)]; assumption.
  - destruct H0 as [->|(ev & Hev & ->)]; assumption.
Qed.

Lemma find_activation_in w t a : find_activation w t = Some a -> In a (inflight (exec w)).
Proof. unfold find_activation. intros H. apply find_some in H. tauto. Qed.

Lemma exec_init_inv w : exec_inv (exec w) -> exec_inv (exec (exec_init w)).
Proof.
  intros H. unfold exec_init. destruct (exec_os (exec w)) eqn:Hos; [assumption|].
  rewrite exec_record. simpl.
  destruct H as [HA HB HC HD HE HF HG HH].
  specialize (HB Hos).
  assert (Hi : inflight (exec w) = []).
  { destruct HA as [[? _]|(a & _ & _ & _ & _ & Ho & _)]; [assumption|congruence]. }
  rewrite HB in *. simpl. rewrite Hi in *.
  constructor; simpl; auto.
Qed.

Lemma set_exec_enabled_inv w b :
  exec_inv (exec w) -> exec_inv (exec (set_exec_enabled w b)).
Proof.
  intros [HA HB HC HD HE HF HG HH]. constructor; simpl; assumption.
Qed.

Lemma step_inv w ev : exec_inv (exec w) -> exec_inv (exec (step w ev)).
Proof.
  intros H. destruct ev as [|c|t o|err| | |others]; simpl.
  - apply exec_init_inv; assumption.
  - apply enqueue_inv; assumption.
  - destruct (find_activation w t) as [a|] eqn:Hf; [|assumption].
    apply settle_inv; [assumption|]. eapply find_activation_in; eauto.
  - apply interrupt_inv; assumption.
  - unfold exec_enable. rewrite exec_record. apply set_exec_enabled_inv; assumption.
  - unfold exec_disable. rewrite exec_record. apply set_exec_enabled_inv; assumption.
  - assumption.
Qed.

Lemma run_inv evs : forall w, exec_inv (exec w) -> exec_inv (exec (run w evs)).
Proof.
  unfold run. induction evs as [|ev r IH]; intros w H; simpl; [assumption|].
  apply IH. apply step_inv. assumption.
Qed.

(** Every state the execution service can reach satisfies the invariant. *)
Lemma reachable_inv evs : exec_inv (exec (run world0 evs)).
Proof. apply run_inv. apply exec_inv_world0. Qed.

Lemma fifo_ok_split post : forall b before,
  fifo_ok (post ++ Started b :: before) ->
  forall a, a < b -> In (Enqueued a) before ->
            In (Ended a) before \/ In (Dropped a) before.
Proof.
  induction post as [|ev r IH]; intros b before H; simpl in H.
  - destruct H as [_ H]. exact H.
  - destruct H as [H _]. apply IH. exact H.
Qed.

Lemma fifo_ok_order post : forall t before,
  fifo_ok (post ++ Enqueued t :: before) ->
  forall t', In (Enqueued t') before -> t' < t.
Proof.
  induction post as [|ev r IH]; intros t before H; simpl in H.
  - destruct H as [_ H]. exact H.
  - destruct H as [H _]. apply IH. exact H.
Qed.

Lemma nth_set_aborted cs : forall c,
  c < List.length cs -> nth c (set_aborted cs c) false = true.
Proof.
  induction cs as [|b r IH]; intros c Hc; simpl in *; [lia|].
  destruct c; simpl; [reflexivity|]. apply IH. lia.
Qed.

Lemma is_settled_false e t :
  exec_inv e -> In t (map act_ticket (inflight e)) -> is_settled e t = false.
Proof.
  intros H Hin. destruct (is_settled e t) eqn:Hs; [|reflexivity]. exfalso.
  destruct (inv_pending e H t (or_intror Hin)) as [_ Hn]. apply Hn.
  unfold is_settled in Hs. apply orb_true_iff in Hs.
  destruct Hs as [Hs|Hs]; apply existsb_exists in Hs as ([t' v] & Hx & E);
    simpl in E; apply Nat.eqb_eq in E; subst;
    eapply (inv_settled e H); eauto.
Qed.

(** While a chain is in flight, [enqueue] only lengthens the queue. *)
Lemma enqueue_while_running w c :
  exec_enabled (exec w) = true -> exec_os (exec w) = true ->
  running (exec w) = true ->
  exec (snd (enqueue w c))
  = {| exec_enabled := true; exec_os := true;
       queue := (queue (exec w)
                 ++ [{| q_chain := c; q_ticket := next_ticket (exec w) |}])%list;
       running := true;
       currentAbort := currentAbort (exec w);
       currentReject := currentReject (exec w);
       controllers := controllers (exec w);
       inflight := inflight (exec w);
       next_ticket := S (next_ticket (exec w));
       resolved := resolved (exec w); rejected := rejected (exec w);
       history := Enqueued (next_ticket (exec w)) :: history (exec w) |}.
Proof.
  intros He Ho Hr. unfold enqueue. rewrite He, Ho. simpl.
  unfold runNext. simpl. rewrite !exec_record. rewrite He, Ho, Hr. simpl.
  reflexivity.
Qed.

Lemma enqueue_all_while_running cs : forall w,
  exec_enabled (exec w) = true -> exec_os (exec w) = true ->
  running (exec w) = true ->
  let w' := enqueue_all w cs in
  exec_enabled (exec w') = true /\ exec_os (exec w') = true
  /\ running (exec w') = true
  /\ controllers (exec w') = controllers (exec w)
  /\ inflight (exec w') = inflight (exec w)
  /\ resolved (exec w') = resolved (exec w)
  /\ rejected (exec w') = rejected (exec w)
  /\ List.length (queue (exec w')) = List.length (queue (exec w)) + List.length cs.
Proof.
  induction cs as [|c r IH]; intros w He Ho Hr; simpl.
  - repeat split; try assumption. lia.
  - pose proof (enqueue_while_running w c He Ho Hr) as E.
    specialize (IH (snd (enqueue w c))). rewrite E in IH. simpl in IH.
    specialize (IH eq_refl eq_refl eq_refl).
    unfold enqueue_all in IH. simpl in IH.
    destruct IH as (H1 & H2 & H3 & H4 & H5 & H6 & H7 & H8).
    unfold enqueue_all. simpl.
    repeat split; try assumption. rewrite H8, length_app. simpl. lia.
Qed.

Lemma interrupt_not_as_specified : ~ interrupt_as_specified.
Proof.
  intros H.
  specialize (H [EInit; EEnqueue (parseCommand "print a");
                 EEnqueue (parseCommand "print b")]
                (VStr "stop")
                {| act_item := {| q_chain := parseCommand "print a"; q_ticket := 0 |};
                   act_controller := 0 |}).
  simpl in H. destruct H as (_ & _ & H); [left; reflexivity|].
  vm_compute in H. exact H.
Qed.

(** C3, amended. With the execution service enabled and a chain in
    flight, [interrupt()] empties the pending queue and cancels the token
    of that chain; it settles no promise and calls no reject hook. When
    the chain then settles, whatever was enqueued meanwhile, nothing is
    rejected, no queued chain is started, and the promise of the chain is
    resolved: with the value of the chain when it returned, with [null]
    when it threw. The one exception is the chain that threw the abort
    error while [OutputService.flush()] throws in the [catch] clause:
    [resolve(null)] is then not reached and the promise stays pending.
    The other services, which decide whether [flush] throws, are
    whatever they have become by the time the chain settles. *)
Theorem interrupt_mid_flight : forall evs err a,
  let w := run world0 evs in
  exec_enabled (exec w) = true ->
  In a (inflight (exec w)) ->
  let w1 := interrupt w err in
  queue (exec w1) = []
  /\ signal_aborted w1 (act_controller a) = true
  /\ rejected (exec w1) = rejected (exec w)
  /\ resolved (exec w1) = resolved (exec w)
  /\ inflight (exec w1) = [a]
  /\ forall cs others o,
       let ws := set_exec others (exec (enqueue_all w1 cs)) in
       let w2 := settle ws a o in
       match o with
       | Ok v => In (act_ticket a, v) (resolved (exec w2))
       | Throw AbortError =>
           match fst (out_flush (out_add ws (mk_error "Command execution interrupted."))) with
           | Ok _ => In (act_ticket a, VNull) (resolved (exec w2))
           | Throw _ =>
               resolved (exec w2) = resolved (exec w)
               /\ In (Escaped (act_ticket a)) (history (exec w2))
           end
       | Throw _ => In (act_ticket a, VNull) (resolved (exec w2))
       end
       /\ rejected (exec w2) = rejected (exec w)
       /\ running (exec w2) = false
       /\ inflight (exec w2) = []
       /\ List.length (queue (exec w2)) = List.length cs.
Proof.
  intros evs err a w He Hin w1.
  pose proof (reachable_inv evs) as Hinv. fold w in Hinv.
  destruct (inv_flight _ Hinv) as [[Hi _]|(a0 & Hi & Hr & Hc & Hl & Ho & Hf)];
    [rewrite Hi in Hin; destruct Hin|].
  rewrite Hi in Hin. destruct Hin as [<-|[]].
  assert (Hs : is_settled (exec w) (act_ticket a0) = false).
  { apply is_settled_false; [assumption|]. rewrite Hi. simpl. auto. }
  assert (E1 : exec w1
               = {| exec_enabled := true; exec_os := true;
                    queue := []; running := true;
                    currentAbort := Some (act_controller a0);
                    currentReject := currentReject (exec w);
                    controllers := set_aborted (controllers (exec w)) (act_controller a0);
                    inflight := [a0];
                    next_ticket := next_ticket (exec w);
                    resolved := resolved (exec w);
                    rejected := rejected (exec w);
                    history := (map (fun i => Dropped (q_ticket i)) (queue (exec w))
                                ++ history (exec w))%list |}).
  { unfold w1, interrupt. rewrite He, Ho. simpl. rewrite exec_record. simpl.
    rewrite Hc. unfold abort. simpl. rewrite exec_record. simpl.
    rewrite Hr, Hi. reflexivity. }
  assert (Hab : signal_aborted w1 (act_controller a0) = true).
  { unfold signal_aborted. rewrite E1. simpl. apply nth_set_aborted. assumption. }
  split; [rewrite E1; reflexivity|]. split; [exact Hab|].
  split; [rewrite E1; reflexivity|]. split; [rewrite E1; reflexivity|].
  split; [rewrite E1; reflexivity|].
  intros cs others o ws w2.
  destruct (enqueue_all_while_running cs w1) as (H1 & H2 & H3 & H4 & H5 & H6 & H7 & H8);
    try (rewrite E1; reflexivity).
  rewrite E1 in H4, H5, H6, H7, H8. simpl in H4, H5, H6, H7, H8.
  set (wq := enqueue_all w1 cs) in *.
  assert (Hs' : is_settled (exec wq) (act_ticket a0) = false).
  { unfold is_settled. rewrite H6, H7. exact Hs. }
  assert (Hrel : forall wc R H,
            exec wc = with_outcome (exec wq) R H ->
            exec (release wc a0)
            = {| exec_enabled := true; exec_os := true;
                 queue := queue (exec wq); running := false;
                 currentAbort := None; currentReject := None;
                 controllers := controllers (exec wq);
                 inflight := [];
                 next_ticket := next_ticket (exec wq);
                 resolved := R; rejected := rejected (exec w);
                 history := Ended (act_ticket a0) :: H |}).
  { intros wc R H E. unfold release. simpl. unfold signal_aborted. simpl.
    rewrite E. simpl. rewrite H4, H5. simpl.
    rewrite nth_set_aborted by assumption. simpl.
    rewrite Nat.eqb_refl. simpl. rewrite H1, H2, H7. reflexivity. }
  assert (Hres : forall w' v,
            exec w' = exec wq ->
            exec (resolve w' (q_ticket (act_item a0)) v)
            = with_outcome (exec wq) (resolved (exec wq) ++ [(act_ticket a0, v)])%list
                           (Resolved (act_ticket a0) :: history (exec wq))).
  { intros w' v E. unfold resolve. rewrite E. fold (act_ticket a0). rewrite Hs'.
    reflexivity. }
  assert (Hlast : forall (R : list (nat * jsval)) x, In x (R ++ [x])%list)
    by (intros R x; apply in_app_iff; right; left; reflexivity).
  assert (Hadd : forall act l, exec (out_add (record ws act) l) = exec wq)
    by (intros act l; rewrite exec_out_add, exec_record; reflexivity).
  unfold w2, settle, conclude.
  destruct o as [v|[m| |m]].
  - rewrite (Hrel _ _ _ (Hres ws v eq_refl)). simpl.
    split; [apply Hlast|]. repeat split. rewrite H8. reflexivity.
  - rewrite (Hrel _ _ _ (Hres _ VNull (Hadd _ _))).
    simpl. split; [apply Hlast|]. repeat split. rewrite H8. reflexivity.
  - pose proof (exec_out_flush (out_add ws (mk_error "Command execution interrupted.")))
      as E.
    rewrite exec_out_add in E. change (exec ws) with (exec wq) in E.
    destruct (out_flush (out_add ws (mk_error "Command execution interrupted.")))
      as [[u|x] wf]; simpl in E; simpl fst; cbv iota.
    + rewrite (Hrel _ _ _ (Hres wf VNull E)). simpl.
      split; [apply Hlast|]. repeat split. rewrite H8. reflexivity.
    + assert (Ee : exec (escaped wf (q_ticket (act_item a0)))
                   = with_outcome (exec wq) (resolved (exec wq))
                                  (Escaped (act_ticket a0) :: history (exec wq))).
      { unfold escaped. simpl. rewrite E. reflexivity. }
      rewrite (Hrel _ _ _ Ee). simpl.
      split; [split; [assumption|right; left; reflexivity]|].
      repeat split. rewrite H8. reflexivity.
  - rewrite (Hrel _ _ _ (Hres _ VNull (Hadd _ _))).
    simpl. split; [apply Hlast|]. repeat split. rewrite H8. reflexivity.
Qed.

Lemma interrupt_mid_flight_witness :
  let evs := [EInit; EEnqueue (parseCommand "print a");
              EEnqueue (parseCommand "print b")] in
  let a := {| act_item := {| q_chain := parseCommand "print a"; q_ticket := 0 |};
              act_controller := 0 |} in
  exec_enabled (exec (run world0 evs)) = true
  /\ In a (inflight (exec (run world0 evs)))
  /\ queue (exec (interrupt (run world0 evs) (VStr "stop"))) = [].
Proof.
  intros evs a.
  assert (He : exec_enabled (exec (run world0 evs)) = true) by reflexivity.
  assert (Hin : In a (inflight (exec (run world0 evs)))) by (left; reflexivity).
  split; [exact He|]. split; [exact Hin|].
  exact (proj1 (interrupt_mid_flight evs (VStr "stop") a He Hin)).
Defined.

End QueueFacts.

(** ** The registry *)

Section RegistryFacts.

Lemma cmd_record w a : cmd (record w a) = cmd w.
Proof. unfold record. destruct (diag_enabled (diag w)); reflexivity. Qed.

Lemma registered_has_false members n : registered_has members n = false.
Proof. unfold registered_has. induction members; simpl; auto. Qed.

(** [registerCommand] of a defined command always adds a member. *)
Lemma registerCommand_adds w n e :
  cmd_enabled (cmd w) = true ->
  map_get (commands (cmd w)) n = Some e ->
  exists w' names,
    registerCommand w n = Ok w'
    /\ In n names
    /\ registeredCommands (cmd w') = (registeredCommands (cmd w) ++ [names])%list
    /\ commands (cmd w') = commands (cmd w)
    /\ cmd_enabled (cmd w') = true.
Proof.
  intros He Hg. unfold registerCommand. rewrite He, registered_has_false, Hg. simpl.
  eexists. eexists. split; [reflexivity|]. simpl. rewrite !cmd_record.
  repeat split; try assumption.
  destruct (alias_of_entry e) as [a|]; unfold names_add, includes; simpl.
  - destruct (String.eqb a n); simpl; auto.
  - auto.
Qed.

Lemma includes_In xs x : includes xs x = true <-> In x xs.
Proof.
  unfold includes. rewrite existsb_exists. split.
  - intros (y & Hy & E). apply String.eqb_eq in E. subst. assumption.
  - intros H. exists x. split; [assumption|apply String.eqb_refl].
Qed.

(** Registering a defined command twice leaves two more members that
    hold its name. *)
Lemma registerCommand_twice w n e :
  cmd_enabled (cmd w) = true ->
  map_get (commands (cmd w)) n = Some e ->
  exists w1 w2,
    registerCommand w n = Ok w1 /\ registerCommand w1 n = Ok w2
    /\ List.length (pairs_for w2 n) = 2 + List.length (pairs_for w n).
Proof.
  intros He Hg.
  destruct (registerCommand_adds w n e He Hg) as (w1 & ns1 & R1 & I1 & E1 & C1 & He1).
  rewrite <- C1 in Hg.
  destruct (registerCommand_adds w1 n e He1 Hg) as (w2 & ns2 & R2 & I2 & E2 & C2 & He2).
  exists w1, w2. split; [assumption|]. split; [assumption|].
  unfold pairs_for. rewrite E2, E1. rewrite !filter_app. simpl.
  apply includes_In in I1. apply includes_In in I2. rewrite I1, I2.
  rewrite !length_app. simpl. lia.
Qed.

(** C4. The code at the failing input: with [clear] (alias [cls])
    defined, [registerCommand("clear")] twice in a row leaves two pairs
    for [clear] in the registration set, not one. *)
Theorem registerCommand_twice_two_pairs :
  exists w1 w2,
    registerCommand clear_defined "clear" = Ok w1
    /\ registerCommand w1 "clear" = Ok w2
    /\ registeredCommands (cmd w1) = [["clear"; "cls"]]
    /\ registeredCommands (cmd w2) = [["clear"; "cls"]; ["clear"; "cls"]]
    /\ pairs_for w2 "clear" = [["clear"; "cls"]; ["clear"; "cls"]].
Proof.
  eexists. eexists. split; [reflexivity|]. split; [reflexivity|].
  split; [reflexivity|]. split; reflexivity.
Qed.

Lemma check_positional_app pre : forall rest args i,
  check_positional (pre ++ rest) args i
  = match check_positional pre args i with
    | Some err => Some err
    | None => check_positional rest args (i + List.length pre)
    end.
Proof.
  induction pre as [|p r IH]; intros rest args i; simpl.
  - rewrite Nat.add_0_r. reflexivity.
  - destruct (p_required p && (List.length args <=? i)); [reflexivity|].
    destruct (p_options p) as [opts|].
    + destruct (negb (option_allowed opts args i)); [reflexivity|].
      rewrite IH. replace (S i + List.length r) with (i + S (List.length r)) by lia.
      reflexivity.
    + rewrite IH. replace (S i + List.length r) with (i + S (List.length r)) by lia.
      reflexivity.
Qed.

Lemma missing_argument_not_as_specified : ~ missing_argument_as_specified.
Proof.
  intros H.
  specialize (H toggle_defined "toggle"
                {| body := toggle_body; fn := HConst VUndefined |}
                ["maybe"] []
                [positional "action" true (Some ["on"; "off"]) None]
                (positional "target" true None (Some "text")) []
                eq_refl eq_refl eq_refl eq_refl (le_n 1)).
  vm_compute in H. discriminate H.
Qed.

(** The error of the loop over the positional parameters is that of
    the first parameter that fails: its required argument is missing, or
    the argument at its position is not one of its allowed values. *)
Lemma check_positional_first pre : forall args i err,
  check_positional pre args i = Some err ->
  exists pre1 p pre2,
    pre = (pre1 ++ p :: pre2)%list
    /\ check_positional pre1 args i = None
    /\ ((p_required p = true /\ List.length args <= i + List.length pre1
         /\ err = "Missing required argument: " ++ quoted (p_name p))
        \/ (exists opts,
              p_options p = Some opts
              /\ option_allowed opts args (i + List.length pre1) = false
              /\ err = "Invalid value for argument " ++ quoted (p_name p)
                       ++ ": expected one of "
                       ++ quoted (join (String dquote (", " ++ String dquote EmptyString))
                                       opts)
                       ++ ", got " ++ quoted (arg_text args (i + List.length pre1)))).
Proof.
  induction pre as [|q r IH]; intros args i err H; simpl in H; [discriminate|].
  destruct (p_required q && (List.length args <=? i)) eqn:Hq.
  - inversion H; subst. apply andb_true_iff in Hq as [Hr Hl].
    apply Nat.leb_le in Hl.
    exists [], q, r. split; [reflexivity|]. split; [reflexivity|].
    left. simpl. rewrite Nat.add_0_r. auto.
  - assert (Step : check_positional r args (S i) = Some err ->
                   (p_options q = None
                    \/ exists opts, p_options q = Some opts
                                    /\ option_allowed opts args i = true) ->
                   exists pre1 p pre2,
                     (q :: r = pre1 ++ p :: pre2)%list
                     /\ check_positional pre1 args i = None
                     /\ ((p_required p = true
                          /\ List.length args <= i + List.length pre1
                          /\ err = "Missing required argument: " ++ quoted (p_name p))
                         \/ (exists opts,
                               p_options p = Some opts
                               /\ option_allowed opts args (i + List.length pre1) = false
                               /\ err = "Invalid value for argument " ++ quoted (p_name p)
                                        ++ ": expected one of "
                                        ++ quoted (join (String dquote
                                                           (", " ++ String dquote EmptyString))
                                                        opts)
                                        ++ ", got "
                                        ++ quoted (arg_text args (i + List.length pre1))))).
    { intros Hrest Hopt.
      destruct (IH args (S i) err Hrest) as (pre1 & p & pre2 & E & Hn & Hc).
      exists (q :: pre1), p, pre2. split; [rewrite E; reflexivity|].
      split.
      - simpl. rewrite Hq.
        destruct Hopt as [Ho|(opts & Ho & Ha)]; rewrite Ho; [exact Hn|].
        rewrite Ha. exact Hn.
      - simpl. replace (i + S (List.length pre1)) with (S i + List.length pre1) by lia.
        exact Hc. }
    destruct (p_options q) as [opts|] eqn:Ho.
    + destruct (negb (option_allowed opts args i)) eqn:Ha.
      * inversion H; subst. apply negb_true_iff in Ha.
        exists [], q, r. split; [reflexivity|]. split; [reflexivity|].
        right. exists opts. simpl. rewrite Nat.add_0_r. auto.
      * apply negb_false_iff in Ha. apply Step; [exact H|].
        right. exists opts. auto.
    + apply Step; [exact H|]. left. reflexivity.
Qed.

(** C6, amended. With the registry enabled, a defined command whose
    positional parameter [param] is required and has no argument is never
    valid: [verify] returns [valid = false]. The error is the
    missing-argument error naming [param] when no positional parameter
    before it is rejected first, whether or not [param] declares
    [pipeableFrom]; otherwise it is the error of the first parameter
    before it that is rejected, for a missing argument or for a value
    that is not allowed. *)
Theorem verify_missing_required_argument :
  forall w n e args flags pre param post,
    cmd_enabled (cmd w) = true ->
    map_get (commands (cmd w)) n = Some e ->
    filter is_positional (schema (body e)) = (pre ++ param :: post)%list ->
    p_required param = true ->
    List.length args <= List.length pre ->
    (exists err,
        verify w (Some n) args flags
        = (Some (NotValid err), flags, record w ("CommandService_verify " ++ n)))
    /\ (check_positional pre args 0 = None ->
        verify w (Some n) args flags
        = (Some (NotValid ("Missing required argument: " ++ quoted (p_name param))),
           flags, record w ("CommandService_verify " ++ n)))
    /\ (forall err,
          check_positional pre args 0 = Some err ->
          verify w (Some n) args flags
          = (Some (NotValid err), flags, record w ("CommandService_verify " ++ n))
          /\ exists pre1 p pre2,
               pre = (pre1 ++ p :: pre2)%list
               /\ check_positional pre1 args 0 = None
               /\ ((p_required p = true /\ List.length args <= List.length pre1
                    /\ err = "Missing required argument: " ++ quoted (p_name p))
                   \/ (exists opts,
                         p_options p = Some opts
                         /\ option_allowed opts args (List.length pre1) = false
                         /\ err = "Invalid value for argument " ++ quoted (p_name p)
                                  ++ ": expected one of "
                                  ++ quoted (join (String dquote
                                                     (", " ++ String dquote EmptyString))
                                                  opts)
                                  ++ ", got "
                                  ++ quoted (arg_text args (List.length pre1))))).
Proof.
  intros w n e args flags pre param post He Hg Hf Hr Hl.
  unfold verify. rewrite He, Hg. simpl. rewrite Hf.
  rewrite check_positional_app. simpl. rewrite Hr.
  assert (Hle : (List.length args <=? List.length pre) = true)
    by (apply Nat.leb_le; assumption).
  rewrite Hle. simpl.
  split; [|split].
  - destruct (check_positional pre args 0); eexists; reflexivity.
  - intros ->. reflexivity.
  - intros err Hc. split; [rewrite Hc; reflexivity|].
    exact (check_positional_first pre args 0 err Hc).
Qed.

Lemma verify_missing_required_argument_witness :
  verify booted (Some "findtext") [] [("regex", VBool true)]
  = (Some (NotValid ("Missing required argument: " ++ quoted "text")),
     [("regex", VBool true)],
     record booted "CommandService_verify findtext").
Proof.
  refine (proj1 (proj2 (verify_missing_required_argument booted "findtext"
                          {| body := findtext_body; fn := HFindtext |}
                          [] [("regex", VBool true)]
                          [] (positional "text" true None (Some "text")) []
                          eq_refl eq_refl eq_refl eq_refl (le_n 0))) eq_refl).
Defined.

End RegistryFacts.

(** ** Verification and fragments *)

Section FragmentFacts.


Lemma obj_get_replace_own o : forall k v k',
  own_key o k = true ->
  obj_get (replace_own o k v) k' = if String.eqb k k' then v else obj_get o k'.
Proof.
  induction o as [|[k0 v0] r IH]; intros k v k' H; simpl in *.
  - discriminate.
  - destruct (String.eqb k0 k) eqn:E0; simpl.
    + apply String.eqb_eq in E0. subst. destruct (String.eqb k k'); reflexivity.
    + rewrite IH by assumption. destruct (String.eqb k0 k') eqn:E1; [|reflexivity].
      apply String.eqb_eq in E1. subst.
      rewrite String.eqb_sym, E0. reflexivity.
Qed.

Lemma obj_get_insert_index o : forall i k v k',
  own_key o k = false ->
  obj_get (insert_index o i k v) k' = if String.eqb k k' then v else obj_get o k'.
Proof.
  induction o as [|[k0 v0] r IH]; intros i k v k' H; simpl in *.
  - reflexivity.
  - apply orb_false_iff in H as [H0 Hr].
    destruct (array_index k0) as [j|]; [|reflexivity].
    destruct (j <? i)%Z; [|reflexivity].
    simpl. rewrite IH by assumption.
    destruct (String.eqb k0 k') eqn:E1; [|reflexivity].
    apply String.eqb_eq in E1. subst. rewrite String.eqb_sym, H0. reflexivity.
Qed.

Lemma obj_get_snoc o : forall k v k',
  own_key o k = false ->
  obj_get (o ++ [(k, v)])%list k' = if String.eqb k k' then v else obj_get o k'.
Proof.
  induction o as [|[k0 v0] r IH]; intros k v k' H; simpl in *.
  - reflexivity.
  - apply orb_false_iff in H as [H0 Hr]. rewrite IH by assumption.
    destruct (String.eqb k0 k') eqn:E1; [|reflexivity].
    apply String.eqb_eq in E1. subst. rewrite String.eqb_sym, H0. reflexivity.
Qed.

(** A property that reads as something is an own one. *)
Lemma obj_get_own o k : obj_get o k <> VUndefined -> own_key o k = true.
Proof.
  induction o as [|[k0 v0] r IH]; simpl; intros H.
  - congruence.
  - destruct (String.eqb k0 k); [reflexivity|]. apply IH. assumption.
Qed.

(** Reading after an assignment that is not the ignored one. *)
Lemma obj_get_set o k v k' :
  own_key o k = true \/ k <> "__proto__" ->
  obj_get (obj_set o k v) k' = if String.eqb k k' then v else obj_get o k'.
Proof.
  intros H. unfold obj_set. destruct (own_key o k) eqn:Ho.
  - apply obj_get_replace_own. assumption.
  - destruct H as [H|H]; [discriminate|].
    apply String.eqb_neq in H. rewrite H.
    destruct (array_index k) as [i|].
    + apply obj_get_insert_index. assumption.
    + apply obj_get_snoc. assumption.
Qed.

(** Reading any other name than [__proto__] after an assignment. *)
Lemma obj_get_set_other o k v k' :
  k' <> "__proto__" ->
  obj_get (obj_set o k v) k' = if String.eqb k k' then v else obj_get o k'.
Proof.
  intros H. destruct (String.eqb k "__proto__") eqn:E.
  - apply String.eqb_eq in E. subst k.
    destruct (own_key o "__proto__") eqn:Ho.
    + apply obj_get_set. left. assumption.
    + assert (E : String.eqb "__proto__" k' = false)
        by (apply String.eqb_neq; congruence).
      rewrite E. unfold obj_set. rewrite Ho. reflexivity.
  - apply obj_get_set. right. apply String.eqb_neq. assumption.
Qed.

Lemma own_key_replace_own o : forall k v k',
  own_key (replace_own o k v) k' = own_key o k'.
Proof.
  induction o as [|[k0 v0] r IH]; intros k v k'; simpl.
  - reflexivity.
  - destruct (String.eqb k0 k) eqn:E; simpl.
    + apply String.eqb_eq in E. subst. reflexivity.
    + rewrite IH. reflexivity.
Qed.

Lemma own_key_insert_index o : forall i k v k',
  own_key (insert_index o i k v) k' = String.eqb k k' || own_key o k'.
Proof.
  induction o as [|[k0 v0] r IH]; intros i k v k'; simpl.
  - reflexivity.
  - destruct (array_index k0) as [j|]; [|reflexivity].
    destruct (j <? i)%Z; [|reflexivity].
    simpl. rewrite IH.
    destruct (String.eqb k0 k'), (String.eqb k k'); reflexivity.
Qed.

Lemma own_key_snoc o : forall k v k',
  own_key (o ++ [(k, v)])%list k' = String.eqb k k' || own_key o k'.
Proof.
  intros k v k'. unfold own_key. rewrite existsb_app. simpl.
  rewrite orb_false_r. apply orb_comm.
Qed.

(** No assignment creates a property named [__proto__]. *)
Lemma own_key_set_proto o k v :
  own_key (obj_set o k v) "__proto__" = own_key o "__proto__".
Proof.
  unfold obj_set. destruct (own_key o k) eqn:Ho.
  - apply own_key_replace_own.
  - destruct (String.eqb k "__proto__") eqn:E; [reflexivity|].
    destruct (array_index k) as [i|].
    + rewrite own_key_insert_index, E. reflexivity.
    + rewrite own_key_snoc, E. reflexivity.
Qed.

(** The assignment that is ignored. *)
Lemma obj_set_proto o v : own_key o "__proto__" = false -> obj_set o "__proto__" v = o.
Proof. intros H. unfold obj_set. rewrite H. reflexivity. Qed.








End FragmentFacts.

(** ** The engine *)

Section EngineFacts.

(** When [runSingle] returns, the handler of the entry of the fragment
    was called, on the arguments of the fragment, its flags under their
    long names and the pipe value, and returned; what [runSingle] returns
    is what the handler returned, with [undefined] turned into [null],
    and is not an error line. *)
Lemma runSingle_returns ts ext f signal pipe w result f' w' :
  runSingle ts ext f signal pipe w = (Ok result, f', w') ->
  exists fl e w1 r,
    verify w (name f) (args f) (flags f) = (Some (Valid fl), flags f', w1)
    /\ map_get (commands (cmd w1)) (name_text (name f)) = Some e
    /\ run_handler ts ext (fn e)
         {| pr_args := args f;
            pr_flags := normalize_flags (filter is_flag (schema (body e))) (flags f');
            pr_pipe := pipe |}
         (record w1 ("CommandExecService_run " ++ name_text (name f)))
       = (Ok r, w')
    /\ is_str (type_field r) "error" = false
    /\ result = or_null r.
Proof.
  unfold runSingle.
  destruct (verify w (name f) (args f) (flags f)) as [[v fl] w1].
  destruct v as [v|]; [|discriminate].
  destruct (signal_aborted w1 signal); [discriminate|].
  destruct (negb _); [discriminate|].
  destruct v as [fl'|err]; [|discriminate].
  destruct (map_get _ _) as [e|] eqn:Hm; [|discriminate].
  destruct (run_handler _ _ _ _ _) as [[r|x] w3] eqn:Hr; [|discriminate].
  destruct (is_str (type_field r) "error") eqn:He; [discriminate|].
  intros E. inversion E; subst. simpl. exists fl', e, w1, r.
  repeat split; try assumption; try reflexivity.
Qed.

Lemma pipe_conversion_not_as_specified : ~ pipe_conversion_as_specified.
Proof.
  intros H.
  specialize (H no_timestamp no_extern (parseCommandFragment "mark") 0 VNull
                mark_defined).
  vm_compute in H. specialize (H _ _ _ eq_refl). discriminate H.
Qed.

(** C2, amended. For every fragment of a chain that runs to its end -
    the handler of its entry is called on the arguments of the fragment,
    its flags and the pipe value, and returns a value that is not an
    error line, which would be thrown instead - the loop of [runChain]
    goes on with the rest of the chain and, as the next pipe value, the
    value the handler returned converted so: a single line-kind Output
    Line becomes the array of that one line; no result ([undefined] or
    [null]) becomes [null]; every other result passes through unchanged -
    a sequence, and also a value that is neither, such as a single
    markup line. *)
Theorem runChain_next_pipe :
  forall timestamp extern f rest signal pipe w result f' w',
    signal_aborted w signal = false ->
    runSingle timestamp extern f signal pipe w = (Ok result, f', w') ->
    exists fl e w1 r,
      verify w (name f) (args f) (flags f) = (Some (Valid fl), flags f', w1)
      /\ map_get (commands (cmd w1)) (name_text (name f)) = Some e
      /\ run_handler timestamp extern (fn e)
           {| pr_args := args f;
              pr_flags := normalize_flags (filter is_flag (schema (body e))) (flags f');
              pr_pipe := pipe |}
           (record w1 ("CommandExecService_run " ++ name_text (name f)))
         = (Ok r, w')
      /\ is_str (type_field r) "error" = false
      /\ result = or_null r
      /\ runChain_loop timestamp extern (f :: rest) signal pipe w
         = let '(o, rest', w'') :=
             runChain_loop timestamp extern rest signal
               (match r with
                | VUndefined | VNull => VNull
                | _ => if is_str (type_field r) "line" then VArr [r] else r
                end) w' in
           (o, f' :: rest', w'').
Proof.
  intros ts ext f rest signal pipe w result f' w' Hs H.
  destruct (runSingle_returns _ _ _ _ _ _ _ _ _ H)
    as (fl & e & w1 & r & Hv & He & Hr & Hn & Hres).
  exists fl, e, w1, r.
  split; [exact Hv|]. split; [exact He|]. split; [exact Hr|].
  split; [exact Hn|]. split; [exact Hres|].
  cbn [runChain_loop]. rewrite Hs, H.
  replace (next_pipe result)
    with (match r with
          | VUndefined | VNull => VNull
          | _ => if is_str (type_field r) "line" then VArr [r] else r
          end); [reflexivity|].
  rewrite Hres. unfold next_pipe.
  destruct r as [| |b|n|s|fields|items]; reflexivity.
Qed.

Lemma runChain_next_pipe_witness :
  let f := parseCommandFragment "print hello" in
  let w' := snd (runSingle no_timestamp no_extern f 0 VNull booted) in
  signal_aborted booted 0 = false
  /\ exists fl e w1 r,
       verify booted (name f) (args f) (flags f) = (Some (Valid fl), flags f, w1)
       /\ map_get (commands (cmd w1)) (name_text (name f)) = Some e
       /\ run_handler no_timestamp no_extern (fn e)
            {| pr_args := args f;
               pr_flags := normalize_flags (filter is_flag (schema (body e))) (flags f);
               pr_pipe := VNull |}
            (record w1 ("CommandExecService_run " ++ name_text (name f)))
          = (Ok r, w')
       /\ is_str (type_field r) "error" = false
       /\ mk_line "line" "hello" EmptyString = or_null r
       /\ runChain_loop no_timestamp no_extern [f] 0 VNull booted
          = let '(o, rest', w'') :=
              runChain_loop no_timestamp no_extern [] 0
                (match r with
                 | VUndefined | VNull => VNull
                 | _ => if is_str (type_field r) "line" then VArr [r] else r
                 end) w' in
            (o, f :: rest', w'').
Proof.
  intros f w'.
  assert (Hs : signal_aborted booted 0 = false) by reflexivity.
  split; [exact Hs|].
  refine (runChain_next_pipe no_timestamp no_extern f [] 0 VNull booted
            (mk_line "line" "hello" EmptyString) f w' Hs _).
  vm_compute. reflexivity.
Defined.

End EngineFacts.

Section ShellFacts.

Variable timestamp : Z -> string.
Variable extern : handler -> params -> world -> res jsval * world.

Lemma out_record w a : out (record w a) = out w.
Proof. unfold record. destruct (diag_enabled (diag w)); reflexivity. Qed.

Lemma elem_record w a : elem (record w a) = elem w.
Proof. unfold record. destruct (diag_enabled (diag w)); reflexivity. Qed.

Lemma savior_record w a : savior (record w a) = savior w.
Proof. unfold record. destruct (diag_enabled (diag w)); reflexivity. Qed.

Lemma diag_enabled_record w a : diag_enabled (diag (record w a)) = diag_enabled (diag w).
Proof. unfold record. destruct (diag_enabled (diag w)) eqn:E; simpl; auto. Qed.

Lemma nth_fresh (cs : list bool) : nth (List.length cs) (cs ++ [false]) false = false.
Proof. induction cs; simpl; auto. Qed.

Lemma enqueue_idle w c :
  idle w -> snd (enqueue w c) = started w c.
Proof.
  intros (He & Ho & Hr & Hq & Hi & Hs). unfold enqueue, started.
  rewrite He, Ho. simpl. unfold runNext. simpl. rewrite !exec_record.
  rewrite He, Ho, Hr, Hq, Hi. simpl. reflexivity.
Qed.

(** The first activation of [started] and what settling it leaves when
    the chain did not touch the execution service. *)
Lemma settle_started w c w3 o :
  idle w ->
  exec w3 = exec (started w c) ->
  o <> Throw AbortError ->
  settle w3 {| act_item := {| q_chain := c; q_ticket := next_ticket (exec w) |};
               act_controller := List.length (controllers (exec w)) |} o
  = set_exec
      (match o with
       | Ok result => w3
       | Throw AbortError => w3
       | Throw (OSError message) =>
           out_add (record w3 ("CommandExecService_commandError " ++ simplify c))
                   (mk_error message)
       | Throw (JsError _) =>
           out_add (record w3 ("CommandExecService_unexpectedError " ++ simplify c))
                   (mk_error "An unexpected error occurred. Check console for details.")
       end)
      (settled_exec w (match o with Ok result => result | Throw _ => VNull end)).
Proof.
  intros (He & Ho & Hr & Hq & Hi & Hs) E Hab.
  assert (Es : exec (started w c)
               = {| exec_enabled := true; exec_os := true; queue := [];
                    running := true;
                    currentAbort := Some (List.length (controllers (exec w)));
                    currentReject := Some (next_ticket (exec w));
                    controllers := (controllers (exec w) ++ [false])%list;
                    inflight := [{| act_item := {| q_chain := c;
                                                   q_ticket := next_ticket (exec w) |};
                                    act_controller := List.length (controllers (exec w)) |}];
                    next_ticket := S (next_ticket (exec w));
                    resolved := resolved (exec w); rejected := rejected (exec w);
                    history := Started (next_ticket (exec w))
                               :: Enqueued (next_ticket (exec w)) :: history (exec w) |})
    by reflexivity.
  rewrite Es in E. clear Es.
  assert (K : forall w' v, exec w' = exec w3 ->
              release (resolve w' (next_ticket (exec w)) v)
                {| act_item := {| q_chain := c; q_ticket := next_ticket (exec w) |};
                   act_controller := List.length (controllers (exec w)) |}
              = set_exec w' (settled_exec w v)).
  { intros w' v E'. rewrite E in E'.
    unfold resolve. rewrite E'. unfold is_settled in *. simpl. rewrite Hs.
    unfold release, signal_aborted. simpl. rewrite nth_fresh. simpl.
    rewrite Nat.eqb_refl. simpl. unfold runNext. simpl. reflexivity. }
  unfold settle, conclude. simpl.
  destruct o as [result|[message| |message]]; try congruence; apply K;
    rewrite ?exec_out_add, ?exec_record; reflexivity.
Qed.

Lemma record_set_exec w e a : record (set_exec w e) a = set_exec (record w a) e.
Proof. unfold record. simpl. destruct (diag_enabled (diag w)); reflexivity. Qed.

Lemma out_add_set_exec w e l : out_add (set_exec w e) l = set_exec (out_add w l) e.
Proof.
  unfold out_add. simpl. destruct (negb (out_enabled (out w))); [reflexivity|].
  rewrite record_set_exec. unfold set_buffer. simpl. reflexivity.
Qed.

Lemma set_exec_set_exec w e1 e2 : set_exec (set_exec w e1) e2 = set_exec w e2.
Proof. reflexivity. Qed.

Lemma buffer_out_add w l :
  out_enabled (out w) = true -> buffer (out (out_add w l)) = (buffer (out w) ++ [l])%list.
Proof.
  intros H. unfold out_add. rewrite H. simpl. rewrite out_record. reflexivity.
Qed.

Lemma out_enabled_out_add w l : out_enabled (out (out_add w l)) = out_enabled (out w).
Proof.
  unfold out_add. destruct (negb (out_enabled (out w))); [reflexivity|].
  simpl. rewrite out_record. reflexivity.
Qed.

Lemma cmd_out_add w l : cmd (out_add w l) = cmd w.
Proof.
  unfold out_add. destruct (negb (out_enabled (out w))); [reflexivity|].
  simpl. apply cmd_record.
Qed.

Lemma savior_out_add w l : savior (out_add w l) = savior w.
Proof.
  unfold out_add. destruct (negb (out_enabled (out w))); [reflexivity|].
  simpl. apply savior_record.
Qed.

Lemma diag_enabled_out_add w l :
  diag_enabled (diag (out_add w l)) = diag_enabled (diag w).
Proof.
  unfold out_add. destruct (negb (out_enabled (out w))); [reflexivity|].
  simpl. apply diag_enabled_record.
Qed.

Lemma submit_idle w c :
  idle w ->
  submit timestamp extern w c
  = let '(o, _, w3) :=
      runChain timestamp extern c (List.length (controllers (exec w))) (started w c) in
    settle w3 {| act_item := {| q_chain := c; q_ticket := next_ticket (exec w) |};
                 act_controller := List.length (controllers (exec w)) |} o.
Proof.
  intros H. unfold submit. rewrite (enqueue_idle w c H). reflexivity.
Qed.

Lemma verify_service_disable w :
  cmd_enabled (cmd w) = true ->
  map_get (commands (cmd w)) "service" = Some service_entry ->
  verify w (Some "service") ["disable"; "commandexec"] []
  = (Some (Valid []), [], record w "CommandService_verify service").
Proof.
  intros He Hg. unfold verify. rewrite He, Hg. reflexivity.
Qed.

Lemma runSingle_service_disable w signal pipe :
  cmd_enabled (cmd w) = true ->
  map_get (commands (cmd w)) "service" = Some service_entry ->
  registered_includes w "service" = true ->
  signal_aborted w signal = false ->
  runSingle timestamp extern
    {| name := Some "service"; args := ["disable"; "commandexec"]; flags := [] |}
    signal pipe w
  = (Throw (OSError (critical_message "commandexec")),
     {| name := Some "service"; args := ["disable"; "commandexec"]; flags := [] |},
     record (record w "CommandService_verify service")
            "CommandExecService_run service").
Proof.
  intros He Hg Hreg Hsig. unfold runSingle. simpl.
  rewrite (verify_service_disable w He Hg).
  unfold signal_aborted in *. rewrite exec_record, Hsig.
  unfold registered_includes in *. rewrite cmd_record, Hreg. simpl.
  rewrite Hg. reflexivity.
Qed.


(** C10. A line of white space and pipes only parses to a chain with no
    fragment; running that chain returns [null] and leaves the world as
    it was, for every signal; submitted to the idle queue it resolves its
    promise with [null], the only trace being the enqueue record: no
    handler is invoked, nothing reaches the output buffer or the page,
    nothing is thrown. *)
Theorem blank_line_runs_nothing : forall input,
  all_chars ws_or_pipe input = true ->
  parseCommand input = []
  /\ (forall signal w,
        runChain timestamp extern (parseCommand input) signal w = (Ok VNull, [], w))
  /\ (forall w, idle w ->
        let w' := submit timestamp extern w (parseCommand input) in
        w' = set_exec (record w "CommandExecService_enqueue ") (settled_exec w VNull)
        /\ resolved (exec w')
           = (resolved (exec w) ++ [(next_ticket (exec w), VNull)])%list
        /\ rejected (exec w') = rejected (exec w)
        /\ out w' = out w /\ elem w' = elem w /\ cmd w' = cmd w).
Proof.
  intros input H.
  assert (E : parseCommand input = []).
  { unfold parseCommand. rewrite parsePipeline_blank by assumption. reflexivity. }
  rewrite E. split; [reflexivity|]. split; [reflexivity|].
  intros w Hi w'.
  assert (Ew : w' = set_exec (record w "CommandExecService_enqueue ")
                             (settled_exec w VNull)).
  { unfold w'. rewrite submit_idle by assumption. simpl.
    rewrite (settle_started w [] (started w []) (Ok VNull) Hi eq_refl) by discriminate.
    reflexivity. }
  split; [exact Ew|]. rewrite Ew. simpl.
  rewrite out_record, elem_record, cmd_record. repeat split; reflexivity.
Qed.

(** C7. [service disable commandexec] without [--confirm], submitted to
    the idle queue of a shell that has [service] defined and registered:
    the chain fails with the error naming the service as critical, which
    goes to the output buffer as an error-kind line; the promise resolves
    with [null]; the execution service is still enabled and no service
    changed its switch. *)
Theorem service_disable_commandexec_needs_confirm : forall w,
  idle w ->
  cmd_enabled (cmd w) = true ->
  map_get (commands (cmd w)) "service" = Some service_entry ->
  registered_includes w "service" = true ->
  let w' := submit timestamp extern w (parseCommand "service disable commandexec") in
  w' = set_exec
         (out_add
            (record
               (record
                  (record (record w "CommandExecService_enqueue service")
                          "CommandService_verify service")
                  "CommandExecService_run service")
               "CommandExecService_commandError service")
            (mk_error (critical_message "commandexec")))
         (settled_exec w VNull)
  /\ exec_enabled (exec w') = true
  /\ (out_enabled (out w) = true ->
      buffer (out w') = (buffer (out w) ++ [mk_error (critical_message "commandexec")])%list)
  /\ resolved (exec w') = (resolved (exec w) ++ [(next_ticket (exec w), VNull)])%list
  /\ cmd_enabled (cmd w') = cmd_enabled (cmd w)
  /\ out_enabled (out w') = out_enabled (out w)
  /\ diag_enabled (diag w') = diag_enabled (diag w)
  /\ sav_enabled (savior w') = sav_enabled (savior w).
Proof.
  intros w Hi He Hg Hreg w'.
  assert (Ew : w' = set_exec
         (out_add
            (record
               (record
                  (record (record w "CommandExecService_enqueue service")
                          "CommandService_verify service")
                  "CommandExecService_run service")
               "CommandExecService_commandError service")
            (mk_error (critical_message "commandexec")))
         (settled_exec w VNull)).
  { unfold w'. rewrite submit_idle by assumption.
    change (parseCommand "service disable commandexec")
      with [{| name := Some "service"; args := ["disable"; "commandexec"];
               flags := [] |}].
    set (c := [{| name := Some "service"; args := ["disable"; "commandexec"];
                  flags := [] |}]).
    assert (Er : runChain timestamp extern c (List.length (controllers (exec w)))
                          (started w c)
                 = (Throw (OSError (critical_message "commandexec")), c,
                    record (record (started w c) "CommandService_verify service")
                           "CommandExecService_run service")).
    { unfold runChain, c. simpl.
      assert (Hs : signal_aborted (started w c) (List.length (controllers (exec w)))
                   = false) by (unfold signal_aborted; simpl; apply nth_fresh).
      fold c. rewrite Hs.
      rewrite runSingle_service_disable; try assumption.
      - reflexivity.
      - unfold started. simpl. rewrite cmd_record. assumption.
      - unfold started. simpl. rewrite cmd_record. assumption.
      - unfold registered_includes, started in *. simpl. rewrite cmd_record.
        assumption. }
    rewrite Er.
    rewrite (settle_started w c _ (Throw (OSError (critical_message "commandexec"))) Hi)
      by (try discriminate; rewrite !exec_record; reflexivity).
    unfold started. simpl.
    rewrite !record_set_exec, out_add_set_exec. reflexivity. }
  split; [exact Ew|]. rewrite Ew. simpl.
  split; [reflexivity|].
  split.
  { intros Ho. rewrite buffer_out_add by (rewrite !out_record; assumption).
    rewrite !out_record. reflexivity. }
  split; [reflexivity|].
  rewrite cmd_out_add, out_enabled_out_add, diag_enabled_out_add, savior_out_add.
  rewrite !cmd_record, !out_record, !diag_enabled_record, !savior_record.
  repeat split; reflexivity.
Qed.

End ShellFacts.

Lemma blank_line_runs_nothing_witness :
  all_chars ws_or_pipe " |  | " = true
  /\ idle booted
  /\ submit no_timestamp no_extern booted (parseCommand " |  | ")
     = set_exec (record booted "CommandExecService_enqueue ")
                (settled_exec booted VNull).
Proof.
  assert (Hi : idle booted) by (repeat split; reflexivity).
  split; [reflexivity|]. split; [exact Hi|].
  exact (proj1 (proj2 (proj2 (blank_line_runs_nothing no_timestamp no_extern
                                " |  | " eq_refl)) booted Hi)).
Defined.

Lemma service_disable_commandexec_needs_confirm_witness :
  idle booted
  /\ cmd_enabled (cmd booted) = true
  /\ map_get (commands (cmd booted)) "service" = Some service_entry
  /\ registered_includes booted "service" = true
  /\ exec_enabled
       (exec (submit no_timestamp no_extern booted
                     (parseCommand "service disable commandexec"))) = true.
Proof.
  assert (Hi : idle booted) by (repeat split; reflexivity).
  split; [exact Hi|]. split; [reflexivity|]. split; [reflexivity|].
  split; [reflexivity|].
  exact (proj1 (proj2 (service_disable_commandexec_needs_confirm
                         no_timestamp no_extern booted Hi eq_refl eq_refl eq_refl))).
Defined.

(** ** The display of the diagnostics log *)

Section LogFacts.

Lemma last_entry_snoc xs x : last_entry (xs ++ [x]) = Some x.
Proof. unfold last_entry. rewrite rev_app_distr. reflexivity. Qed.

Lemma fold_run n : forall done x k,
  fold_left compress_step (repeat x n) ((done ++ [x])%list, k)
  = ((done ++ [x])%list, k + n).
Proof.
  induction n as [|n IH]; intros done x k; simpl.
  - rewrite Nat.add_0_r. reflexivity.
  - rewrite last_entry_snoc, String.eqb_refl. rewrite IH. f_equal. lia.
Qed.

Lemma step_new_run done x k y :
  x <> y ->
  compress_step ((done ++ [x])%list, k) y
  = (((done ++ [render (x, k)]) ++ [y])%list, 0).
Proof.
  intros Hne. unfold compress_step, render. simpl. rewrite last_entry_snoc.
  destruct (String.eqb y x) eqn:E.
  - apply String.eqb_eq in E. congruence.
  - destruct (0 <? k) eqn:Hk.
    + unfold set_last_entry, counted. rewrite removelast_last. reflexivity.
    + apply Nat.ltb_ge in Hk. replace k with 0 by lia. reflexivity.
Qed.

Lemma last_default (A : Type) (l : list A) : forall a d d',
  last (a :: l) d = last (a :: l) d'.
Proof.
  induction l as [|b r IH]; intros a d d'; [reflexivity|].
  change (last (b :: r) d = last (b :: r) d'). apply IH.
Qed.

Lemma fold_runs runs : forall done x k,
  maximal_runs x runs ->
  fst (fold_left compress_step (expand runs) ((done ++ [x])%list, k))
  = (done ++ map render (removelast ((x, k) :: runs))
          ++ [fst (last ((x, k) :: runs) (x, k))])%list.
Proof.
  induction runs as [|[y j] rest IH]; intros done x k Hm.
  - reflexivity.
  - destruct Hm as [Hne Hm].
    assert (E : expand ((y, j) :: rest) = (y :: (repeat y j ++ expand rest))%list)
      by reflexivity.
    rewrite E. cbn [fold_left].
    rewrite step_new_run by assumption.
    rewrite fold_left_app, fold_run. rewrite IH by assumption.
    rewrite <- app_assoc.
    change (removelast ((x, k) :: (y, j) :: rest))
      with ((x, k) :: removelast ((y, j) :: rest)).
    change (last ((x, k) :: (y, j) :: rest) (x, k))
      with (last ((y, j) :: rest) (x, k)).
    rewrite (last_default _ rest (y, j) (x, k) (y, j)). reflexivity.
Qed.

(** The first loop on a log given by its maximal runs: every run but the
    last is one line, with its count when it has more than one line; the
    last run is its plain line, whatever its length. *)
Lemma compress_runs x k runs :
  maximal_runs x runs ->
  compress (expand ((x, k) :: runs))
  = (map render (removelast ((x, k) :: runs))
     ++ [fst (last ((x, k) :: runs) (x, k))])%list.
Proof.
  intros Hm. unfold compress.
  assert (E : expand ((x, k) :: runs) = (x :: (repeat x k ++ expand runs))%list)
    by reflexivity.
  rewrite E. cbn [fold_left].
  change (compress_step ([], 0) x) with (([] ++ [x])%list, 0).
  rewrite fold_left_app, fold_run. rewrite fold_runs by assumption.
  reflexivity.
Qed.

End LogFacts.

(** ** More on the parser *)

Section ParserMore.

Lemma trimEnd_idempotent s : trimEnd (trimEnd s) = trimEnd s.
Proof.
  induction s as [|c r IH]; simpl; [reflexivity|].
  destruct (trimEnd r) as [|d r'] eqn:E.
  - destruct (is_ws c) eqn:Hc; simpl; [reflexivity|]. rewrite Hc. reflexivity.
  - simpl. simpl in IH. destruct (trimEnd r') as [|d' r''] eqn:E'.
    + destruct (is_ws d) eqn:Hd; [discriminate IH|]. f_equal. exact IH.
    + rewrite IH. reflexivity.
Qed.

Lemma trimStart_shape s :
  trimStart s = EmptyString
  \/ exists c r, trimStart s = String c r /\ is_ws c = false.
Proof.
  induction s as [|c r IH]; simpl; [left; reflexivity|].
  destruct (is_ws c) eqn:Hc; [assumption|]. right. eauto.
Qed.

Lemma trimEnd_head c r :
  is_ws c = false -> exists r', trimEnd (String c r) = String c r'.
Proof.
  intros Hc. simpl. destruct (trimEnd r); [rewrite Hc|]; eauto.
Qed.

Lemma trim_idempotent s : trim (trim s) = trim s.
Proof.
  unfold trim. destruct (trimStart_shape s) as [E|(c & r & E & Hc)]; rewrite E.
  - reflexivity.
  - destruct (trimEnd_head c r Hc) as (r' & E'). rewrite E'.
    simpl trimStart. rewrite Hc. rewrite <- E'. apply trimEnd_idempotent.
Qed.

(** What holds of a stage: it is not empty and trimming leaves it as it
    is. *)
Lemma push_stage_trimmed parts current :
  Forall (fun s => nonempty s = true /\ trim s = s) parts ->
  Forall (fun s => nonempty s = true /\ trim s = s) (push_stage parts current).
Proof.
  intros H. unfold push_stage. destruct (nonempty (trim current)) eqn:E; [|assumption].
  apply Forall_app. split; [assumption|]. constructor; [|constructor].
  split; [assumption|apply trim_idempotent].
Qed.

Lemma pipeline_loop_trimmed input : forall st,
  Forall (fun s => nonempty s = true /\ trim s = s) (ps_parts st) ->
  Forall (fun s => nonempty s = true /\ trim s = s)
         (ps_parts (pipeline_loop input st)).
Proof.
  induction input as [|c r IH]; intros st H; simpl; [assumption|].
  apply IH. unfold pipeline_char.
  repeat match goal with
         | |- context [if ?b then _ else _] => destruct b
         end; simpl; try assumption.
  apply push_stage_trimmed. assumption.
Qed.

(** X1. Every stage [parsePipeline] returns is non-empty and has no white
    space at either end, whatever the input. *)
Theorem parsePipeline_stages_trimmed : forall input s,
  In s (parsePipeline input) -> nonempty s = true /\ trim s = s.
Proof.
  intros input s Hin. unfold parsePipeline in Hin.
  assert (H : Forall (fun s => nonempty s = true /\ trim s = s)
                     (push_stage (ps_parts (pipeline_loop input pipeline_init))
                                 (ps_current (pipeline_loop input pipeline_init)))).
  { apply push_stage_trimmed. apply pipeline_loop_trimmed. constructor. }
  rewrite Forall_forall in H. apply H. assumption.
Qed.

Lemma parsePipeline_stages_trimmed_witness :
  In "b" (parsePipeline " a |  b  | c ")
  /\ nonempty "b" = true /\ trim "b" = "b".
Proof.
  assert (Hin : In "b" (parsePipeline " a |  b  | c ")) by (right; left; reflexivity).
  split; [exact Hin|].
  exact (parsePipeline_stages_trimmed " a |  b  | c " "b" Hin).
Defined.

End ParserMore.

Section TokenFacts.

Lemma nonempty_length s : nonempty s = true -> (0 <? String.length s) = true.
Proof. destruct s; [discriminate|reflexivity]. Qed.

Lemma ts_extend_append st c r :
  ts_extend (ts_append st c) r = ts_extend st (String c r).
Proof. unfold ts_extend, ts_append. simpl. rewrite append_push. reflexivity. Qed.

Lemma ts_extend_empty st : ts_extend st EmptyString = st.
Proof. unfold ts_extend. rewrite append_empty. destruct st; reflexivity. Qed.

Lemma wordc_no_backslash c : wordc c = true -> Ascii.eqb c "\" = false.
Proof.
  unfold wordc, is_backslash. intros H.
  repeat (apply andb_true_iff in H as [H ?]).
  apply negb_true_iff. assumption.
Qed.

(** Outside quotes the characters of a word only lengthen the token. *)
Lemma token_loop_word u : forall rest st,
  all_chars wordc u = true ->
  ts_inDoubleQuotes st = false -> ts_inSingleQuotes st = false ->
  token_loop (u ++ rest) st = token_loop rest (ts_extend st u).
Proof.
  induction u as [|c r IH]; intros rest st Hu Hd Hs; simpl.
  - rewrite ts_extend_empty. reflexivity.
  - simpl in Hu. apply andb_true_iff in Hu as [Hc Hr].
    rewrite (wordc_no_backslash c Hc).
    unfold wordc, is_dquote, is_squote, is_backslash in Hc.
    repeat (apply andb_true_iff in Hc as [Hc ?]).
    repeat match goal with
           | H : negb _ = true |- _ => apply negb_true_iff in H
           end.
    assert (E : token_char st c = ts_append st c).
    { unfold token_char.
      repeat match goal with
             | H : Ascii.eqb c _ = false |- _ => rewrite H
             end. reflexivity. }
    rewrite E. rewrite IH by assumption. rewrite ts_extend_append. reflexivity.
Qed.

(** Between double quotes everything but a double quote and a backslash
    only lengthens the token. *)
Lemma token_loop_in_double t : forall rest st,
  all_chars inside_double t = true ->
  ts_inDoubleQuotes st = true -> ts_inSingleQuotes st = false ->
  token_loop (t ++ rest) st = token_loop rest (ts_extend st t).
Proof.
  induction t as [|c r IH]; intros rest st Ht Hd Hs; simpl.
  - rewrite ts_extend_empty. reflexivity.
  - simpl in Ht. apply andb_true_iff in Ht as [Hc Hr].
    unfold inside_double, is_dquote, is_backslash in Hc.
    apply andb_true_iff in Hc as [Hq Hb].
    apply negb_true_iff in Hq. apply negb_true_iff in Hb. rewrite Hb.
    assert (E : token_char st c = ts_append st c).
    { unfold token_char. rewrite Hq, Hd, Hs. simpl.
      rewrite !andb_false_r. reflexivity. }
    rewrite E. rewrite IH by assumption. rewrite ts_extend_append. reflexivity.
Qed.

Lemma token_loop_step c rest st :
  Ascii.eqb c "\" = false ->
  token_loop (String c rest) st = token_loop rest (token_char st c).
Proof. intros H. simpl. rewrite H. reflexivity. Qed.

(** After a command word and a space the word is the first token. *)
Lemma token_loop_command cmd rest :
  all_chars wordc cmd = true -> nonempty cmd = true ->
  token_loop (cmd ++ String " " rest) token_init
  = token_loop rest
      {| ts_current := EmptyString; ts_args := [cmd]; ts_quotedArgs := [false];
         ts_inDoubleQuotes := false; ts_inSingleQuotes := false;
         ts_tokenStartedQuoted := false |}.
Proof.
  intros Hc Hn.
  rewrite (token_loop_word cmd _ token_init Hc eq_refl eq_refl).
  rewrite token_loop_step by reflexivity.
  unfold token_char, ts_extend. simpl. rewrite (nonempty_length cmd Hn).
  reflexivity.
Qed.

(** X2. A token that starts with a quote is always positional: after a
    command word, a non-empty text between double quotes is the one
    argument, as it is, also when it starts with dashes; nothing is parsed
    as a flag. *)
Theorem quoted_token_is_positional : forall cmd t,
  all_chars wordc cmd = true -> nonempty cmd = true ->
  all_chars inside_double t = true -> nonempty t = true ->
  parseCommandFragment (cmd ++ String " " (quoted t))
  = {| name := Some cmd; args := [t]; flags := [] |}.
Proof.
  intros cmd t Hc Hn Ht Hnt.
  assert (E : token_loop (cmd ++ String " " (quoted t)) token_init
              = {| ts_current := t; ts_args := [cmd]; ts_quotedArgs := [false];
                   ts_inDoubleQuotes := false; ts_inSingleQuotes := false;
                   ts_tokenStartedQuoted := true |}).
  { rewrite (token_loop_command cmd _ Hc Hn).
    unfold quoted. rewrite token_loop_step by reflexivity.
    match goal with
    | |- token_loop _ ?st = _ =>
        assert (E0 : st = {| ts_current := EmptyString; ts_args := [cmd];
                             ts_quotedArgs := [false];
                             ts_inDoubleQuotes := true;
                             ts_inSingleQuotes := false;
                             ts_tokenStartedQuoted := true |}) by reflexivity;
        rewrite E0
    end.
    rewrite token_loop_in_double by (assumption || reflexivity).
    rewrite token_loop_step by reflexivity. reflexivity. }
  unfold parseCommandFragment, tokenize. rewrite E. simpl.
  rewrite (nonempty_length t Hnt). reflexivity.
Qed.

Lemma quoted_token_is_positional_witness :
  parseCommandFragment ("print" ++ String " " (quoted "--not a flag=1"))
  = {| name := Some "print"; args := ["--not a flag=1"]; flags := [] |}.
Proof.
  exact (quoted_token_is_positional "print" "--not a flag=1"
           eq_refl eq_refl eq_refl eq_refl).
Defined.

End TokenFacts.

Section FlagTokenFacts.

Lemma flagc_wordc s : all_chars flagc s = true -> all_chars wordc s = true.
Proof.
  induction s as [|c r IH]; simpl; [reflexivity|]. intros H.
  apply andb_true_iff in H as [Hc Hr]. unfold flagc in Hc.
  apply andb_true_iff in Hc as [Hc _]. rewrite Hc. simpl. auto.
Qed.

Lemma all_chars_app p a b :
  all_chars p (a ++ b) = all_chars p a && all_chars p b.
Proof.
  induction a as [|c r IH]; simpl; [reflexivity|].
  rewrite IH. apply andb_assoc.
Qed.

(** The tokens of a command word followed by one more word. *)
Lemma tokenize_two_words cmd tok :
  all_chars wordc cmd = true -> nonempty cmd = true ->
  all_chars wordc tok = true -> nonempty tok = true ->
  tokenize (cmd ++ String " " tok) = ([cmd; tok], [false; false]).
Proof.
  intros Hc Hn Ht Hnt.
  assert (E : token_loop (cmd ++ String " " tok) token_init
              = {| ts_current := tok; ts_args := [cmd]; ts_quotedArgs := [false];
                   ts_inDoubleQuotes := false; ts_inSingleQuotes := false;
                   ts_tokenStartedQuoted := false |}).
  { rewrite (token_loop_command cmd _ Hc Hn).
    match goal with
    | |- token_loop _ ?st = _ =>
        pose proof (token_loop_word tok EmptyString st Ht eq_refl eq_refl) as K
    end.
    rewrite append_empty in K. rewrite K. reflexivity. }
  unfold tokenize. rewrite E. simpl.
  rewrite (nonempty_length tok Hnt). reflexivity.
Qed.

Lemma split_char_none s :
  all_chars flagc s = true -> split_char "=" s = [s].
Proof.
  induction s as [|c r IH]; simpl; [reflexivity|]. intros H.
  apply andb_true_iff in H as [Hc Hr]. unfold flagc in Hc.
  apply andb_true_iff in Hc as [_ Hc]. apply negb_true_iff in Hc.
  rewrite Hc. rewrite IH by assumption. reflexivity.
Qed.

Lemma split_char_first n v :
  all_chars flagc n = true ->
  split_char "=" (n ++ String "=" v) = n :: split_char "=" v.
Proof.
  induction n as [|c r IH]; simpl; [reflexivity|]. intros H.
  apply andb_true_iff in H as [Hc Hr]. unfold flagc in Hc.
  apply andb_true_iff in Hc as [_ Hc]. apply negb_true_iff in Hc.
  rewrite Hc. rewrite IH by assumption. reflexivity.
Qed.

Lemma includes_equals_none s :
  all_chars flagc s = true -> includes_char "=" s = false.
Proof.
  unfold includes_char. induction s as [|c r IH]; [reflexivity|].
  cbn [any_char all_chars].
  intros H. apply andb_true_iff in H as [Hc Hr]. unfold flagc in Hc.
  apply andb_true_iff in Hc as [_ Hc]. apply negb_true_iff in Hc.
  rewrite Ascii.eqb_sym in Hc. rewrite Hc. simpl. auto.
Qed.

Lemma includes_equals_some n v : includes_char "=" (n ++ String "=" v) = true.
Proof.
  unfold includes_char. induction n as [|c r IH]; [reflexivity|].
  change (String c r ++ String "=" v)%string with (String c (r ++ String "=" v)).
  cbn [any_char]. rewrite IH. apply orb_true_r.
Qed.

(** The first assignment to the object literal. *)
Lemma obj_set_empty n x :
  obj_set [] n x = if String.eqb n "__proto__" then [] else [(n, x)].
Proof.
  unfold obj_set. simpl. destruct (String.eqb n "__proto__"); [reflexivity|].
  destruct (array_index n); reflexivity.
Qed.

Lemma set_flag_value n v :
  all_chars flagc n = true -> all_chars flagc v = true ->
  set_flag [] (n ++ String "=" v)
  = if String.eqb n "__proto__" then [] else [(n, VStr v)].
Proof.
  intros Hn Hv. unfold set_flag. rewrite includes_equals_some.
  rewrite split_char_first by assumption. rewrite split_char_none by assumption.
  apply obj_set_empty.
Qed.

Lemma set_flag_bare n :
  all_chars flagc n = true ->
  set_flag [] n = if String.eqb n "__proto__" then [] else [(n, VBool true)].
Proof.
  intros Hn. unfold set_flag. rewrite includes_equals_none by assumption.
  apply obj_set_empty.
Qed.

Lemma not_double_dash n rest :
  nonempty n = true -> no_dash_first n = true ->
  startsWith "--" (String "-" (n ++ rest)) = false.
Proof.
  destruct n as [|c r]; [discriminate|]. intros _ H. simpl in H.
  apply negb_true_iff in H. unfold startsWith.
  change (String c r ++ rest)%string with (String c (r ++ rest)).
  cbn [String.prefix].
  destruct (ascii_dec "-" "-") as [_|N]; [|congruence].
  destruct (ascii_dec "-" c) as [E|E]; [|reflexivity].
  subst. discriminate H.
Qed.

Lemma startsWith_double_dash x : startsWith "--" ("--" ++ x) = true.
Proof. unfold startsWith. destruct x; reflexivity. Qed.

Lemma classify_double_dash x :
  classify ["--" ++ x] [false] [] [] = ([], set_flag [] x).
Proof. unfold classify. rewrite startsWith_double_dash. reflexivity. Qed.

(** X3. Flag tokens. After a command word, [--name=value] sets the flag
    [name] to the string [value], [--name] sets it to [true], and so do
    [-name=value] and [-name]; none of them is an argument. The one name
    that sets nothing is [__proto__]: the assignment to it is ignored and
    the fragment has no flag. *)
Theorem flag_tokens : forall cmd n v,
  all_chars wordc cmd = true -> nonempty cmd = true ->
  all_chars flagc n = true -> all_chars flagc v = true ->
  let flag value := if String.eqb n "__proto__" then [] else [(n, value)] in
  parseCommandFragment (cmd ++ String " " ("--" ++ n ++ String "=" v))
  = {| name := Some cmd; args := []; flags := flag (VStr v) |}
  /\ parseCommandFragment (cmd ++ String " " ("--" ++ n))
     = {| name := Some cmd; args := []; flags := flag (VBool true) |}
  /\ (nonempty n = true -> no_dash_first n = true ->
      parseCommandFragment (cmd ++ String " " ("-" ++ n ++ String "=" v))
      = {| name := Some cmd; args := []; flags := flag (VStr v) |}
      /\ parseCommandFragment (cmd ++ String " " ("-" ++ n))
         = {| name := Some cmd; args := []; flags := flag (VBool true) |}).
Proof.
  intros cmd n v Hc Hcn Hn Hv flag. unfold flag.
  pose proof (flagc_wordc n Hn) as Hnw. pose proof (flagc_wordc v Hv) as Hvw.
  assert (Hnv : all_chars wordc (n ++ String "=" v) = true).
  { rewrite all_chars_app. rewrite Hnw. simpl. exact Hvw. }
  assert (Hnd : no_dash_first n = true -> nonempty n = true ->
                startsWith "--" (String "-" n) = false).
  { intros Hd Hne. rewrite <- (append_empty n) at 1.
    apply not_double_dash; assumption. }
  split; [|split].
  - unfold parseCommandFragment.
    rewrite (tokenize_two_words cmd ("--" ++ n ++ String "=" v) Hc Hcn Hnv eq_refl).
    cbn [tl]. rewrite classify_double_dash.
    rewrite set_flag_value by assumption. reflexivity.
  - unfold parseCommandFragment.
    rewrite (tokenize_two_words cmd ("--" ++ n) Hc Hcn Hnw eq_refl).
    rewrite classify_double_dash.
    rewrite set_flag_bare by assumption. reflexivity.
  - intros Hne Hd. split.
    + unfold parseCommandFragment.
      rewrite (tokenize_two_words cmd ("-" ++ n ++ String "=" v) Hc Hcn Hnv eq_refl).
      unfold classify.
      change ("-" ++ n ++ String "=" v)%string with (String "-" (n ++ String "=" v)).
      rewrite not_double_dash by assumption.
      assert (L : (1 <? String.length (String "-" (n ++ String "=" v))) = true).
      { destruct n; [discriminate|reflexivity]. }
      assert (P : startsWith "-" (String "-" (n ++ String "=" v)) = true).
      { unfold startsWith. cbn [String.prefix].
        destruct (ascii_dec "-" "-") as [_|N]; [|congruence].
        destruct (n ++ String "=" v)%string; reflexivity. }
      rewrite L, P. cbn [andb slice_from].
      rewrite set_flag_value by assumption. reflexivity.
    + unfold parseCommandFragment.
      rewrite (tokenize_two_words cmd ("-" ++ n) Hc Hcn Hnw eq_refl).
      unfold classify.
      change ("-" ++ n)%string with (String "-" n).
      rewrite (Hnd Hd Hne).
      assert (L : (1 <? String.length (String "-" n)) = true).
      { destruct n; [discriminate|reflexivity]. }
      assert (P : startsWith "-" (String "-" n) = true).
      { unfold startsWith. cbn [String.prefix].
        destruct (ascii_dec "-" "-") as [_|N]; [|congruence].
        destruct n; reflexivity. }
      rewrite L, P. cbn [andb slice_from].
      rewrite set_flag_bare by assumption. reflexivity.
Qed.

Lemma flag_tokens_witness :
  parseCommandFragment ("cmd" ++ String " " ("--" ++ "x" ++ String "=" "1"))
  = {| name := Some "cmd"; args := []; flags := [("x", VStr "1")] |}
  /\ parseCommandFragment ("cmd" ++ String " " ("-" ++ "y"))
     = {| name := Some "cmd"; args := []; flags := [("y", VBool true)] |}
  /\ parseCommandFragment ("cmd" ++ String " " ("--" ++ "__proto__" ++ String "=" "1"))
     = {| name := Some "cmd"; args := []; flags := [] |}.
Proof.
  destruct (flag_tokens "cmd" "x" "1" eq_refl eq_refl eq_refl eq_refl) as (H1 & _ & _).
  destruct (flag_tokens "cmd" "y" EmptyString eq_refl eq_refl eq_refl eq_refl) as (_ & _ & H3).
  destruct (flag_tokens "cmd" "__proto__" "1" eq_refl eq_refl eq_refl eq_refl)
    as (H4 & _ & _).
  split; [exact H1|]. split; [exact (proj2 (H3 eq_refl eq_refl))|exact H4].
Defined.

End FlagTokenFacts.

Section EscapeFacts.

Lemma nonempty_middle u c v : nonempty (u ++ String c v) = true.
Proof. destruct u; reflexivity. Qed.

Lemma append_assoc_string (a b c : string) : ((a ++ b) ++ c)%string = (a ++ (b ++ c))%string.
Proof. induction a as [|x r IH]; simpl; [reflexivity|f_equal; assumption]. Qed.

Lemma token_loop_backslash st next rest :
  token_loop (String "\" (String next rest)) st
  = if escapable next then token_loop rest (ts_append st next)
    else token_loop (String next rest) (ts_append st "\").
Proof. reflexivity. Qed.

(** The one token of a text of word characters [w], whatever came
    before it in the token at hand. *)
Lemma token_loop_last_word v st :
  all_chars wordc v = true ->
  ts_inDoubleQuotes st = false -> ts_inSingleQuotes st = false ->
  token_loop v st = ts_extend st v.
Proof.
  intros Hv Hd Hs.
  pose proof (token_loop_word v EmptyString st Hv Hd Hs) as K.
  rewrite append_empty in K. exact K.
Qed.

(** X4. Backslash escapes in an unquoted token: a backslash before a
    space, a quote or a backslash puts that character into the token and
    is dropped itself (so an escaped space does not end the token); before
    any other character, and at the end of the input, the backslash stays
    in the token. *)
Theorem backslash_escapes : forall u v e c,
  all_chars wordc u = true -> all_chars wordc v = true ->
  escapable e = true -> wordc c = true ->
  tokenize (u ++ String "\" (String e v)) = ([u ++ String e v], [false])
  /\ tokenize (u ++ String "\" (String c v))
     = ([u ++ String "\" (String c v)], [false])
  /\ tokenize (u ++ String "\" EmptyString) = ([u ++ String "\" EmptyString], [false]).
Proof.
  intros u v e c Hu Hv He Hc.
  assert (Hne : escapable c = false).
  { unfold wordc, is_dquote, is_squote, is_backslash in Hc.
    repeat (apply andb_true_iff in Hc as [Hc ?]).
    repeat match goal with
           | H : negb _ = true |- _ => apply negb_true_iff in H
           end.
    unfold escapable.
    repeat match goal with
           | H : Ascii.eqb c _ = false |- _ => rewrite H
           end. reflexivity. }
  split; [|split].
  - assert (E : token_loop (u ++ String "\" (String e v)) token_init
                = ts_extend token_init (u ++ String e v)).
    { rewrite (token_loop_word u _ token_init Hu eq_refl eq_refl).
      rewrite token_loop_backslash, He.
      rewrite token_loop_last_word by (assumption || reflexivity).
      rewrite ts_extend_append. unfold ts_extend. simpl.
      try rewrite append_assoc_string. reflexivity. }
    unfold tokenize. rewrite E. unfold ts_extend. simpl.
    rewrite (nonempty_length _ (nonempty_middle u e v)). reflexivity.
  - assert (E : token_loop (u ++ String "\" (String c v)) token_init
                = ts_extend token_init (u ++ String "\" (String c v))).
    { rewrite (token_loop_word u _ token_init Hu eq_refl eq_refl).
      rewrite token_loop_backslash, Hne.
      rewrite (token_loop_last_word (String c v)).
      - rewrite ts_extend_append. unfold ts_extend. simpl.
        try rewrite append_assoc_string. reflexivity.
      - simpl. rewrite Hc. exact Hv.
      - reflexivity.
      - reflexivity. }
    unfold tokenize. rewrite E. unfold ts_extend. simpl.
    rewrite (nonempty_length _ (nonempty_middle u "\" (String c v))). reflexivity.
  - assert (E : token_loop (u ++ String "\" EmptyString) token_init
                = ts_extend token_init (u ++ String "\" EmptyString)).
    { rewrite (token_loop_word u _ token_init Hu eq_refl eq_refl).
      cbn [token_loop]. change (Ascii.eqb "\" "\") with true. cbv iota.
      unfold ts_extend, ts_append, push_char. simpl. reflexivity. }
    unfold tokenize. rewrite E. unfold ts_extend. simpl.
    rewrite (nonempty_length _ (nonempty_middle u "\" EmptyString)). reflexivity.
Qed.

Lemma backslash_escapes_witness :
  tokenize ("a" ++ String "\" (String " " "b")) = (["a" ++ String " " "b"], [false])
  /\ tokenize ("a" ++ String "\" (String "n" "b"))
     = (["a" ++ String "\" (String "n" "b")], [false]).
Proof.
  destruct (backslash_escapes "a" "b" " " "n" eq_refl eq_refl eq_refl eq_refl)
    as (H1 & H2 & _).
  split; [exact H1|exact H2].
Defined.

Lemma token_char_nonempty st c :
  Forall (fun a => nonempty a = true) (ts_args st) ->
  Forall (fun a => nonempty a = true) (ts_args (token_char st c)).
Proof.
  intros H. unfold token_char.
  repeat match goal with
         | |- context [if ?b then _ else _] => destruct b eqn:?
         end; simpl; try assumption.
  apply Forall_app. split; [assumption|]. constructor; [|constructor].
  destruct (ts_current st); [discriminate|reflexivity].
Qed.

Lemma token_loop_nonempty n : forall input st,
  String.length input <= n ->
  Forall (fun a => nonempty a = true) (ts_args st) ->
  Forall (fun a => nonempty a = true) (ts_args (token_loop input st)).
Proof.
  induction n as [|n IH]; intros input st Hl H.
  - destruct input; [assumption|simpl in Hl; lia].
  - destruct input as [|c rest]; [assumption|]. simpl in Hl. cbn [token_loop].
    destruct (Ascii.eqb c "\").
    + destruct rest as [|next rest'].
      * simpl. assumption.
      * destruct (escapable next).
        -- apply IH; [simpl in Hl; lia|assumption].
        -- apply IH; [lia|assumption].
    + apply IH; [lia|]. apply token_char_nonempty. assumption.
Qed.

Lemma classify_subset (P : string -> Prop) rest : forall restQuoted positional flags,
  Forall P rest -> Forall P positional ->
  Forall P (fst (classify rest restQuoted positional flags)).
Proof.
  induction rest as [|token r IH]; intros q positional flags Hr Hp; simpl.
  - assumption.
  - inversion Hr; subst.
    assert (Hp' : Forall P (positional ++ [token])%list).
    { apply Forall_app. split; [assumption|]. constructor; [assumption|constructor]. }
    repeat match goal with
           | |- context [if ?b then _ else _] => destruct b
           end; apply IH; assumption.
Qed.

(** X5. Tokens are never empty: whatever the stage, the name
    [parseCommandFragment] returns, when there is one, and every argument
    are non-empty strings. *)
Theorem fragment_tokens_nonempty : forall input,
  (forall n, name (parseCommandFragment input) = Some n -> nonempty n = true)
  /\ Forall (fun a => nonempty a = true) (args (parseCommandFragment input)).
Proof.
  intros input.
  assert (T : Forall (fun a => nonempty a = true) (fst (tokenize input))).
  { unfold tokenize.
    pose proof (token_loop_nonempty (String.length input) input token_init
                  (le_n _) (Forall_nil _)) as H.
    destruct (0 <? String.length (ts_current (token_loop input token_init))) eqn:E;
      simpl; [|assumption].
    apply Forall_app. split; [assumption|]. constructor; [|constructor].
    destruct (ts_current (token_loop input token_init)); [discriminate|reflexivity]. }
  unfold parseCommandFragment.
  destruct (tokenize input) as [toks quoted0]. simpl in T.
  pose proof (classify_subset (fun a => nonempty a = true)
                match toks with _ :: r => r | [] => [] end
                match quoted0 with _ :: r => r | [] => [] end [] []) as K.
  destruct (classify _ _ [] []) as [positional fl]. simpl in K. simpl.
  split.
  - intros n E. destruct toks as [|c r]; [discriminate|].
    inversion E; subst. inversion T; assumption.
  - apply K; [|constructor]. destruct toks as [|c r]; [constructor|].
    inversion T; assumption.
Qed.

End EscapeFacts.

Section RegistryMore.

Lemma map_get_set_eq (A : Type) (m : list (string * A)) k v :
  map_get (map_set m k v) k = Some v.
Proof.
  induction m as [|[k' v'] r IH]; simpl.
  - rewrite String.eqb_refl. reflexivity.
  - destruct (String.eqb k' k) eqn:E; simpl.
    + rewrite String.eqb_refl. reflexivity.
    + rewrite E. exact IH.
Qed.

Lemma map_get_set_neq (A : Type) (m : list (string * A)) k v k' :
  k <> k' -> map_get (map_set m k v) k' = map_get m k'.
Proof.
  intros Hn. induction m as [|[k0 v0] r IH]; simpl.
  - apply String.eqb_neq in Hn. rewrite Hn. reflexivity.
  - destruct (String.eqb k0 k) eqn:E; simpl.
    + apply String.eqb_eq in E. subst k0.
      apply String.eqb_neq in Hn. rewrite Hn. reflexivity.
    + destruct (String.eqb k0 k'); [reflexivity|exact IH].
Qed.

Lemma includes_app xs ys x : includes (xs ++ ys) x = includes xs x || includes ys x.
Proof. unfold includes. apply existsb_app. Qed.

Lemma includes_concat_snoc R names x :
  includes (List.concat (R ++ [names])) x
  = includes (List.concat R) x || includes names x.
Proof.
  rewrite concat_app, includes_app. simpl. rewrite app_nil_r. reflexivity.
Qed.

Lemma includes_delete names x m :
  includes (names_delete names x) m = includes names m && negb (String.eqb m x).
Proof.
  unfold includes, names_delete. induction names as [|y r IH]; simpl.
  - reflexivity.
  - destruct (String.eqb y x) eqn:E; simpl.
    + rewrite IH. apply String.eqb_eq in E. subst y.
      destruct (String.eqb m x); simpl.
      * rewrite !andb_false_r. reflexivity.
      * rewrite !andb_true_r. reflexivity.
    + rewrite IH. destruct (String.eqb m y) eqn:F; simpl; [|reflexivity].
      apply String.eqb_eq in F. subst y. rewrite E. reflexivity.
Qed.

Lemma includes_concat_delete R x m :
  includes (List.concat (map (fun set => names_delete set x) R)) m
  = includes (List.concat R) m && negb (String.eqb m x).
Proof.
  induction R as [|s r IH]; simpl.
  - reflexivity.
  - rewrite !includes_app, IH, includes_delete.
    destruct (negb (String.eqb m x)).
    + rewrite !andb_true_r. reflexivity.
    + rewrite !andb_false_r. reflexivity.
Qed.

(** X6. A command defined with an alias and then registered by its name
    is found by [getCommand] under both names: under the name with the
    body as given, under the alias with the clone that has lost
    [options.alias] and names the command in [aliasOf], both with the
    same handler. Definitions under other names are not touched. *)
Theorem define_register_lookup : forall w n b f a,
  cmd_enabled (cmd w) = true ->
  o_alias (options b) = Some a -> nonempty a = true -> a <> n ->
  exists w2,
    registerCommand (defineCommand w n b f) n = Ok w2
    /\ fst (getCommand w2 n) = LEntry (Some {| body := b; fn := f |})
    /\ fst (getCommand w2 a)
       = LEntry (Some {| body := alias_clone n b; fn := f |})
    /\ (forall m, m <> n -> m <> a ->
        map_get (commands (cmd w2)) m = map_get (commands (cmd w)) m).
Proof.
  intros w n b f a He Ha Hne Han.
  assert (Hc : commands (cmd (defineCommand w n b f))
               = map_set (map_set (commands (cmd w)) n {| body := b; fn := f |})
                         a {| body := alias_clone n b; fn := f |}).
  { unfold defineCommand. rewrite He, Ha, Hne. simpl. rewrite cmd_record.
    reflexivity. }
  assert (Hen : cmd_enabled (cmd (defineCommand w n b f)) = true).
  { unfold defineCommand. rewrite He, Ha, Hne. simpl. rewrite cmd_record.
    simpl. assumption. }
  assert (Hgn : map_get (commands (cmd (defineCommand w n b f))) n
                = Some {| body := b; fn := f |}).
  { rewrite Hc, map_get_set_neq by assumption. apply map_get_set_eq. }
  assert (Hga : map_get (commands (cmd (defineCommand w n b f))) a
                = Some {| body := alias_clone n b; fn := f |}).
  { rewrite Hc. apply map_get_set_eq. }
  unfold registerCommand. rewrite Hen, registered_has_false, Hgn. simpl.
  unfold alias_of_entry. simpl. rewrite Ha, Hne.
  eexists. split; [reflexivity|].
  assert (Hin : forall x, x = n \/ x = a ->
                includes (names_add (names_add [] n) a) x = true).
  { intros x Hx. apply includes_In. unfold names_add, includes. simpl.
    destruct (String.eqb a n) eqn:E; simpl.
    - apply String.eqb_eq in E. contradiction.
    - destruct Hx as [-> | ->]; auto. }
  unfold getCommand, registered_includes. simpl. rewrite !cmd_record. simpl.
  rewrite Hen. simpl. rewrite !includes_concat_snoc.
  rewrite (Hin n), (Hin a) by auto. rewrite !orb_true_r. simpl.
  rewrite Hgn, Hga. repeat split.
  intros m Hmn Hma. rewrite Hc.
  rewrite !map_get_set_neq by congruence. reflexivity.
Qed.

(** X7. Unregistering a registered command removes its name, and the
    alias in its options if it has one, from every registration; the
    registration of any other name, the number of registrations (emptied
    ones stay) and the definitions are as before. An alias entry has no
    alias of its own, so unregistering by the alias leaves the command's
    own name registered. *)
Theorem unregisterCommand_removes : forall w n e,
  cmd_enabled (cmd w) = true ->
  registered_includes w n = true ->
  map_get (commands (cmd w)) n = Some e ->
  exists w',
    unregisterCommand w n = Ok w'
    /\ fst (getCommand w' n) = LNull
    /\ (forall a, alias_of_entry e = Some a -> fst (getCommand w' a) = LNull)
    /\ (forall m, m <> n -> alias_of_entry e <> Some m ->
        registered_includes w' m = registered_includes w m)
    /\ List.length (registeredCommands (cmd w'))
       = List.length (registeredCommands (cmd w))
    /\ commands (cmd w') = commands (cmd w).
Proof.
  intros w n e He Hr Hg.
  unfold unregisterCommand. rewrite He, Hr, Hg. simpl.
  eexists. split; [reflexivity|].
  unfold getCommand, registered_includes.
  destruct (alias_of_entry e) as [a|]; simpl; rewrite !cmd_record; simpl;
    rewrite He; simpl; rewrite ?length_map, ?includes_concat_delete.
  - rewrite String.eqb_refl. simpl. rewrite !andb_false_r. simpl.
    repeat split.
    + intros a' E. inversion E; subst a'. rewrite !includes_concat_delete.
      rewrite String.eqb_refl. simpl.
      rewrite andb_false_r. reflexivity.
    + intros m Hmn Hma. rewrite !includes_concat_delete.
      assert (String.eqb m n = false) as -> by (apply String.eqb_neq; assumption).
      assert (String.eqb m a = false) as ->
          by (apply String.eqb_neq; congruence).
      rewrite !andb_true_r. reflexivity.
  - rewrite String.eqb_refl. simpl. rewrite !andb_false_r. simpl.
    repeat split.
    + intros a' E. discriminate E.
    + intros m Hmn _. rewrite !includes_concat_delete.
      assert (String.eqb m n = false) as -> by (apply String.eqb_neq; assumption).
      rewrite !andb_true_r. reflexivity.
Qed.

Lemma define_register_lookup_witness :
  exists w2,
    registerCommand
      (defineCommand booted "probe" (command "Probes" (Some "p") false [])
                     (HConst VNull)) "probe" = Ok w2
    /\ fst (getCommand w2 "probe")
       = LEntry (Some {| body := command "Probes" (Some "p") false [];
                         fn := HConst VNull |})
    /\ fst (getCommand w2 "p")
       = LEntry (Some {| body := alias_clone "probe"
                                   (command "Probes" (Some "p") false []);
                         fn := HConst VNull |}).
Proof.
  destruct (define_register_lookup booted "probe"
              (command "Probes" (Some "p") false []) (HConst VNull) "p")
    as (w2 & H1 & H2 & H3 & _).
  - vm_compute. reflexivity.
  - reflexivity.
  - reflexivity.
  - discriminate.
  - exists w2. repeat split; assumption.
Defined.

Lemma unregisterCommand_removes_witness :
  exists w',
    unregisterCommand booted "print" = Ok w'
    /\ fst (getCommand w' "print") = LNull.
Proof.
  edestruct (unregisterCommand_removes booted "print") as (w' & H1 & H2 & _).
  - vm_compute. reflexivity.
  - vm_compute. reflexivity.
  - vm_compute. reflexivity.
  - exists w'. split; assumption.
Defined.

End RegistryMore.

Section VerifyFacts.

Lemma check_positional_sound ps : forall args k,
  check_positional ps args k = None ->
  forall i param, nth_error ps i = Some param ->
    (p_required param = true -> k + i < List.length args)
    /\ (forall opts, p_options param = Some opts ->
        exists a, nth_error args (k + i) = Some a /\ In a opts).
Proof.
  induction ps as [|p0 rest IH]; intros args k H i param Hi.
  - destruct i; discriminate.
  - simpl in H.
    destruct (p_required p0 && (List.length args <=? k)) eqn:Hreq; [discriminate|].
    assert (Hrest : check_positional rest args (S k) = None
                    /\ (forall opts, p_options p0 = Some opts ->
                        option_allowed opts args k = true)).
    { destruct (p_options p0) as [opts|].
      - destruct (option_allowed opts args k) eqn:Ho; simpl in H; [|discriminate].
        split; [assumption|]. intros o E. inversion E; subst. assumption.
      - split; [assumption|]. intros o E. discriminate. }
    destruct Hrest as [Hrest Hopt].
    destruct i as [|i].
    + simpl in Hi. inversion Hi; subst p0. rewrite Nat.add_0_r. split.
      * intros Hr. rewrite Hr in Hreq. simpl in Hreq.
        apply Nat.leb_gt in Hreq. assumption.
      * intros opts Ho. specialize (Hopt opts Ho). unfold option_allowed in Hopt.
        destruct (nth_error args k) as [a|]; [|discriminate].
        exists a. split; [reflexivity|]. apply includes_In. assumption.
    + simpl in Hi. replace (k + S i) with (S k + i) by lia.
      apply (IH args (S k) Hrest i param Hi).
Qed.

Lemma obj_absent_false o k : obj_absent o k = false <-> reads_defined o k.
Proof.
  unfold obj_absent, reads_defined. destruct (own_key o k) eqn:Ho.
  - split.
    + intros H. left. intros E. rewrite E in H. discriminate.
    + intros [H|[H _]]; [|discriminate].
      destruct (obj_get o k); try reflexivity. contradiction.
  - split.
    + intros H. right. split; [reflexivity|].
      apply negb_false_iff. assumption.
    + intros [H|[_ H]].
      * apply obj_get_own in H. congruence.
      * rewrite H. reflexivity.
Qed.

Lemma check_required_flags_sound fs flags :
  check_required_flags fs flags = None ->
  forall param, In param fs -> p_required param = true ->
    reads_defined flags (p_name param)
    \/ reads_defined flags (key_text (p_short param)).
Proof.
  induction fs as [|p0 rest IH]; intros H param Hin Hr.
  - destruct Hin.
  - simpl in H.
    destruct (p_required p0 && obj_absent flags (p_name p0)
              && obj_absent flags (key_text (p_short p0))) eqn:E;
      [discriminate|].
    destruct Hin as [<-|Hin]; [|apply IH; assumption].
    rewrite Hr in E. simpl in E.
    apply andb_false_iff in E.
    destruct E as [E|E]; [left|right]; apply obj_absent_false; assumption.
Qed.

Lemma coerced_value_idempotent v : coerced_value (coerced_value v) = coerced_value v.
Proof.
  unfold coerced_value, coerce. destruct v; try reflexivity.
  destruct (any_char is_digit s) eqn:E; simpl; [reflexivity|].
  rewrite E. reflexivity.
Qed.

Lemma coerce_coerced_value v : fst (coerce (coerced_value v)) = fst (coerce v).
Proof.
  unfold coerced_value, coerce. destruct v; try reflexivity.
  destruct (any_char is_digit s) eqn:E; simpl; [reflexivity|].
  rewrite E. reflexivity.
Qed.

(** The flags object after the coercion step for the key [k0]. *)
Lemma coerce_step_get flags k0 k :
  obj_get (match snd (coerce (obj_get flags k0)) with
           | Some value => obj_set flags k0 value
           | None => flags
           end) k
  = if String.eqb k0 k then coerced_value (obj_get flags k0) else obj_get flags k.
Proof.
  unfold coerced_value.
  destruct (snd (coerce (obj_get flags k0))) as [value|] eqn:Hc.
  - apply obj_get_set. left. apply obj_get_own.
    intros E. rewrite E in Hc. discriminate Hc.
  - destruct (String.eqb k0 k) eqn:E; [|reflexivity].
    apply String.eqb_eq in E. subst. reflexivity.
Qed.

Lemma check_flags_sound keys : forall fs n flags w fl w',
  check_flags keys fs n flags w = (None, fl, w') ->
  forall k,
    (In k keys -> forall def, find (names_flag k) fs = Some def ->
       flag_checked def (obj_get flags k)
       /\ obj_get fl k = coerced_value (obj_get flags k))
    /\ (~ In k keys \/ find (names_flag k) fs = None ->
        obj_get fl k = obj_get flags k).
Proof.
  induction keys as [|k0 rest IH]; intros fs n flags w fl w' H k.
  - simpl in H. inversion H; subst. split; [intros []|reflexivity].
  - simpl in H. destruct (find (names_flag k0) fs) as [d0|] eqn:F0.
    + destruct (p_datatype d0) as [t0|] eqn:Ht; [|discriminate].
      destruct (coerce (obj_get flags k0)) as [actual assigned] eqn:Hc.
      destruct (negb (String.eqb t0 actual)) eqn:Hty; [discriminate|].
      destruct (truthy (p_default d0)
                && negb (String.eqb (typeof (p_default d0)) t0)) eqn:Hd;
        [discriminate|].
      apply negb_false_iff, String.eqb_eq in Hty. subst actual.
      assert (G : forall k',
                 obj_get (match assigned with
                          | Some value => obj_set flags k0 value
                          | None => flags
                          end) k'
                 = if String.eqb k0 k' then coerced_value (obj_get flags k0)
                   else obj_get flags k').
      { intros k'. pose proof (coerce_step_get flags k0 k') as G.
        rewrite Hc in G. exact G. }
      assert (C0 : flag_checked d0 (obj_get flags k0)).
      { unfold flag_checked. rewrite Hc. simpl. split; [assumption|].
        intros Htr. rewrite Htr in Hd. simpl in Hd.
        apply negb_false_iff, String.eqb_eq in Hd. assumption. }
      specialize (IH fs n _ w fl w' H k). destruct IH as [IH1 IH2].
      rewrite G in IH1, IH2.
      destruct (String.eqb k0 k) eqn:E.
      * apply String.eqb_eq in E. subst k0. split.
        -- intros _ def Hf. rewrite F0 in Hf. inversion Hf; subst def.
           split; [assumption|].
           destruct (in_dec string_dec k rest) as [Hin|Hnin].
           ++ destruct (IH1 Hin d0 F0) as [_ Hv].
              rewrite Hv. apply coerced_value_idempotent.
           ++ apply IH2. left. assumption.
        -- intros [Hn|Hn]; [exfalso; apply Hn; left; reflexivity|].
           rewrite F0 in Hn. discriminate.
      * apply String.eqb_neq in E. split.
        -- intros [Hk|Hk] def Hf; [contradiction|]. apply IH1; assumption.
        -- intros [Hn|Hn]; apply IH2; [left|right; assumption].
           intros Hin. apply Hn. right. assumption.
    + specialize (IH fs n flags w fl w' H k). destruct IH as [IH1 IH2]. split.
      * intros [Hk|Hk] def Hf.
        -- subst k0. rewrite F0 in Hf. discriminate.
        -- apply IH1; assumption.
      * intros [Hn|Hn]; apply IH2; [left|right; assumption].
        intros Hin. apply Hn. right. assumption.
Qed.

Lemma verify_valid_inv w nm args flags fl fl' w' :
  verify w (Some nm) args flags = (Some (Valid fl), fl', w') ->
  exists e,
    map_get (commands (cmd w)) nm = Some e
    /\ check_positional (filter is_positional (schema (body e))) args 0 = None
    /\ check_required_flags (filter is_flag (schema (body e))) flags = None
    /\ check_flags (obj_keys flags) (filter is_flag (schema (body e))) nm flags
         (record w ("CommandService_verify " ++ nm)) = (None, fl, w')
    /\ fl' = fl.
Proof.
  unfold verify. destruct (negb (cmd_enabled (cmd w))); [discriminate|].
  simpl. destruct (map_get (commands (cmd w)) nm) as [e|]; [|discriminate].
  destruct (check_positional _ args 0) eqn:Hp; [discriminate|].
  destruct (check_required_flags _ flags) eqn:Hr; [discriminate|].
  destruct (check_flags _ _ nm flags _) as [[err fl0] w0] eqn:Hf.
  destruct err; [discriminate|]. intros E. inversion E; subst.
  exists e. repeat split; assumption.
Qed.

(** X8. What a valid verification guarantees about the arguments: the
    command is defined; every required positional parameter has an
    argument at its position; every positional parameter with allowed
    values, required or not, has an argument at its position and it is
    one of them; every required flag reads as something under its long
    or its short name: it was supplied there with a value, or that name
    is one every object inherits (such as [toString]), for which the
    check never fails. *)
Theorem verify_valid_arguments : forall w nm args flags fl fl' w',
  verify w (Some nm) args flags = (Some (Valid fl), fl', w') ->
  exists e,
    map_get (commands (cmd w)) nm = Some e
    /\ (forall i param,
          nth_error (filter is_positional (schema (body e))) i = Some param ->
          (p_required param = true -> i < List.length args)
          /\ (forall opts, p_options param = Some opts ->
              exists a, nth_error args i = Some a /\ In a opts))
    /\ (forall param,
          In param (filter is_flag (schema (body e))) ->
          p_required param = true ->
          reads_defined flags (p_name param)
          \/ reads_defined flags (key_text (p_short param))).
Proof.
  intros w nm args flags fl fl' w' H.
  destruct (verify_valid_inv _ _ _ _ _ _ _ H) as (e & Hg & Hp & Hr & _ & _).
  exists e. split; [assumption|]. split.
  - intros i param Hi.
    exact (check_positional_sound _ args 0 Hp i param Hi).
  - exact (check_required_flags_sound _ flags Hr).
Qed.

(** X9. What a valid verification guarantees about the flags: for every
    flag supplied that the schema knows, by long or short name, the
    declared datatype is the type the value was checked with - "number"
    for a number and for every string with a digit in it, otherwise the
    [typeof] of the value - a truthy default has that type too, and the
    value returned is the number read from such a string or else the
    value supplied. So a flag declared "string" is never valid with a
    digit in its value. A flag the schema does not know is returned as
    supplied. *)
Theorem verify_valid_flags : forall w nm args flags fl fl' w',
  verify w (Some nm) args flags = (Some (Valid fl), fl', w') ->
  exists e,
    map_get (commands (cmd w)) nm = Some e
    /\ fl' = fl
    /\ (forall k def,
          In k (obj_keys flags) ->
          find (names_flag k) (filter is_flag (schema (body e))) = Some def ->
          flag_checked def (obj_get flags k)
          /\ obj_get fl k = coerced_value (obj_get flags k))
    /\ (forall k,
          find (names_flag k) (filter is_flag (schema (body e))) = None ->
          obj_get fl k = obj_get flags k).
Proof.
  intros w nm args flags fl fl' w' H.
  destruct (verify_valid_inv _ _ _ _ _ _ _ H) as (e & Hg & _ & _ & Hf & Hfl).
  exists e. split; [assumption|]. split; [assumption|]. split.
  - intros k def Hin Hd.
    exact (proj1 (check_flags_sound _ _ _ _ _ _ _ Hf k) Hin def Hd).
  - intros k Hn.
    exact (proj2 (check_flags_sound _ _ _ _ _ _ _ Hf k) (or_intror Hn)).
Qed.

(** A required flag named as a member of [Object.prototype] never
    counts as missing: the command [rep] with a required flag [toString]
    is valid without any flag. *)
Lemma verify_inherited_flag_name :
  let w := defineCommand booted "rep"
             (command "Repeats" None false [flag "toString" None true "string"])
             (HConst VUndefined) in
  fst (fst (verify w (Some "rep") [] [])) = Some (Valid []).
Proof. vm_compute. reflexivity. Qed.

Lemma verify_valid_arguments_witness :
  exists e,
    map_get (commands (cmd booted)) "service" = Some e
    /\ (forall i param,
          nth_error (filter is_positional (schema (body e))) i = Some param ->
          (p_required param = true -> i < List.length ["logs"])
          /\ (forall opts, p_options param = Some opts ->
              exists a, nth_error ["logs"] i = Some a /\ In a opts)).
Proof.
  edestruct (verify_valid_arguments booted "service" ["logs"]
               [("c", VBool true)]) as (e & H1 & H2 & _).
  - vm_compute. reflexivity.
  - exists e. split; assumption.
Defined.

Lemma verify_valid_flags_witness :
  exists e fl,
    map_get (commands (cmd booted)) "service" = Some e
    /\ (forall k def,
          In k (obj_keys [("c", VBool true)]) ->
          find (names_flag k) (filter is_flag (schema (body e))) = Some def ->
          flag_checked def (obj_get [("c", VBool true)] k)
          /\ obj_get fl k = coerced_value (obj_get [("c", VBool true)] k)).
Proof.
  edestruct (verify_valid_flags booted "service" ["logs"]
               [("c", VBool true)]) as (e & H1 & _ & H2 & _).
  - vm_compute. reflexivity.
  - exists e. eexists. split; [exact H1|exact H2].
Defined.

End VerifyFacts.

(** ** What running a fragment does to its flags *)

Section FragmentFlags.





End FragmentFlags.

Section GateFacts.

Variable timestamp : Z -> string.
Variable extern : handler -> params -> world -> res jsval * world.

(** What [unregisterCommand], called in passing, leaves alone, and that
    it only ever removes registrations. *)
Lemma unregister_defined_frame w n :
  let w' := unregister_defined w n in
  exec w' = exec w /\ out w' = out w /\ elem w' = elem w
  /\ savior w' = savior w
  /\ commands (cmd w') = commands (cmd w)
  /\ cmd_enabled (cmd w') = cmd_enabled (cmd w)
  /\ (forall m, registered_includes w' m = true -> registered_includes w m = true).
Proof.
  unfold unregister_defined, unregisterCommand.
  destruct (negb (cmd_enabled (cmd w))); [simpl; tauto|].
  destruct (negb (registered_includes w n)); [simpl; tauto|].
  destruct (map_get (commands (cmd w)) n) as [e|]; [|simpl; tauto].
  unfold registered_includes.
  destruct (alias_of_entry e) as [a|]; simpl;
    rewrite ?exec_record, ?out_record, ?elem_record, ?savior_record, ?cmd_record;
    repeat split; intros m; rewrite ?includes_concat_delete;
    intros H; repeat (apply andb_true_iff in H as [H _]); exact H.
Qed.

Lemma check_flags_frame keys : forall fs n flags w,
  let w' := snd (check_flags keys fs n flags w) in
  exec w' = exec w /\ out w' = out w /\ elem w' = elem w
  /\ savior w' = savior w
  /\ commands (cmd w') = commands (cmd w)
  /\ cmd_enabled (cmd w') = cmd_enabled (cmd w)
  /\ (forall m, registered_includes w' m = true -> registered_includes w m = true).
Proof.
  induction keys as [|k0 rest IH]; intros fs n flags w; simpl.
  - tauto.
  - destruct (find (names_flag k0) fs) as [d0|]; [|apply IH].
    destruct (p_datatype d0) as [t0|]; [|apply unregister_defined_frame].
    destruct (coerce (obj_get flags k0)) as [actual assigned].
    destruct (negb (String.eqb t0 actual)); [simpl; tauto|].
    destruct (truthy (p_default d0)
              && negb (String.eqb (typeof (p_default d0)) t0));
      [apply unregister_defined_frame|apply IH].
Qed.

Lemma registered_record w a m :
  registered_includes (record w a) m = registered_includes w m.
Proof. unfold registered_includes. rewrite cmd_record. reflexivity. Qed.

Lemma verify_frame w n args flags :
  let w' := snd (verify w n args flags) in
  exec w' = exec w /\ out w' = out w /\ elem w' = elem w
  /\ savior w' = savior w
  /\ commands (cmd w') = commands (cmd w)
  /\ cmd_enabled (cmd w') = cmd_enabled (cmd w)
  /\ (forall m, registered_includes w' m = true -> registered_includes w m = true).
Proof.
  assert (R : let w' := record w ("CommandService_verify " ++ name_text n) in
              exec w' = exec w /\ out w' = out w /\ elem w' = elem w
              /\ savior w' = savior w
              /\ commands (cmd w') = commands (cmd w)
              /\ cmd_enabled (cmd w') = cmd_enabled (cmd w)
              /\ (forall m, registered_includes w' m = true
                            -> registered_includes w m = true)).
  { simpl. rewrite exec_record, out_record, elem_record, savior_record, cmd_record.
    repeat split. intros m. rewrite registered_record. tauto. }
  unfold verify. destruct (negb (cmd_enabled (cmd w))); [simpl; tauto|].
  destruct n as [nm|]; [|exact R].
  destruct (map_get (commands (cmd w)) nm) as [e|]; [|exact R].
  destruct (check_positional _ args 0); [exact R|].
  destruct (check_required_flags _ flags); [exact R|].
  pose proof (check_flags_frame (obj_keys flags) (filter is_flag (schema (body e)))
                nm flags (record w ("CommandService_verify " ++ name_text (Some nm))))
    as F.
  simpl in F, R.
  destruct (check_flags _ _ nm flags _) as [[err fl0] w0]. simpl in F.
  destruct R as (R1 & R2 & R3 & R4 & R5 & R6 & R7).
  destruct F as (F1 & F2 & F3 & F4 & F5 & F6 & F7).
  assert (G : exec w0 = exec w /\ out w0 = out w /\ elem w0 = elem w
              /\ savior w0 = savior w
              /\ commands (cmd w0) = commands (cmd w)
              /\ cmd_enabled (cmd w0) = cmd_enabled (cmd w)
              /\ (forall m, registered_includes w0 m = true
                            -> registered_includes w m = true)).
  { repeat split; try congruence. intros m Hm. apply R7, F7, Hm. }
  destruct err; exact G.
Qed.

(** [runSingle] stops at the registration check. *)
Lemma runSingle_gate : forall f signal pipe w,
  cmd_enabled (cmd w) = true ->
  signal_aborted w signal = false ->
  (forall nm, name f = Some nm -> registered_includes w nm = false) ->
  exists f' w',
    runSingle timestamp extern f signal pipe w
    = (Throw (OSError ("Unknown command: " ++ quoted (name_text (name f)))),
       f', w')
    /\ elem w' = elem w /\ out w' = out w /\ exec w' = exec w
    /\ (forall m, registered_includes w' m = true -> registered_includes w m = true).
Proof.
  intros f signal pipe w He Hs Hn.
  pose proof (verify_frame w (name f) (args f) (flags f)) as F.
  assert (Hv : fst (fst (verify w (name f) (args f) (flags f))) <> None).
  { unfold verify. rewrite He. simpl.
    destruct (name f) as [nm|]; [|discriminate].
    destruct (map_get (commands (cmd w)) nm) as [e|]; [|discriminate].
    destruct (check_positional _ _ 0); [discriminate|].
    destruct (check_required_flags _ _); [discriminate|].
    destruct (check_flags _ _ nm _ _) as [[err fl0] w0].
    destruct err; discriminate. }
  unfold runSingle.
  destruct (verify w (name f) (args f) (flags f)) as [[v fl] w1].
  simpl in F, Hv. destruct F as (F1 & F2 & F3 & F4 & F5 & F6 & F7).
  destruct v as [v|]; [|contradiction].
  unfold signal_aborted in *. rewrite F1, Hs.
  assert (Hr : match name f with
               | Some nm => registered_includes w1 nm
               | None => false
               end = false).
  { destruct (name f) as [nm|]; [|reflexivity].
    destruct (registered_includes w1 nm) eqn:E; [|reflexivity].
    apply F7 in E. rewrite (Hn nm eq_refl) in E. discriminate. }
  rewrite Hr. simpl.
  eexists. eexists. split; [reflexivity|]. repeat split; assumption.
Qed.

(** X10. A command that is not registered does not run, defined or not:
    with the command service enabled and the signal not aborted,
    [runSingle] of a fragment whose name is in no registration (or that
    has no name) throws the error [Unknown command: "<name>"] - also
    where the verification failed for another reason - and no handler is
    called: the screen, the output buffer and the queue are as before and
    no registration has appeared. *)
Theorem runSingle_unregistered : forall f signal pipe w,
  cmd_enabled (cmd w) = true ->
  signal_aborted w signal = false ->
  (forall nm, name f = Some nm -> registered_includes w nm = false) ->
  exists f' w',
    runSingle timestamp extern f signal pipe w
    = (Throw (OSError ("Unknown command: " ++ quoted (name_text (name f)))),
       f', w')
    /\ elem w' = elem w /\ out w' = out w /\ exec w' = exec w
    /\ (forall m, registered_includes w' m = true -> registered_includes w m = true).
Proof. exact runSingle_gate. Qed.

Lemma obj_get_app_congr (L A B : jsobj) k :
  obj_get A k = obj_get B k -> obj_get (L ++ A)%list k = obj_get (L ++ B)%list k.
Proof.
  intros H. induction L as [|[k0 v0] r IH]; simpl; [assumption|].
  destruct (String.eqb k0 k); [reflexivity|assumption].
Qed.

Lemma normalize_fold fs flags k : forall acc,
  k <> "__proto__" ->
  obj_get (fold_left
             (fun normalizedFlags (kv : string * jsval) =>
                match find (fun s => match p_short s with
                                     | Some sh => String.eqb sh (fst kv)
                                     | None => false
                                     end) fs with
                | Some flagDef => obj_set normalizedFlags (p_name flagDef) (snd kv)
                | None => obj_set normalizedFlags (fst kv) (snd kv)
                end) flags acc) k
  = obj_get (rev (map (fun kv => (long_name fs (fst kv), snd kv)) flags) ++ acc)%list k.
Proof.
  intros acc Hk. revert acc.
  induction flags as [|[k0 v0] r IH]; intros acc; simpl.
  - reflexivity.
  - rewrite IH. rewrite <- app_assoc. simpl.
    apply obj_get_app_congr. unfold long_name. simpl.
    destruct (find _ fs) as [d|]; rewrite obj_get_set_other by assumption;
      simpl; reflexivity.
Qed.

Lemma normalize_no_proto fs flags : forall acc,
  own_key (fold_left
             (fun normalizedFlags (kv : string * jsval) =>
                match find (fun s => match p_short s with
                                     | Some sh => String.eqb sh (fst kv)
                                     | None => false
                                     end) fs with
                | Some flagDef => obj_set normalizedFlags (p_name flagDef) (snd kv)
                | None => obj_set normalizedFlags (fst kv) (snd kv)
                end) flags acc) "__proto__"
  = own_key acc "__proto__".
Proof.
  induction flags as [|[k0 v0] r IH]; intros acc; simpl.
  - reflexivity.
  - rewrite IH. destruct (find _ fs) as [d|]; apply own_key_set_proto.
Qed.

(** X11. The flags a handler receives: [runSingle] goes through the
    flags of the fragment in the order of [Object.entries] - the names
    that are array indices first, in ascending order, then the others in
    the order in which they were supplied - and files each under its
    long name: a key that is the short name of a schema flag under that
    flag's name, any other key under itself. Where several flags come
    under one name, the one that is later in that order wins. Nothing is
    filed under [__proto__]. *)
Theorem normalize_flags_last_wins : forall fs flags k,
  (k <> "__proto__" ->
   obj_get (normalize_flags fs flags) k
   = obj_get (rev (map (fun kv => (long_name fs (fst kv), snd kv)) flags)) k)
  /\ own_key (normalize_flags fs flags) "__proto__" = false.
Proof.
  intros fs flags k. unfold normalize_flags. split.
  - intros Hk. rewrite normalize_fold by assumption.
    rewrite app_nil_r. reflexivity.
  - rewrite normalize_no_proto. reflexivity.
Qed.

Lemma normalize_flags_last_wins_witness :
  let fs := [flag "1" (Some "a") false "string"] in
  let f := parseCommandFragment "cmd -a=x --1=y" in
  flags f = [("1", VStr "y"); ("a", VStr "x")]
  /\ obj_get (normalize_flags fs (flags f)) "1" = VStr "x".
Proof.
  intros fs f. split; [vm_compute; reflexivity|].
  destruct (normalize_flags_last_wins fs (flags f) "1") as [H _].
  rewrite H; [vm_compute; reflexivity|discriminate].
Defined.



Lemma unregister_defined_removes w n e :
  cmd_enabled (cmd w) = true ->
  map_get (commands (cmd w)) n = Some e ->
  registered_includes (unregister_defined w n) n = false.
Proof.
  intros He Hg. unfold unregister_defined, unregisterCommand. rewrite He. simpl.
  destruct (registered_includes w n) eqn:Hr; simpl; [|assumption].
  rewrite Hg. unfold registered_includes.
  destruct (alias_of_entry e) as [a|]; simpl; rewrite ?cmd_record;
    rewrite !includes_concat_delete, String.eqb_refl; simpl;
    rewrite ?andb_false_r; reflexivity.
Qed.




End GateFacts.

Lemma runSingle_unregistered_witness :
  exists f' w',
    runSingle no_timestamp no_extern (parseCommandFragment "toggle on x") 0 VNull
              toggle_defined
    = (Throw (OSError ("Unknown command: " ++ quoted "toggle")), f', w').
Proof.
  destruct (runSingle_unregistered no_timestamp no_extern
              (parseCommandFragment "toggle on x") 0 VNull toggle_defined)
    as (f' & w' & H & _).
  - reflexivity.
  - reflexivity.
  - intros nm E. vm_compute in E. inversion E; subst. reflexivity.
  - exists f', w'. exact H.
Defined.

Section OutputFacts.

Lemma elem_present w line : elem (present w line) = (elem w ++ presented line)%list.
Proof.
  unfold present, presented, os_line, os_error, os_savior, os_htmlLine, append_elem.
  destruct (is_str (type_field line) "line"); [reflexivity|].
  destruct (is_str (type_field line) "error"); [reflexivity|].
  destruct (is_str (type_field line) "savior"); [reflexivity|].
  destruct (is_str (type_field line) "html"); [reflexivity|].
  simpl. rewrite app_nil_r. reflexivity.
Qed.

Lemma elem_fold_present ls : forall w,
  elem (fold_left present ls w) = (elem w ++ flat_map presented ls)%list.
Proof.
  induction ls as [|l r IH]; intros w; simpl.
  - rewrite app_nil_r. reflexivity.
  - rewrite IH, elem_present, <- app_assoc. reflexivity.
Qed.

Lemma out_present w line : out (present w line) = out w.
Proof.
  unfold present, os_line, os_error, os_savior, os_htmlLine, append_elem.
  repeat match goal with
         | |- context [if ?b then _ else _] => destruct b
         end; reflexivity.
Qed.

Lemma out_fold_present ls : forall w, out (fold_left present ls w) = out w.
Proof.
  induction ls as [|l r IH]; intros w; simpl; [reflexivity|].
  rewrite IH. apply out_present.
Qed.

Lemma elem_out_add w l : elem (out_add w l) = elem w.
Proof.
  unfold out_add. destruct (negb (out_enabled (out w))); [reflexivity|].
  simpl. apply elem_record.
Qed.

Lemma out_fold_add ls : forall w,
  out_enabled (out w) = true ->
  let w' := fold_left out_add ls w in
  out_enabled (out w') = true
  /\ buffer (out w') = (buffer (out w) ++ ls)%list
  /\ elem w' = elem w.
Proof.
  induction ls as [|l r IH]; intros w He; simpl.
  - rewrite app_nil_r. auto.
  - assert (He' : out_enabled (out (out_add w l)) = true)
      by (rewrite out_enabled_out_add; assumption).
    destruct (IH (out_add w l) He') as (A & B & C).
    split; [assumption|]. split.
    + rewrite B. unfold out_add. rewrite He. simpl. rewrite out_record.
      rewrite <- app_assoc. reflexivity.
    + rewrite C. apply elem_out_add.
Qed.

Lemma present_all_ok ls : forall w,
  out_os (out w) = true ->
  forallb (fun l => negb (nullish l)) ls = true ->
  present_all ls w = (Ok tt, fold_left present ls w).
Proof.
  induction ls as [|l r IH]; intros w Ho Hn; simpl; [reflexivity|].
  simpl in Hn. apply andb_true_iff in Hn as [Hl Hr].
  unfold present_throws. rewrite Ho. apply negb_true_iff in Hl. rewrite Hl. simpl.
  apply IH; [rewrite out_present; assumption|assumption].
Qed.

Lemma out_os_fold_add ls : forall w, out_os (out (fold_left out_add ls w)) = out_os (out w).
Proof.
  induction ls as [|l r IH]; intros w; simpl; [reflexivity|].
  rewrite IH. unfold out_add. destruct (negb (out_enabled (out w))); [reflexivity|].
  simpl. rewrite out_record. reflexivity.
Qed.

(** X13. Adding lines and flushing, with the output service enabled
    and initialised: [flush] returns without throwing and puts on the
    screen, after what is there, what was in the buffer followed by the
    lines added since, in that order, each shown by the presenter of its
    type - a line of no known type is skipped - and leaves the buffer
    empty. No line is [null] or [undefined] here, whose type cannot be
    read. *)
Theorem flush_presents_in_order : forall w ls,
  out_enabled (out w) = true ->
  out_os (out w) = true ->
  forallb (fun l => negb (nullish l)) (buffer (out w) ++ ls) = true ->
  let r := out_flush (fold_left out_add ls w) in
  let w' := snd r in
  fst r = Ok tt
  /\ elem w' = (elem w ++ flat_map presented (buffer (out w) ++ ls))%list
  /\ buffer (out w') = []
  /\ out_isEmpty w' = true.
Proof.
  intros w ls He Ho Hn.
  destruct (out_fold_add ls w He) as (A & B & C).
  unfold out_isEmpty, out_flush. rewrite A. simpl.
  rewrite present_all_ok
    by (rewrite ?out_os_fold_add, ?B; assumption).
  simpl.
  rewrite elem_record, out_record, out_fold_present, A, elem_fold_present, B, C.
  simpl. repeat split.
Qed.

Lemma flush_presents_in_order_witness :
  elem (snd (out_flush (fold_left out_add
                          [mk_line "line" "a" EmptyString; VObj []; mk_error "b"] booted)))
  = (elem booted
     ++ flat_map presented
          (buffer (out booted)
           ++ [mk_line "line" "a" EmptyString; VObj []; mk_error "b"]))%list.
Proof.
  destruct (flush_presents_in_order booted
              [mk_line "line" "a" EmptyString; VObj []; mk_error "b"]) as (_ & H & _).
  - vm_compute. reflexivity.
  - vm_compute. reflexivity.
  - vm_compute. reflexivity.
  - exact H.
Defined.

End OutputFacts.

Section PromiseFacts.

Lemma promise_inv_world0 : promise_inv (exec world0).
Proof.
  constructor; simpl; try tauto; try constructor.
Qed.

Lemma in_dropped_items t (q : list queue_item) h :
  In (Dropped t) (map (fun i => Dropped (q_ticket i)) q ++ h)%list
  <-> In t (tickets_of q) \/ In (Dropped t) h.
Proof.
  rewrite in_app_iff. unfold tickets_of. rewrite !in_map_iff. split.
  - intros [(i & E & Hi)|H]; [|auto]. inversion E; subst. left. eauto.
  - intros [(i & E & Hi)|H]; [|auto]. left. exists i. subst. auto.
Qed.

Lemma in_other_items (ev : history_event) (q : list queue_item) h :
  (forall t, ev <> Dropped t) ->
  In ev (map (fun i => Dropped (q_ticket i)) q ++ h)%list <-> In ev h.
Proof.
  intros Hn. rewrite in_app_iff, in_map_iff. split.
  - intros [(i & E & Hi)|H]; [|auto]. exfalso. eapply Hn. symmetry. exact E.
  - auto.
Qed.

Lemma started_ok_dropped (q : list queue_item) : forall h,
  started_ok h -> started_ok (map (fun i => Dropped (q_ticket i)) q ++ h)%list.
Proof.
  induction q as [|i r IH]; intros h H; simpl; [assumption|].
  split; [apply IH; assumption|exact I].
Qed.

Lemma ended_ok_dropped (q : list queue_item) : forall h,
  ended_ok h -> ended_ok (map (fun i => Dropped (q_ticket i)) q ++ h)%list.
Proof.
  induction q as [|i r IH]; intros h H; simpl; [assumption|].
  split; [apply IH; assumption|exact I].
Qed.

(** An event at the head of a history is the one looked for, or the one
    looked for is further down. *)
Ltac head_event :=
  repeat match goal with
         | H : In _ (_ :: _) |- _ => simpl in H
         | H : _ \/ _ |- _ => destruct H as [H|H]
         | H : @eq history_event _ _ |- _ =>
             first [discriminate H | inversion H; subst; clear H]
         end.

(** Emptying the queue, as [interrupt] and [init] do. *)
Lemma drop_queue_pi e e' :
  promise_inv e ->
  queue e' = [] ->
  history e' = (map (fun i => Dropped (q_ticket i)) (queue e) ++ history e)%list ->
  inflight e' = inflight e -> next_ticket e' = next_ticket e ->
  resolved e' = resolved e -> rejected e' = rejected e ->
  promise_inv e'.
Proof.
  intros [H1 H2 H4 H5 H6 H7 H8 H9 HR HE HO HX] Eq Eh Ei En Er Ej.
  constructor; rewrite ?Eq, ?Eh, ?Ei, ?En, ?Er, ?Ej; simpl; try assumption.
  - constructor.
  - intros t [].
  - intros t Ht. destruct (H6 t Ht) as (A & B & C & D & E & F).
    rewrite in_dropped_items. rewrite !in_other_items by discriminate. tauto.
  - intros t Ht. apply in_dropped_items in Ht.
    rewrite !in_other_items by discriminate.
    destruct Ht as [Ht|Ht].
    + destruct (H5 t Ht) as (A & B & C & D & E). tauto.
    + apply H7. assumption.
  - intros t Ht. rewrite !in_other_items in Ht by discriminate. auto.
  - apply started_ok_dropped. assumption.
  - intros t. rewrite in_other_items by discriminate. apply HR.
  - apply ended_ok_dropped. assumption.
  - intros t. rewrite !in_other_items by discriminate. apply HO.
  - intros t. rewrite !in_other_items by discriminate. apply HX.
Qed.

Lemma exec_init_pi w : promise_inv (exec w) -> promise_inv (exec (exec_init w)).
Proof.
  intros H. unfold exec_init. destruct (exec_os (exec w)); [assumption|].
  rewrite exec_record. simpl.
  eapply drop_queue_pi; [exact H|..]; reflexivity.
Qed.

Lemma abort_pi w c : promise_inv (exec w) -> promise_inv (exec (abort w c)).
Proof. intros [H1 H2 H4 H5 H6 H7 H8 H9 HR HE HO HX]. constructor; assumption. Qed.

Lemma interrupt_pi w err : promise_inv (exec w) -> promise_inv (exec (interrupt w err)).
Proof.
  intros H. unfold interrupt.
  destruct (negb (exec_enabled (exec w))); [assumption|].
  destruct (negb (exec_os (exec w))); [assumption|].
  match goal with
  | |- promise_inv (exec (match ?s with Some c => abort ?x c | None => _ end)) =>
      assert (K : promise_inv (exec x)); [|destruct s; [apply abort_pi|]; exact K]
  end.
  rewrite exec_record. simpl.
  eapply drop_queue_pi; [exact H|..]; reflexivity.
Qed.

Lemma runNext_pi w : promise_inv (exec w) -> promise_inv (exec (runNext w)).
Proof.
  intros H. unfold runNext.
  destruct (negb (exec_enabled (exec w))); [assumption|].
  destruct (negb (exec_os (exec w))); [assumption|].
  destruct (running (exec w)); [assumption|].
  destruct (queue (exec w)) as [|item rest] eqn:Hq; [assumption|].
  destruct H as [H1 H2 H4 H5 H6 H7 H8 H9 HR HE HO HX].
  rewrite Hq in *. simpl in H4, H5, H6.
  inversion H4 as [|x l Hnin Hnd]; subst.
  destruct (H5 (q_ticket item) (or_introl eq_refl)) as (A & B & C & D & E).
  constructor; simpl; try assumption.
  - intros t Ht. destruct (H5 t (or_intror Ht)) as (A' & B' & C' & D' & E').
    repeat split; try assumption.
    + right. assumption.
    + intros [X|X]; [|auto]. inversion X; subst. contradiction.
    + intros [X|X]; [discriminate|auto].
    + intros [X|X]; [discriminate|auto].
  - intros t Ht. rewrite map_app, in_app_iff in Ht. simpl in Ht.
    destruct Ht as [Ht|[Ht|[]]].
    + destruct (H6 t Ht) as (F0 & F & G & S0 & R0 & X0). split; [assumption|].
      split; [intros X; apply F; right; assumption|].
      split; [intros [X|X]; [discriminate|auto]|].
      split; [right; assumption|].
      split; intros [X|X]; try discriminate; auto.
    + unfold act_ticket in Ht. simpl in Ht. subst t. split; [assumption|].
      split; [assumption|].
      split; [intros [X|X]; [discriminate|auto]|].
      split; [left; reflexivity|].
      split; intros [X|X]; try discriminate; apply C; apply HO; auto.
  - intros t [Ht|Ht]; [discriminate|].
    destruct (H7 t Ht) as (F & G & K). repeat split; try assumption.
    + intros [X|X]; [|auto]. inversion X; subst. contradiction.
    + intros [X|X]; [discriminate|auto].
  - intros t [[Ht|Ht]|[Ht|Ht]]; try discriminate; auto.
    inversion Ht; subst; assumption.
  - split; [assumption|]. split; assumption.
  - intros t. rewrite <- HR. split; [intros [X|X]; [discriminate|assumption]|auto].
  - split; [assumption|exact I].
  - intros t Ht. right. apply HO. head_event; auto.
  - intros t Ht Hr. head_event. exact (HX t Ht Hr).
Qed.

Lemma NoDup_snoc (l : list nat) x : NoDup l -> ~ In x l -> NoDup (l ++ [x]).
Proof.
  intros H Hn. induction H as [|y r Hy Hr IH]; simpl.
  - constructor; [intros []|constructor].
  - constructor.
    + rewrite in_app_iff. intros [X|[X|[]]]; [contradiction|].
      subst. apply Hn. left. reflexivity.
    + apply IH. intros X. apply Hn. right. assumption.
Qed.

Lemma enqueue_pi w c : promise_inv (exec w) -> promise_inv (exec (snd (enqueue w c))).
Proof.
  intros H. unfold enqueue.
  destruct (negb (exec_enabled (exec w))); [assumption|].
  destruct (negb (exec_os (exec w))); [assumption|].
  simpl. apply runNext_pi. simpl. rewrite exec_record.
  destruct H as [H1 H2 H4 H5 H6 H7 H8 H9 HR HE HO HX].
  assert (Hfresh : ~ In (next_ticket (exec w)) (tickets_of (queue (exec w)))).
  { intros X. destruct (H5 _ X) as (A & _). lia. }
  constructor; simpl; try assumption.
  - unfold tickets_of. rewrite map_app. simpl.
    apply NoDup_snoc; assumption.
  - intros t Ht. unfold tickets_of in Ht. rewrite map_app, in_app_iff in Ht.
    simpl in Ht. destruct Ht as [Ht|[Ht|[]]].
    + destruct (H5 t Ht) as (A & B & C & D & E). repeat split.
      * lia.
      * right. assumption.
      * intros [X|X]; [discriminate|auto].
      * intros [X|X]; [discriminate|auto].
      * intros [X|X]; [discriminate|auto].
    + subst t. repeat split.
      * lia.
      * left. reflexivity.
      * intros [X|X]; [discriminate|].
        specialize (H8 _ (or_introl X)). lia.
      * intros [X|X]; [discriminate|].
        specialize (H8 _ (or_intror X)). lia.
      * intros [X|X]; [discriminate|]. apply H7 in X. lia.
  - intros t Ht. destruct (H6 t Ht) as (A & B & C & D & E & F).
    split; [lia|].
    split; [unfold tickets_of; rewrite map_app, in_app_iff; simpl;
            intros [X|[X|[]]]; [auto|lia]|].
    split; [intros [X|X]; [discriminate|auto]|].
    split; [right; assumption|].
    split; intros [X|X]; try discriminate; auto.
  - intros t [Ht|Ht]; [discriminate|].
    destruct (H7 t Ht) as (A & B & C). repeat split.
    + lia.
    + intros [X|X]; [discriminate|auto].
    + intros [X|X]; [discriminate|auto].
  - intros t [[Ht|Ht]|[Ht|Ht]]; try discriminate.
    + specialize (H8 _ (or_introl Ht)). lia.
    + specialize (H8 _ (or_intror Ht)). lia.
  - split; [assumption|exact I].
  - intros t. rewrite <- HR. split; [intros [X|X]; [discriminate|assumption]|auto].
  - split; [assumption|exact I].
  - intros t Ht. right. apply HO. head_event; auto.
  - intros t Ht Hr. head_event. exact (HX t Ht Hr).
Qed.

Lemma in_fst_resolved (r : list (nat * jsval)) t :
  existsb (fun x => fst x =? t) r = true <-> In t (map fst r).
Proof.
  rewrite existsb_exists, in_map_iff. split.
  - intros (x & Hx & E). apply Nat.eqb_eq in E. eauto.
  - intros (x & E & Hx). exists x. split; [assumption|]. apply Nat.eqb_eq. assumption.
Qed.

(** What [conclude] leaves of the execution service: the promise of the
    activation resolved, or the note of the exception that kept it from
    being resolved. *)
Lemma conclude_cases w a o :
  promise_inv (exec w) -> In a (inflight (exec w)) ->
  (exists v,
     exec (conclude w a o)
     = with_outcome (exec w) (resolved (exec w) ++ [(act_ticket a, v)])%list
                    (Resolved (act_ticket a) :: history (exec w)))
  \/ exec (conclude w a o)
     = with_outcome (exec w) (resolved (exec w))
                    (Escaped (act_ticket a) :: history (exec w)).
Proof.
  intros H Hin. destruct H as [H1 H2 H4 H5 H6 H7 H8 H9 HR HE HO HX].
  assert (Hs : is_settled (exec w) (act_ticket a) = false).
  { unfold is_settled. rewrite H1. simpl. rewrite orb_false_r.
    destruct (existsb _ _) eqn:Hs; [|reflexivity]. exfalso.
    apply in_fst_resolved in Hs. apply HR in Hs.
    destruct (H6 (act_ticket a)) as (_ & _ & _ & _ & R & _); [|contradiction].
    apply in_map. assumption. }
  assert (K : forall w' v, exec w' = exec w ->
              exec (resolve w' (q_ticket (act_item a)) v)
              = with_outcome (exec w) (resolved (exec w) ++ [(act_ticket a, v)])%list
                             (Resolved (act_ticket a) :: history (exec w))).
  { intros w' v E. unfold resolve. rewrite E. fold (act_ticket a). rewrite Hs.
    reflexivity. }
  unfold conclude.
  destruct o as [result|[message| |message]];
    try (left; eexists; apply K; rewrite ?exec_out_add, ?exec_record; reflexivity).
  pose proof (exec_out_flush (out_add w (mk_error "Command execution interrupted."))) as E.
  rewrite exec_out_add in E.
  destruct (out_flush (out_add w (mk_error "Command execution interrupted.")))
    as [[u|x] w1]; simpl in E.
  - left. eexists. apply K. exact E.
  - right. unfold escaped. simpl. rewrite E. reflexivity.
Qed.

(** The [finally] clause, before it calls [runNext], after the promise
    was resolved. *)
Lemma released_resolved_pi e t v :
  promise_inv e -> In t (map act_ticket (inflight e)) ->
  promise_inv
    {| exec_enabled := exec_enabled e; exec_os := exec_os e;
       queue := queue e; running := false;
       currentAbort := None; currentReject := None;
       controllers := controllers e;
       inflight := filter (fun a' => negb (q_ticket (act_item a') =? t)) (inflight e);
       next_ticket := next_ticket e;
       resolved := (resolved e ++ [(t, v)])%list; rejected := rejected e;
       history := Ended t :: Resolved t :: history e |}.
Proof.
  intros [H1 H2 H4 H5 H6 H7 H8 H9 HR HE HO HX] Ht.
  destruct (H6 t Ht) as (A & B & C & D & E & F).
  constructor; simpl; try assumption.
  - rewrite map_app. simpl. apply NoDup_snoc; [assumption|].
    rewrite <- HR. assumption.
  - intros t' Ht'. destruct (H5 t' Ht') as (A' & B' & C' & D' & E').
    split; [assumption|]. split; [auto|].
    split; [intros X; head_event; auto|].
    split; intros X; head_event; auto.
  - intros t' Ht'. apply in_map_iff in Ht'. destruct Ht' as (a' & Ea & Ht').
    apply filter_In in Ht'. destruct Ht' as [Ht' Hne].
    apply negb_true_iff, Nat.eqb_neq in Hne. fold (act_ticket a') in Hne.
    rewrite Ea in Hne.
    assert (Ht'' : In t' (map act_ticket (inflight e)))
      by (subst t'; apply in_map; assumption).
    destruct (H6 t' Ht'') as (A' & B' & C' & D' & E' & F').
    split; [assumption|]. split; [assumption|].
    split; [intros X; head_event; auto|].
    split; [auto|].
    split; intros X; head_event; auto.
  - intros t' Ht'. head_event. destruct (H7 t' Ht') as (A' & B' & C').
    split; [assumption|].
    split; intros X; head_event; auto.
  - intros t' Ht'. head_event; auto.
  - split; [split; [assumption|exact I]|exact I].
  - intros t'. rewrite map_app, in_app_iff, <- HR. simpl. split.
    + intros X. head_event; auto.
    + intros [X|[X|[]]]; subst; auto.
  - split; [split; [assumption|exact I]|]. left. left. reflexivity.
  - intros t' Ht'. head_event; auto.
  - intros t' Ht' Hr. head_event; [contradiction|]. exact (HX t' Ht' Hr).
Qed.

(** The [finally] clause, before it calls [runNext], after an exception
    left the [catch] clause. *)
Lemma released_escaped_pi e t :
  promise_inv e -> In t (map act_ticket (inflight e)) ->
  promise_inv
    {| exec_enabled := exec_enabled e; exec_os := exec_os e;
       queue := queue e; running := false;
       currentAbort := None; currentReject := None;
       controllers := controllers e;
       inflight := filter (fun a' => negb (q_ticket (act_item a') =? t)) (inflight e);
       next_ticket := next_ticket e;
       resolved := resolved e; rejected := rejected e;
       history := Ended t :: Escaped t :: history e |}.
Proof.
  intros [H1 H2 H4 H5 H6 H7 H8 H9 HR HE HO HX] Ht.
  destruct (H6 t Ht) as (A & B & C & D & E & F).
  constructor; simpl; try assumption.
  - intros t' Ht'. destruct (H5 t' Ht') as (A' & B' & C' & D' & E').
    split; [assumption|]. split; [auto|].
    split; [intros X; head_event; auto|].
    split; intros X; head_event; auto.
  - intros t' Ht'. apply in_map_iff in Ht'. destruct Ht' as (a' & Ea & Ht').
    apply filter_In in Ht'. destruct Ht' as [Ht' Hne].
    apply negb_true_iff, Nat.eqb_neq in Hne. fold (act_ticket a') in Hne.
    rewrite Ea in Hne.
    assert (Ht'' : In t' (map act_ticket (inflight e)))
      by (subst t'; apply in_map; assumption).
    destruct (H6 t' Ht'') as (A' & B' & C' & D' & E' & F').
    split; [assumption|]. split; [assumption|].
    split; [intros X; head_event; auto|].
    split; [auto|].
    split; intros X; head_event; auto.
  - intros t' Ht'. head_event. destruct (H7 t' Ht') as (A' & B' & C').
    split; [assumption|].
    split; intros X; head_event; auto.
  - intros t' Ht'. head_event; auto.
  - split; [split; [assumption|exact I]|exact I].
  - intros t'. rewrite <- HR. split.
    + intros X. head_event; auto.
    + auto.
  - split; [split; [assumption|exact I]|]. right. left. reflexivity.
  - intros t' Ht'. head_event; auto.
  - intros t' Ht' Hr. head_event; [contradiction|]. exact (HX t' Ht' Hr).
Qed.

Lemma settle_pi w a o :
  promise_inv (exec w) -> In a (inflight (exec w)) ->
  promise_inv (exec (settle w a o)).
Proof.
  intros H Hin. unfold settle, release.
  match goal with |- promise_inv (exec (if _ then runNext ?x else _)) =>
    assert (R : promise_inv (exec x));
      [|destruct (negb _); [apply runNext_pi|]; exact R]
  end.
  assert (Ha : In (act_ticket a) (map act_ticket (inflight (exec w))))
    by (apply in_map; assumption).
  simpl.
  destruct (conclude_cases w a o H Hin) as [(v & ->)| ->]; simpl.
  - apply (released_resolved_pi (exec w) (act_ticket a) v); assumption.
  - apply (released_escaped_pi (exec w) (act_ticket a)); assumption.
Qed.

Lemma set_exec_enabled_pi w b :
  promise_inv (exec w) -> promise_inv (exec (set_exec_enabled w b)).
Proof. intros [H1 H2 H4 H5 H6 H7 H8 H9 HR HE HO HX]. constructor; assumption. Qed.

Lemma step_pi w ev : promise_inv (exec w) -> promise_inv (exec (step w ev)).
Proof.
  intros H. destruct ev as [|c|t o|err| | |others]; simpl.
  - apply exec_init_pi. assumption.
  - apply enqueue_pi. assumption.
  - destruct (find_activation w t) as [a|] eqn:Hf; [|assumption].
    apply settle_pi; [assumption|]. eapply find_activation_in. exact Hf.
  - apply interrupt_pi. assumption.
  - unfold exec_enable. rewrite exec_record. apply set_exec_enabled_pi. assumption.
  - unfold exec_disable. rewrite exec_record. apply set_exec_enabled_pi. assumption.
  - assumption.
Qed.

Lemma run_pi evs : forall w, promise_inv (exec w) -> promise_inv (exec (run w evs)).
Proof.
  unfold run. induction evs as [|ev r IH]; intros w H; simpl; [assumption|].
  apply IH, step_pi, H.
Qed.

Lemma started_ok_split post : forall t before,
  started_ok (post ++ Started t :: before)%list ->
  In (Enqueued t) before /\ ~ In (Started t) before /\ ~ In (Started t) post.
Proof.
  induction post as [|ev r IH]; intros t before H; simpl in H.
  - destruct H as [_ [A B]]. repeat split; [assumption|assumption|intros []].
  - destruct H as [H Hev]. destruct (IH t before H) as (A & B & C).
    repeat split; try assumption.
    intros [X|X]; [|contradiction]. subst ev. destruct Hev as [_ Hn].
    apply Hn. apply in_app_iff. right. left. reflexivity.
Qed.

Lemma ended_ok_split post : forall t before,
  ended_ok (post ++ Ended t :: before)%list ->
  In (Resolved t) before \/ In (Escaped t) before.
Proof.
  induction post as [|ev r IH]; intros t before H; simpl in H.
  - destruct H as [_ H]. exact H.
  - destruct H as [H _]. apply IH. exact H.
Qed.

Lemma ended_ok_before h t :
  ended_ok h -> In (Ended t) h -> In (Resolved t) h \/ In (Escaped t) h.
Proof.
  intros H Hin. apply in_split in Hin. destruct Hin as (post & before & ->).
  destruct (ended_ok_split post t before H) as [X|X]; [left|right];
    apply in_app_iff; right; right; exact X.
Qed.

Lemma ended_ok_app post : forall before, ended_ok (post ++ before)%list -> ended_ok before.
Proof.
  induction post as [|ev r IH]; intros before H; simpl in H; [assumption|].
  apply IH. tauto.
Qed.

(** C1. Whatever is enqueued and whatever else happens, at most one chain
    is in flight at any instant, and chains run in the order they were
    enqueued: at the moment a chain is started, every chain enqueued
    before it has been dropped from the queue by an interrupt, or its run
    has come to its end, and before that end its promise was resolved -
    or, for an aborted run whose [catch] clause threw, left pending.
    The promises noted as resolved are those the service resolved. *)
Theorem single_flight_fifo : forall evs,
  let e := exec (run world0 evs) in
  List.length (inflight e) <= 1
  /\ (running e = true <-> inflight e <> [])
  /\ (forall t, In (Resolved t) (history e) <-> In t (map fst (resolved e)))
  /\ (forall post b mid a before,
        history e = (post ++ Started b :: mid ++ Enqueued b :: before)%list ->
        In (Enqueued a) before ->
        let earlier := (mid ++ Enqueued b :: before)%list in
        In (Dropped a) earlier
        \/ exists between settled,
             earlier = (between ++ Ended a :: settled)%list
             /\ (In (Resolved a) settled \/ In (Escaped a) settled)).
Proof.
  intros evs e. pose proof (reachable_inv evs) as H. fold e in H.
  pose proof (run_pi evs world0 promise_inv_world0) as P. fold e in P.
  destruct H as [HA HB HC HD HE HF HG HH].
  split; [|split; [|split]].
  - destruct HA as [[Hi _]|(a & Hi & _)]; rewrite Hi; simpl; lia.
  - destruct HA as [[Hi Hr]|(a & Hi & Hr & _)]; rewrite Hi, Hr; split;
      congruence.
  - apply (pi_resolved _ P).
  - intros post b mid a before Hh Hen earlier. rewrite Hh in HH.
    assert (Hlt : a < b).
    { replace (post ++ Started b :: mid ++ Enqueued b :: before)%list
        with ((post ++ Started b :: mid) ++ Enqueued b :: before)%list in HH
        by (rewrite <- app_assoc; reflexivity).
      eapply fifo_ok_order; eauto. }
    assert (Hin : In (Enqueued a) earlier)
      by (apply in_app_iff; right; right; assumption).
    destruct (fifo_ok_split post b earlier HH a Hlt Hin) as [He|Hd]; [|left; exact Hd].
    right. apply in_split in He. destruct He as (between & settled & Ee).
    exists between, settled. split; [exact Ee|].
    pose proof (pi_ended _ P) as Hok. rewrite Hh in Hok. fold earlier in Hok.
    replace (post ++ Started b :: earlier)%list
      with ((post ++ [Started b]) ++ earlier)%list in Hok
      by (rewrite <- app_assoc; reflexivity).
    apply ended_ok_app in Hok. rewrite Ee in Hok.
    apply (ended_ok_split between a settled Hok).
Qed.

Lemma single_flight_fifo_witness :
  let evs := [EInit; EEnqueue (parseCommand "print a"); EEnqueue (parseCommand "print b");
              ESettle 0 (Ok VNull)] in
  history (exec (run world0 evs))
  = ([] ++ Started 1 :: [Ended 0; Resolved 0] ++ Enqueued 1 :: [Started 0; Enqueued 0])%list
  /\ In (Enqueued 0) [Started 0; Enqueued 0]
  /\ (In (Dropped 0) ([Ended 0; Resolved 0] ++ Enqueued 1 :: [Started 0; Enqueued 0])
      \/ exists between settled,
           ([Ended 0; Resolved 0] ++ Enqueued 1 :: [Started 0; Enqueued 0])%list
           = (between ++ Ended 0 :: settled)%list
           /\ (In (Resolved 0) settled \/ In (Escaped 0) settled)).
Proof.
  intros evs.
  split; [reflexivity|]. split; [simpl; auto|].
  destruct (single_flight_fifo evs) as (_ & _ & _ & H).
  apply (H [] 1 [Ended 0; Resolved 0] 0 [Started 0; Enqueued 0]);
    [reflexivity|simpl; auto].
Defined.

(** X14. The promises [enqueue] returns: in every state the execution
    service can reach, none has been rejected, none has been resolved
    twice, every resolved one is that of a chain whose run came to its
    end, and a run that came to its end left its promise resolved unless
    an exception left the [catch] clause of [runNext] - the abort error
    followed by a [flush] that throws - in which case the promise is
    pending and stays so. *)
Theorem promises_resolved_once : forall evs,
  let e := exec (run world0 evs) in
  rejected e = []
  /\ NoDup (map fst (resolved e))
  /\ (forall t, In t (map fst (resolved e)) -> In (Ended t) (history e))
  /\ (forall t, In (Ended t) (history e) ->
                In t (map fst (resolved e)) \/ In (Escaped t) (history e))
  /\ (forall t, In (Escaped t) (history e) -> ~ In t (map fst (resolved e))).
Proof.
  intros evs e.
  pose proof (run_pi evs world0 promise_inv_world0) as P. fold e in P.
  pose proof (reachable_inv evs) as Q. fold e in Q.
  destruct P as [H1 H2 H4 H5 H6 H7 H8 H9 HR HE HO HX].
  split; [assumption|]. split; [assumption|]. split; [|split].
  - intros t Ht. apply in_map_iff in Ht. destruct Ht as ([t' v] & E & Ht).
    simpl in E. subst t'. destruct Q as [_ _ _ _ _ _ HG _]. eapply HG. left. exact Ht.
  - intros t Ht. destruct (ended_ok_before _ t HE Ht) as [X|X]; [left|right; exact X].
    apply HR. exact X.
  - intros t Ht Hr. apply HR in Hr. exact (HX t Ht Hr).
Qed.

(** X15. A chain that [interrupt] (or [init]) removed from the queue is
    lost: it is never started, it never comes to an end, and its promise
    is never settled. *)
Theorem dropped_chain_never_settles : forall evs t,
  let e := exec (run world0 evs) in
  In (Dropped t) (history e) ->
  ~ In (Started t) (history e)
  /\ ~ In (Ended t) (history e)
  /\ ~ In t (map fst (resolved e))
  /\ ~ In t (map fst (rejected e)).
Proof.
  intros evs t e Hd.
  pose proof (run_pi evs world0 promise_inv_world0) as P. fold e in P.
  pose proof (reachable_inv evs) as Q. fold e in Q.
  destruct P as [H1 H2 H4 H5 H6 H7 H8 H9 HR HE HO HX].
  destruct (H7 t Hd) as (A & B & C).
  split; [assumption|]. split; [assumption|]. split.
  - intros Ht. apply in_map_iff in Ht. destruct Ht as ([t' v] & E & Ht).
    simpl in E. subst t'. destruct Q as [_ _ _ _ _ _ HG _].
    apply C. eapply HG. left. exact Ht.
  - rewrite H1. intros [].
Qed.

(** X16. A chain is started at most once, and only after it was
    enqueued: wherever a start stands in the history of a reachable
    state, the enqueueing of its ticket is earlier and no other start of
    that ticket is earlier or later. *)
Theorem chain_started_once : forall evs post t before,
  history (exec (run world0 evs)) = (post ++ Started t :: before)%list ->
  In (Enqueued t) before /\ ~ In (Started t) before /\ ~ In (Started t) post.
Proof.
  intros evs post t before Hh.
  pose proof (run_pi evs world0 promise_inv_world0) as P.
  pose proof (pi_started _ P) as H9. rewrite Hh in H9.
  apply started_ok_split. assumption.
Qed.

Lemma dropped_chain_never_settles_witness :
  In (Dropped 1)
     (history (exec (run world0 [EInit; EEnqueue []; EEnqueue []; EInterrupt VNull])))
  /\ ~ In 1 (map fst (resolved (exec (run world0 [EInit; EEnqueue []; EEnqueue [];
                                                  EInterrupt VNull])))).
Proof.
  assert (H : In (Dropped 1)
                 (history (exec (run world0 [EInit; EEnqueue []; EEnqueue [];
                                             EInterrupt VNull])))).
  { vm_compute. left. reflexivity. }
  split; [exact H|].
  destruct (dropped_chain_never_settles
              [EInit; EEnqueue []; EEnqueue []; EInterrupt VNull] 1 H)
    as (_ & _ & A & _).
  exact A.
Defined.

Lemma chain_started_once_witness :
  In (Enqueued 0) [Enqueued 0] /\ ~ In (Started 0) [Enqueued 0].
Proof.
  destruct (chain_started_once [EInit; EEnqueue []] [] 0 [Enqueued 0]) as (A & B & _).
  - vm_compute. reflexivity.
  - split; assumption.
Defined.

(** A run that ends pending: with a [null] line in the output buffer
    ([OutputService.add(null)]), the chain in flight is interrupted and
    throws the abort error; [flush] throws in the [catch] clause, the
    [finally] clause is reached and the promise is left as it was. *)
Lemma aborted_run_left_pending :
  let e := exec (run world0 [EInit; EEnqueue (parseCommand "print a | linecount");
                             EInterrupt VNull; EElsewhere (out_add booted VNull);
                             ESettle 0 (Throw AbortError)]) in
  history e = [Ended 0; Escaped 0; Started 0; Enqueued 0]
  /\ resolved e = [] /\ running e = false.
Proof. vm_compute. repeat split. Qed.

End PromiseFacts.

Section ShellMore.

Variable timestamp : Z -> string.
Variable extern : handler -> params -> world -> res jsval * world.

(** X17. An unknown command at the shell: a chain submitted to the idle
    queue whose first fragment names no registered command runs no
    handler; the error [Unknown command: "<name>"] is added to the
    output buffer (not yet to the screen), the promise of the chain is
    resolved with [null], the fragments after the first are not run, and
    the queue is idle again. *)
Theorem unknown_command_reported : forall f rest w,
  idle w ->
  cmd_enabled (cmd w) = true ->
  out_enabled (out w) = true ->
  (forall nm, name f = Some nm -> registered_includes w nm = false) ->
  let w' := submit timestamp extern w (f :: rest) in
  buffer (out w')
  = (buffer (out w)
     ++ [mk_error ("Unknown command: " ++ quoted (name_text (name f)))])%list
  /\ elem w' = elem w
  /\ resolved (exec w')
     = (resolved (exec w) ++ [(next_ticket (exec w), VNull)])%list
  /\ running (exec w') = false
  /\ queue (exec w') = [].
Proof.
  intros f rest w Hi Hc Ho Hn. simpl.
  rewrite (submit_idle timestamp extern w (f :: rest) Hi).
  set (w0 := started w (f :: rest)).
  set (ctl := List.length (controllers (exec w))).
  assert (Hs : signal_aborted w0 ctl = false).
  { unfold signal_aborted, w0, ctl, started. simpl. apply nth_fresh. }
  destruct (runSingle_gate timestamp extern f ctl VNull w0) as
      (f' & w1 & Hrs & He & Hout & Hx & _).
  - unfold w0, started. simpl. rewrite cmd_record. assumption.
  - assumption.
  - intros nm Hnm. unfold registered_includes, w0, started. simpl.
    rewrite cmd_record. apply (Hn nm Hnm).
  - unfold runChain. cbn [runChain_loop]. rewrite Hs, Hrs.
    rewrite (settle_started w (f :: rest) w1 _ Hi Hx) by discriminate.
    simpl.
    assert (Eo : out w1 = out w).
    { rewrite Hout. unfold w0, started. simpl. apply out_record. }
    assert (Ee : elem w1 = elem w).
    { rewrite He. unfold w0, started. simpl. apply elem_record. }
    repeat split.
    + rewrite buffer_out_add by (rewrite out_record, Eo; assumption).
      rewrite out_record, Eo. reflexivity.
    + rewrite elem_out_add, elem_record. assumption.
Qed.

End ShellMore.

Lemma unknown_command_reported_witness :
  buffer (out (submit no_timestamp no_extern booted (parseCommand "nosuch 1 | print")))
  = (buffer (out booted)
     ++ [mk_error ("Unknown command: " ++ quoted "nosuch")])%list.
Proof.
  destruct (unknown_command_reported no_timestamp no_extern
              (parseCommandFragment "nosuch 1") [parseCommandFragment "print"] booted)
    as (H & _).
  - vm_compute. repeat split.
  - vm_compute. reflexivity.
  - vm_compute. reflexivity.
  - intros nm E. vm_compute in E. inversion E; subst. vm_compute. reflexivity.
  - exact H.
Defined.

Section ServiceFacts.

Variable timestamp : Z -> string.
Variable extern : handler -> params -> world -> res jsval * world.

Lemma service_enabled_record sv w a :
  sv <> SDiagnostic ->
  service_enabled sv (record w a) = service_enabled sv w.
Proof.
  intros H. destruct sv; simpl;
    rewrite ?out_record, ?exec_record, ?cmd_record, ?savior_record;
    try reflexivity. contradiction.
Qed.

Lemma service_enable_effect sv w :
  service_enabled sv (service_enable sv w) = true
  /\ (forall sv', sv' <> sv ->
      service_enabled sv' (service_enable sv w) = service_enabled sv' w).
Proof.
  destruct sv; simpl; unfold out_enable, exec_enable, cmd_enable, diag_enable,
    savior_enable, set_exec_enabled.
  - rewrite out_record. split; [reflexivity|].
    intros sv' H; destruct sv'; simpl;
      rewrite ?exec_record, ?cmd_record, ?savior_record, ?diag_enabled_record;
      try reflexivity; contradiction.
  - rewrite exec_record. split; [reflexivity|].
    intros sv' H; destruct sv'; simpl;
      rewrite ?out_record, ?cmd_record, ?savior_record, ?diag_enabled_record;
      try reflexivity; contradiction.
  - rewrite cmd_record. split; [reflexivity|].
    intros sv' H; destruct sv'; simpl;
      rewrite ?out_record, ?exec_record, ?savior_record, ?diag_enabled_record;
      try reflexivity; contradiction.
  - split; [reflexivity|].
    intros sv' H; destruct sv'; simpl; try reflexivity; contradiction.
  - destruct (sav_enabled (savior w)) eqn:E.
    + split; [assumption|]. reflexivity.
    + rewrite savior_record. split; [reflexivity|].
      intros sv' H; destruct sv'; simpl;
        rewrite ?out_record, ?exec_record, ?cmd_record, ?diag_enabled_record;
        try reflexivity; contradiction.
Qed.

Lemma service_disable_effect sv w :
  service_enabled sv (service_disable sv w) = false
  /\ (forall sv', sv' <> sv ->
      service_enabled sv' (service_disable sv w) = service_enabled sv' w).
Proof.
  destruct sv; simpl; unfold out_disable, exec_disable, cmd_disable, diag_disable,
    savior_disable, set_exec_enabled.
  - rewrite out_record. split; [reflexivity|].
    intros sv' H; destruct sv'; simpl;
      rewrite ?exec_record, ?cmd_record, ?savior_record, ?diag_enabled_record;
      try reflexivity; contradiction.
  - rewrite exec_record. split; [reflexivity|].
    intros sv' H; destruct sv'; simpl;
      rewrite ?out_record, ?cmd_record, ?savior_record, ?diag_enabled_record;
      try reflexivity; contradiction.
  - rewrite cmd_record. split; [reflexivity|].
    intros sv' H; destruct sv'; simpl;
      rewrite ?out_record, ?exec_record, ?savior_record, ?diag_enabled_record;
      try reflexivity; contradiction.
  - split; [reflexivity|].
    intros sv' H; destruct sv'; simpl; try reflexivity; contradiction.
  - destruct (sav_enabled (savior w)) eqn:E; simpl.
    + rewrite savior_record. split; [reflexivity|].
      intros sv' H; destruct sv'; simpl;
        rewrite ?out_record, ?exec_record, ?cmd_record, ?diag_enabled_record;
        try reflexivity; contradiction.
    + split; [assumption|]. reflexivity.
Qed.

Lemma serviceMap_nonempty key sv : serviceMap (toLowerCase key) = Found sv -> nonempty key = true.
Proof. destruct key; [discriminate|reflexivity]. Qed.

(** X18. [service enable <name>] and [service disable <name>], for a
    name that is one of the five services in any letter case, and for
    [disable] of a critical service with [--confirm]: the switch of that
    service is on after [enable] and off after [disable], and the switch
    of every other service is as before. *)
Theorem service_switch_flips_one : forall p w action sn sv,
  nth_error (pr_args p) 0 = Some action ->
  action = "enable" \/ action = "disable" ->
  nth_error (pr_args p) 1 = Some sn ->
  serviceMap (toLowerCase sn) = Found sv ->
  (action = "disable" -> includes criticalServices (toLowerCase sn) = true ->
   truthy (obj_get (pr_flags p) "confirm") = true) ->
  let w' := snd (service_handler timestamp p w) in
  service_enabled sv w' = String.eqb action "enable"
  /\ (forall sv', sv' <> sv -> service_enabled sv' w' = service_enabled sv' w)
  /\ exists text, fst (service_handler timestamp p w)
                  = Ok (mk_line "line" text EmptyString).
Proof.
  intros p w action sn sv Ha Hact Hs Hm Hc. simpl.
  unfold service_handler. rewrite Ha.
  assert (E : service_handler timestamp p w
              = service_switch action p w).
  { unfold service_handler. rewrite Ha.
    destruct Hact as [-> | ->]; reflexivity. }
  unfold service_handler in E. rewrite Ha in E. rewrite E. clear E.
  unfold service_switch. rewrite Hs, (serviceMap_nonempty sn sv Hm), Hm.
  remember (includes criticalServices (toLowerCase sn)) as crit eqn:Hi.
  simpl.
  destruct Hact as [-> | ->]; simpl.
  - destruct (service_enable_effect sv w) as [A B].
    split; [exact A|]. split; [exact B|]. eexists. reflexivity.
  - destruct crit; simpl.
    + rewrite (Hc eq_refl eq_refl). simpl.
      destruct (service_disable_effect sv w) as [A B].
      split; [exact A|]. split; [exact B|]. eexists. reflexivity.
    + destruct (service_disable_effect sv w) as [A B].
      split; [exact A|]. split; [exact B|]. eexists. reflexivity.
Qed.

(** X19. The watch of [SaviorService] on the two services it watches,
    once the savior is initialised: with the savior enabled, a tick
    leaves the watched service enabled, and a second tick right after
    changes nothing; a tick that found the service disabled shows one
    savior line and a new command line, and has emptied an enabled
    output buffer, so pending output is lost. With the savior disabled a
    tick does nothing. *)
Theorem savior_watch_heals : forall sv w,
  sv = SCommandExec \/ sv = SCommand ->
  sav_os (savior w) = true ->
  (sav_enabled (savior w) = false -> savior_watch sv w = w)
  /\ (sav_enabled (savior w) = true ->
      let w' := savior_watch sv w in
      service_enabled sv w' = true
      /\ savior_watch sv w' = w'
      /\ (service_enabled sv w = true -> w' = w)
      /\ (service_enabled sv w = false ->
          elem w'
          = (elem w
             ++ [{| d_kind := "savior";
                    d_content := VStr ("Enabled " ++ match sv with
                                                     | SCommandExec => "CommandExecService"
                                                     | _ => "CommandService"
                                                     end);
                    d_loc := VStr "SAVIOR" |};
                 {| d_kind := "commandline"; d_content := VStr EmptyString;
                    d_loc := VStr ">" |}])%list
          /\ (out_enabled (out w) = true -> buffer (out w') = []))).
Proof.
  intros sv w Hsv _. split.
  - intros H. unfold savior_watch. rewrite H. reflexivity.
  - intros H. simpl.
    assert (K : forall w0, sav_enabled (savior w0) = true ->
                service_enabled sv w0 = true -> savior_watch sv w0 = w0).
    { intros w0 H0 H1. unfold savior_watch. rewrite H0. simpl.
      destruct Hsv as [-> | ->]; simpl in *; rewrite H1; reflexivity. }
    destruct (service_enabled sv w) eqn:Hen.
    + rewrite (K w H Hen). repeat split; try assumption; try discriminate.
      apply K; assumption.
    + assert (S1 : service_enabled sv (savior_watch sv w) = true
                   /\ sav_enabled (savior (savior_watch sv w)) = true
                   /\ elem (savior_watch sv w)
                      = (elem w
                         ++ [{| d_kind := "savior";
                                d_content := VStr ("Enabled "
                                                   ++ match sv with
                                                      | SCommandExec => "CommandExecService"
                                                      | _ => "CommandService"
                                                      end);
                                d_loc := VStr "SAVIOR" |};
                             {| d_kind := "commandline"; d_content := VStr EmptyString;
                                d_loc := VStr ">" |}])%list
                   /\ (out_enabled (out w) = true
                       -> buffer (out (savior_watch sv w)) = [])).
      { unfold savior_watch. rewrite H. simpl.
        destruct Hsv as [-> | ->]; simpl in *; rewrite Hen; simpl;
          unfold os_commandLine, append_elem, exec_enable, cmd_enable,
            set_exec_enabled, out_clear, os_savior; simpl;
          rewrite ?out_record; simpl;
          destruct (out_enabled (out w)) eqn:Ho; simpl;
          rewrite ?exec_record, ?cmd_record, ?savior_record, ?elem_record,
            ?out_record; simpl;
          rewrite ?exec_record, ?cmd_record, ?savior_record, ?elem_record,
            ?out_record; simpl;
          rewrite ?exec_record, ?cmd_record, ?savior_record, ?elem_record,
            ?out_record; simpl;
          rewrite <- ?app_assoc; simpl;
          repeat split; try assumption; try reflexivity; try discriminate. }
      destruct S1 as (A & B & C & D).
      split; [assumption|]. split; [apply K; assumption|].
      split; [discriminate|]. intros _. split; assumption.
Qed.

Lemma savior_watch_heals_witness :
  service_enabled SCommand (savior_watch SCommand (cmd_disable booted)) = true.
Proof.
  destruct (savior_watch_heals SCommand (cmd_disable booted)) as [_ H].
  - right. reflexivity.
  - vm_compute. reflexivity.
  - destruct H as (A & _).
    + vm_compute. reflexivity.
    + exact A.
Defined.

End ServiceFacts.

Lemma service_switch_flips_one_witness :
  service_enabled SOutput
    (snd (service_handler no_timestamp
            {| pr_args := ["disable"; "Output"]; pr_flags := []; pr_pipe := VNull |}
            booted)) = false.
Proof.
  destruct (service_switch_flips_one no_timestamp
              {| pr_args := ["disable"; "Output"]; pr_flags := []; pr_pipe := VNull |}
              booted "disable" "Output" SOutput) as (H & _).
  - reflexivity.
  - right. reflexivity.
  - reflexivity.
  - reflexivity.
  - intros _ E. vm_compute in E. discriminate E.
  - exact H.
Defined.

Section LogView.

Lemma until_bracket_stamp s r :
  all_chars no_bracket s = true ->
  until_bracket (s ++ String "]" r) = Some (s, r).
Proof.
  induction s as [|c s IH]; simpl; intros H.
  - reflexivity.
  - apply andb_true_iff in H as [Hc Hs]. unfold no_bracket in Hc.
    apply negb_true_iff in Hc. rewrite Hc, (IH Hs). reflexivity.
Qed.

Lemma match_stamp_log_line s a :
  all_chars no_bracket s = true ->
  match_stamp (log_line (s, a)) = Some (s, String " " a).
Proof.
  intros H. unfold log_line, match_stamp. simpl.
  apply until_bracket_stamp. assumption.
Qed.

Lemma display_log_line s a :
  all_chars no_bracket s = true ->
  display_line (log_line (s, a)) = mk_line "line" a ("[" ++ s ++ "]").
Proof.
  intros H. unfold display_line. rewrite (match_stamp_log_line s a H).
  reflexivity.
Qed.

Lemma no_bracket_spaces n : all_chars no_bracket (repeat_space n) = true.
Proof. induction n as [|n IH]; simpl; [reflexivity|assumption]. Qed.

Lemma blank_fold ls : forall lastStamp done,
  (forall p, In p ls -> all_chars no_bracket (fst p) = true) ->
  snd (fold_left blank_step (map log_line ls) (lastStamp, done))
  = (done ++ map log_line (blank_repeats lastStamp ls))%list.
Proof.
  induction ls as [|[s a] rest IH]; intros lastStamp done H;
    cbn [map fold_left blank_repeats].
  - simpl. rewrite app_nil_r. reflexivity.
  - assert (Hs : all_chars no_bracket s = true) by (apply (H (s, a)); left; reflexivity).
    assert (Hr : forall p, In p rest -> all_chars no_bracket (fst p) = true)
      by (intros p Hp; apply H; right; assumption).
    assert (E0 : blank_step (lastStamp, done) (log_line (s, a))
                 = if match lastStamp with
                      | Some l => String.eqb s l
                      | None => false
                      end
                   then (lastStamp,
                         (done ++ [log_line (repeat_space (String.length s), a)])%list)
                   else (Some s, (done ++ [log_line (s, a)])%list)).
    { unfold blank_step. rewrite (match_stamp_log_line s a Hs). reflexivity. }
    rewrite E0. clear E0.
    destruct (match lastStamp with
              | Some l => String.eqb s l
              | None => false
              end) eqn:E.
    + destruct lastStamp as [l|]; [|discriminate].
      apply String.eqb_eq in E. subst l.
      rewrite (IH (Some s) _ Hr), <- app_assoc. reflexivity.
    + rewrite (IH (Some s) _ Hr), <- app_assoc. reflexivity.
Qed.

Lemma blank_repeats_no_bracket ls : forall lastStamp,
  (forall p, In p ls -> all_chars no_bracket (fst p) = true) ->
  forall p, In p (blank_repeats lastStamp ls) -> all_chars no_bracket (fst p) = true.
Proof.
  induction ls as [|[s a] rest IH]; intros lastStamp H p Hp; simpl in Hp.
  - destruct Hp.
  - destruct Hp as [<-|Hp].
    + simpl. destruct (match lastStamp with
                       | Some l => String.eqb s l
                       | None => false
                       end).
      * apply no_bracket_spaces.
      * apply (H (s, a)). left. reflexivity.
    + apply (IH (Some s)); [|assumption]. intros q Hq. apply H. right. assumption.
Qed.

(** X20. The second half of the logs view, on lines built from a stamp
    without a closing bracket and an action: each line is shown with its
    action as content and its bracketed stamp as location, except that
    a stamp equal to the stamp of the line before it - as it was before
    any blanking - is replaced by as many spaces. *)
Theorem logs_view_blanks_repeated_stamps : forall ls,
  (forall p, In p ls -> all_chars no_bracket (fst p) = true) ->
  map display_line (blank_stamps (map log_line ls))
  = map (fun p => mk_line "line" (snd p) ("[" ++ fst p ++ "]"))
        (blank_repeats None ls).
Proof.
  intros ls H. unfold blank_stamps. rewrite (blank_fold ls None [] H). simpl.
  rewrite map_map. apply map_ext_in. intros [s a] Hp.
  apply display_log_line.
  apply (blank_repeats_no_bracket ls None H (s, a) Hp).
Qed.

Lemma logs_view_blanks_repeated_stamps_witness :
  map display_line
      (blank_stamps (map log_line [("t1", "a"); ("t1", "b"); ("t2", "c"); ("t1", "d")]))
  = [mk_line "line" "a" "[t1]"; mk_line "line" "b" "[  ]";
     mk_line "line" "c" "[t2]"; mk_line "line" "d" "[t1]"].
Proof.
  rewrite (logs_view_blanks_repeated_stamps
             [("t1", "a"); ("t1", "b"); ("t2", "c"); ("t1", "d")]).
  - reflexivity.
  - intros p Hp. repeat (destruct Hp as [<-|Hp]; [reflexivity|]). destruct Hp.
Defined.

End LogView.

(** ** The display of the log through the shell *)

Section LogDisplay.

Lemma runs_of_nil_inv (l : list string) : runs_of String.eqb l = [] -> l = [].
Proof.
  destruct l as [|x rest]; [reflexivity|]. simpl.
  destruct (runs_of String.eqb rest) as [|[y n] rs]; [discriminate|].
  destruct (String.eqb x y); discriminate.
Qed.

(** The runs put end to end are the list. *)
Lemma expand_runs_of (l : list string) : expand (runs_of String.eqb l) = l.
Proof.
  induction l as [|x rest IH]; [reflexivity|]. simpl.
  destruct (runs_of String.eqb rest) as [|[y n] rs] eqn:E.
  - apply runs_of_nil_inv in E. subst. reflexivity.
  - destruct (String.eqb x y) eqn:Exy.
    + apply String.eqb_eq in Exy. subst y. rewrite <- IH. reflexivity.
    + rewrite <- IH. reflexivity.
Qed.

(** Neighbouring runs are of different lines. *)
Lemma runs_of_maximal (l : list string) :
  match runs_of String.eqb l with
  | (x, _) :: runs => maximal_runs x runs
  | [] => True
  end.
Proof.
  induction l as [|x rest IH]; [exact I|]. simpl.
  destruct (runs_of String.eqb rest) as [|[y n] rs]; [exact I|].
  destruct (String.eqb x y) eqn:Exy; [exact IH|].
  simpl. split; [|exact IH]. apply String.eqb_neq. assumption.
Qed.

(** A list that ends with two different lines ends with a run of one
    line. *)
Lemma runs_of_fresh_tail (l : list string) a b :
  a <> b ->
  exists r rs, runs_of String.eqb (l ++ [a; b]) = (r :: rs ++ [(b, 0)])%list.
Proof.
  intros Hab. induction l as [|x rest IH].
  - simpl. apply String.eqb_neq in Hab. rewrite Hab.
    exists (a, 0), []. reflexivity.
  - destruct IH as ([y n] & rs & E). simpl. rewrite E.
    destruct (String.eqb x y).
    + exists (y, S n), rs. reflexivity.
    + exists (x, 0), ((y, n) :: rs). reflexivity.
Qed.

Lemma removelast_snoc (A : Type) (l : list A) x : removelast (l ++ [x]) = l.
Proof. apply removelast_last. Qed.

(** The first loop on a log whose last run is of one line: every
    maximal run is one line, with its count when it has more than one. *)
Lemma compress_fresh (l : list string) rs b :
  runs_of String.eqb l = (rs ++ [(b, 0)])%list ->
  compress l = map render (runs_of String.eqb l).
Proof.
  intros E.
  pose proof (expand_runs_of l) as Hx. pose proof (runs_of_maximal l) as Hm.
  destruct (runs_of String.eqb l) as [|[x k] runs] eqn:Er.
  - destruct rs; discriminate.
  - rewrite <- Hx. rewrite (compress_runs x k runs Hm).
    rewrite E. rewrite removelast_snoc, last_last, map_app. reflexivity.
Qed.

Lemma compress_nil : compress [] = map render (runs_of String.eqb []).
Proof. reflexivity. Qed.

(** Two formatted lines are equal when their entries are. *)
Lemma log_line_eqb p q :
  all_chars no_bracket (fst p) = true -> all_chars no_bracket (fst q) = true ->
  String.eqb (log_line p) (log_line q) = entry_eqb p q.
Proof.
  destruct p as [s a], q as [s' a']. cbn [fst]. intros Hs Hs'.
  unfold entry_eqb. cbn [fst snd].
  destruct (String.eqb (log_line (s, a)) (log_line (s', a'))) eqn:E.
  - apply String.eqb_eq in E.
    pose proof (match_stamp_log_line s a Hs) as M.
    rewrite E, (match_stamp_log_line s' a' Hs') in M.
    inversion M; subst. rewrite !String.eqb_refl. reflexivity.
  - symmetry. apply andb_false_iff.
    destruct (String.eqb s s') eqn:E1; [|left; reflexivity].
    destruct (String.eqb a a') eqn:E2; [|right; reflexivity].
    apply String.eqb_eq in E1. apply String.eqb_eq in E2. subst.
    rewrite String.eqb_refl in E. discriminate.
Qed.

(** The runs of the formatted lines are the runs of the entries. *)
Lemma runs_of_log_lines (ls : list (string * string)) :
  (forall p, In p ls -> all_chars no_bracket (fst p) = true) ->
  runs_of String.eqb (map log_line ls)
  = map (fun r => (log_line (fst r), snd r)) (runs_of entry_eqb ls)
  /\ (forall r, In r (runs_of entry_eqb ls) -> In (fst r) ls).
Proof.
  induction ls as [|p rest IH]; intros H; [split; [reflexivity|intros r []]|].
  destruct IH as [IH1 IH2]; [intros q Hq; apply H; right; assumption|].
  cbn [map runs_of]. rewrite IH1.
  destruct (runs_of entry_eqb rest) as [|[q n] rs] eqn:E; cbn [map fst snd].
  - split; [reflexivity|]. intros r [<-|[]]. left. reflexivity.
  - assert (Hq : In q rest) by (apply (IH2 (q, n)); left; reflexivity).
    rewrite log_line_eqb
      by (apply H; first [left; reflexivity|right; assumption]).
    destruct (entry_eqb p q); cbn [map fst snd].
    + split; [reflexivity|]. intros r [<-|Hr]; [right; exact Hq|].
      right. apply IH2. right. assumption.
    + split; [reflexivity|]. intros r [<-|Hr]; [left; reflexivity|].
      right. apply IH2. assumption.
Qed.

Lemma append_assoc (a b c : string) : ((a ++ b) ++ c)%string = (a ++ b ++ c)%string.
Proof. induction a as [|x a IH]; simpl; [reflexivity|f_equal; assumption]. Qed.

(** The count written after a formatted line goes after its action. *)
Lemma render_log_line r :
  render (log_line (fst r), snd r) = log_line (render_entry r).
Proof.
  destruct r as [[s a] n]. unfold render_entry, render, log_line, counted.
  cbn [fst snd]. destruct (0 <? n); [|reflexivity].
  simpl. f_equal. rewrite !append_assoc. reflexivity.
Qed.

(** The second loop and the final [map] on formatted entries. *)
Lemma display_blank_stamps (ls : list (string * string)) :
  (forall p, In p ls -> all_chars no_bracket (fst p) = true) ->
  map display_line (blank_stamps (map log_line ls))
  = map shown (blank_repeats None ls).
Proof.
  intros H. unfold blank_stamps. rewrite (blank_fold ls None [] H). simpl.
  rewrite map_map. apply map_ext_in. intros [s a] Hp.
  apply display_log_line.
  apply (blank_repeats_no_bracket ls None H (s, a) Hp).
Qed.

(** The whole display of formatted entries whose last run is of one
    line. *)
Lemma display_entries (ls : list (string * string)) :
  (forall p, In p ls -> all_chars no_bracket (fst p) = true) ->
  (ls = [] \/ exists rs b, runs_of String.eqb (map log_line ls) = (rs ++ [(b, 0)])%list) ->
  map display_line (blank_stamps (compress (map log_line ls)))
  = map shown (blank_repeats None (map render_entry (runs_of entry_eqb ls))).
Proof.
  intros H Hf.
  destruct (runs_of_log_lines ls H) as [R1 R2].
  assert (Ec : compress (map log_line ls)
               = map log_line (map render_entry (runs_of entry_eqb ls))).
  { destruct Hf as [->|(rs & b & E)]; [reflexivity|].
    rewrite (compress_fresh _ rs b E), R1, !map_map.
    apply map_ext. intros r. apply render_log_line. }
  rewrite Ec. apply display_blank_stamps.
  intros p Hp. apply in_map_iff in Hp. destruct Hp as (r & <- & Hr).
  simpl. apply (H (fst r)). apply R2. assumption.
Qed.

Lemma verify_service_logs w :
  cmd_enabled (cmd w) = true ->
  map_get (commands (cmd w)) "service" = Some service_entry ->
  verify w (Some "service") ["logs"] []
  = (Some (Valid []), [], record w "CommandService_verify service").
Proof.
  intros He Hg. unfold verify. rewrite He, Hg. reflexivity.
Qed.

(** What [service logs] returns through [runSingle]: the display of
    the log as the two records of the run left it, and nothing else is
    changed. *)
Lemma runSingle_service_logs timestamp extern w signal pipe :
  cmd_enabled (cmd w) = true ->
  map_get (commands (cmd w)) "service" = Some service_entry ->
  registered_includes w "service" = true ->
  signal_aborted w signal = false ->
  let w' := record (record w "CommandService_verify service")
                   "CommandExecService_run service" in
  runSingle timestamp extern (parseCommandFragment "service logs") signal pipe w
  = (Ok (VArr (map display_line
                   (blank_stamps
                      (compress (map log_line (log_entries timestamp (getData w'))))))),
     parseCommandFragment "service logs", w').
Proof.
  intros He Hg Hreg Hsig w'.
  change (parseCommandFragment "service logs")
    with {| name := Some "service"; args := ["logs"]; flags := [] |}.
  unfold runSingle. simpl.
  rewrite (verify_service_logs w He Hg).
  unfold signal_aborted in *. rewrite exec_record, Hsig.
  unfold registered_includes in *. rewrite cmd_record, Hreg. simpl.
  rewrite Hg. simpl. unfold service_handler, service_logs. simpl.
  unfold log_entries. rewrite map_map. reflexivity.
Qed.

Lemma list_tail_cases (A : Type) (l : list A) :
  l = [] \/ (exists a, l = [a]) \/ exists l0 a b, l = (l0 ++ [a; b])%list.
Proof.
  destruct l as [|x l] using rev_ind; [left; reflexivity|]. right.
  destruct l as [|y l0] using rev_ind; [left; exists x; reflexivity|].
  right. exists l0, y, x. rewrite <- app_assoc. reflexivity.
Qed.

(** The log after the two records of a run ends with two different
    lines, or is the log as it was when recording is switched off. *)
Lemma recorded_tail timestamp w :
  (diag_enabled (diag w) = false -> ends_fresh (getData w)) ->
  let w' := record (record w "CommandService_verify service")
                   "CommandExecService_run service" in
  let ls := log_entries timestamp (getData w') in
  ls = [] \/ (exists p, ls = [p])
  \/ exists l p q, ls = (l ++ [p; q])%list /\ snd p <> snd q.
Proof.
  intros Hf w' ls. unfold ls, w', record, getData.
  destruct (diag_enabled (diag w)) eqn:Hd; simpl.
  - right. right.
    exists (log_entries timestamp (diagnosticData (diag w))),
           (timestamp (now w), "CommandService_verify service"),
           (timestamp (now w), "CommandExecService_run service").
    split; [|discriminate].
    unfold log_entries. rewrite <- app_assoc, !map_app. reflexivity.
  - rewrite Hd. specialize (Hf eq_refl). unfold ends_fresh, getData in Hf.
    destruct (list_tail_cases _ (diagnosticData (diag w)))
      as [E|[(e & E)|(l0 & e1 & e2 & E)]]; rewrite E.
    + left. reflexivity.
    + right. left. eexists. reflexivity.
    + right. right.
      exists (log_entries timestamp l0), (timestamp (snd e1), fst e1),
             (timestamp (snd e2), fst e2).
      split.
      * unfold log_entries. rewrite map_app. reflexivity.
      * simpl. apply (Hf l0 e1 e2). exact E.
Qed.

Lemma no_bracket_uint d :
  all_chars no_bracket (NilEmpty.string_of_uint d) = true.
Proof. induction d; simpl; auto. Qed.

(** The decimal text of a number has no bracket. *)
Lemma no_bracket_of_Z z : all_chars no_bracket (of_Z z) = true.
Proof.
  unfold of_Z, NilZero.string_of_int, NilZero.string_of_uint.
  destruct (Z.to_int z) as [d|d]; destruct d; simpl; try reflexivity;
    apply no_bracket_uint.
Qed.

Lemma logs_display_not_as_specified : ~ logs_display_as_specified.
Proof.
  intros H.
  specialize (H of_Z no_extern 0 VNull clock_set_back).
  vm_compute in H.
  destruct (H _ _ _ eq_refl eq_refl eq_refl eq_refl) as [E _].
  discriminate E.
Qed.

(** When equal stamps stand together - no stamp comes back after a
    different one - blanking a stamp that repeats the stamp of the line
    before it is keeping each stamp on its first occurrence only. *)
Lemma blank_seen_grouped ls : forall seen lastStamp,
  stamps_grouped ls ->
  match lastStamp with
  | Some l =>
      In l seen
      /\ (forall l2 q l3, ls = (l2 ++ q :: l3)%list -> fst q = l ->
                          forall r, In r l2 -> fst r = l)
  | None => seen = []
  end ->
  (forall s, In s seen -> lastStamp <> Some s -> ~ In s (map fst ls)) ->
  blank_seen seen ls = blank_repeats lastStamp ls.
Proof.
  induction ls as [|[s a] rest IH]; intros seen lastStamp HG Hl Hs; [reflexivity|].
  assert (HGr : stamps_grouped rest).
  { intros l1 p l2 q l3 E Hpq r Hr.
    apply (HG ((s, a) :: l1) p l2 q l3); [rewrite E; reflexivity|assumption|assumption]. }
  assert (Hnext : forall l2 q l3, rest = (l2 ++ q :: l3)%list -> fst q = s ->
                                  forall r, In r l2 -> fst r = s).
  { intros l2 q l3 E Hq r Hr.
    apply (HG [] (s, a) l2 q l3); [rewrite E; reflexivity|symmetry; assumption|assumption]. }
  cbn [blank_seen blank_repeats].
  destruct lastStamp as [l|].
  - destruct Hl as [Hin Hback].
    destruct (String.eqb s l) eqn:E.
    + apply String.eqb_eq in E. subst l.
      assert (Hex : existsb (String.eqb s) seen = true).
      { apply existsb_exists. exists s. split; [assumption|apply String.eqb_refl]. }
      rewrite Hex. f_equal.
      apply IH; [assumption|split; assumption|].
      intros s' Hs' Hne Hin'. apply (Hs s' Hs' Hne). right. assumption.
    + apply String.eqb_neq in E.
      assert (Hex : existsb (String.eqb s) seen = false).
      { destruct (existsb (String.eqb s) seen) eqn:X; [|reflexivity]. exfalso.
        apply existsb_exists in X. destruct X as (s' & Hs' & Es').
        apply String.eqb_eq in Es'. subst s'.
        apply (Hs s Hs'); [congruence|]. left. reflexivity. }
      rewrite Hex. f_equal.
      apply IH; [assumption|split; [left; reflexivity|assumption]|].
      intros s' [<-|Hs'] Hne Hin'; [congruence|].
      destruct (string_dec s' l) as [->|Hd].
      * apply in_map_iff in Hin'. destruct Hin' as (q & Hq & Hin').
        apply in_split in Hin'. destruct Hin' as (l2 & l3 & Er).
        apply E.
        apply (Hback ((s, a) :: l2) q l3 ltac:(rewrite Er; reflexivity) Hq (s, a)).
        left. reflexivity.
      * apply (Hs s' Hs'); [congruence|]. right. assumption.
  - subst seen. cbn [existsb]. f_equal.
    apply IH; [assumption|split; [left; reflexivity|assumption]|].
    intros s' [<-|[]] Hne Hin'. congruence.
Qed.

Lemma blank_seen_repeats ls :
  stamps_grouped ls -> blank_seen [] ls = blank_repeats None ls.
Proof.
  intros HG. apply blank_seen_grouped; [assumption|reflexivity|intros s []].
Qed.

(** C8, amended. [service logs], without the clear flag, run by a shell
    that has [service] defined and registered, at a time when the log
    does not end with two entries of one action (it never does while
    recording is on, for the run itself has just recorded its two steps):
    the lines displayed are the maximal runs of consecutive identical
    formatted entries of the log, in order, each run one line, with
    [(xN)] after its action when it has N > 1 lines; a stamp is replaced
    by as many spaces when it is the stamp of the line before it - not
    when it was last seen further back, so that each stamp is kept on its
    first occurrence only when equal stamps stand together in the
    compressed output; and the display changes nothing: the log is as
    the two records of the run left it. *)
Theorem logs_display_collapses_runs : forall timestamp extern signal pipe w,
  (forall t, all_chars no_bracket (timestamp t) = true) ->
  cmd_enabled (cmd w) = true ->
  map_get (commands (cmd w)) "service" = Some service_entry ->
  registered_includes w "service" = true ->
  signal_aborted w signal = false ->
  (diag_enabled (diag w) = false -> ends_fresh (getData w)) ->
  let w' := record (record w "CommandService_verify service")
                   "CommandExecService_run service" in
  let compressed :=
    map render_entry (runs_of entry_eqb (log_entries timestamp (getData w'))) in
  runSingle timestamp extern (parseCommandFragment "service logs") signal pipe w
  = (Ok (VArr (map shown (blank_repeats None compressed))),
     parseCommandFragment "service logs", w')
  /\ (stamps_grouped compressed ->
      blank_repeats None compressed = blank_seen [] compressed).
Proof.
  intros timestamp extern signal pipe w Hts He Hg Hreg Hsig Hf w' compressed.
  split; [|intros HG; symmetry; apply blank_seen_repeats; exact HG].
  unfold compressed.
  rewrite (runSingle_service_logs timestamp extern w signal pipe He Hg Hreg Hsig).
  fold w'. f_equal. f_equal. f_equal. f_equal.
  assert (Hnb : forall p, In p (log_entries timestamp (getData w')) ->
                          all_chars no_bracket (fst p) = true).
  { intros p Hp. unfold log_entries in Hp. apply in_map_iff in Hp.
    destruct Hp as (e & <- & _). apply Hts. }
  pose proof (recorded_tail timestamp w Hf) as Ht. cbv zeta in Ht. fold w' in Ht.
  set (ls := log_entries timestamp (getData w')) in *. clearbody ls.
  apply display_entries; [exact Hnb|].
  destruct Ht as [E|[(p & E)|(l & p & q & E & Hpq)]].
  - left. exact E.
  - right. rewrite E. exists [], (log_line p). reflexivity.
  - right. rewrite E, map_app. simpl.
    assert (Hne : log_line p <> log_line q).
    { intros X. apply Hpq.
      assert (Hp : all_chars no_bracket (fst p) = true)
        by (apply Hnb; rewrite E; apply in_app_iff; right; left; reflexivity).
      assert (Hq : all_chars no_bracket (fst q) = true)
        by (apply Hnb; rewrite E; apply in_app_iff; right; right; left; reflexivity).
      pose proof (log_line_eqb p q Hp Hq) as Q. rewrite X, String.eqb_refl in Q.
      symmetry in Q. apply andb_true_iff in Q as [_ Q].
      apply String.eqb_eq. exact Q. }
    destruct (runs_of_fresh_tail (map log_line l) _ _ Hne) as (r & rs & Er).
    exists (r :: rs), (log_line q). exact Er.
Qed.

Lemma logs_display_collapses_runs_witness :
  fst (fst (runSingle of_Z no_extern (parseCommandFragment "service logs") 0 VNull
                      clock_set_back))
  = Ok (VArr (map shown
                  [("0", "CommandService_init");
                   (" ", "CommandService_define service");
                   (" ", "CommandService_define clear");
                   (" ", "CommandService_define print");
                   (" ", "CommandService_define obuffer");
                   (" ", "CommandService_define commandline");
                   (" ", "CommandService_define linecount");
                   (" ", "CommandService_define help");
                   (" ", "CommandService_define findtext");
                   (" ", "CommandService_register print");
                   (" ", "CommandService_register obuffer");
                   (" ", "CommandService_register commandline");
                   (" ", "CommandService_register linecount");
                   (" ", "CommandService_register help");
                   (" ", "CommandService_register clear");
                   (" ", "CommandService_register service");
                   (" ", "CommandService_register findtext");
                   (" ", "CommandService_validate print");
                   (" ", "CommandService_validate obuffer");
                   (" ", "CommandService_validate commandline");
                   (" ", "CommandService_validate linecount");
                   (" ", "CommandService_validate help");
                   (" ", "CommandService_validate clear");
                   (" ", "CommandService_validate service");
                   (" ", "CommandService_validate findtext");
                   (" ", "CommandExecService_init");
                   (" ", "OutputService_init");
                   (" ", "SaviorService_init");
                   ("30", "CommandExecService_enqueue print");
                   ("  ", "CommandService_verify print");
                   ("  ", "CommandExecService_run print");
                   ("  ", "OutputService_add");
                   ("0", "CommandService_verify service");
                   (" ", "CommandExecService_run service")])).
Proof.
  destruct (logs_display_collapses_runs of_Z no_extern 0 VNull clock_set_back)
    as [H _].
  - apply no_bracket_of_Z.
  - reflexivity.
  - reflexivity.
  - reflexivity.
  - reflexivity.
  - intros H. vm_compute in H. discriminate H.
  - rewrite H. vm_compute. reflexivity.
Defined.

End LogDisplay.

Section ChainFacts.

Variable timestamp : Z -> string.
Variable extern : handler -> params -> world -> res jsval * world.

(** X21. Running a chain is running its first part and then the rest
    with the pipe value handed over: the loop of [runChain] on two lists
    of fragments one after the other gives what it gives on the second
    list from the pipe value and the state the first list left; when the
    first list throws, the second is not touched. *)
Theorem runChain_loop_app : forall c1 c2 signal pipe w,
  runChain_loop timestamp extern (c1 ++ c2) signal pipe w
  = match runChain_loop timestamp extern c1 signal pipe w with
    | (Ok p, c1', w') =>
        let '(r, c2', w'') := runChain_loop timestamp extern c2 signal p w' in
        (r, (c1' ++ c2')%list, w'')
    | (Throw x, c1', w') => (Throw x, (c1' ++ c2)%list, w')
    end.
Proof.
  induction c1 as [|f rest IH]; intros c2 signal pipe w.
  - simpl. destruct (runChain_loop timestamp extern c2 signal pipe w) as [[r c2'] w''].
    reflexivity.
  - simpl. destruct (signal_aborted w signal); [reflexivity|].
    destruct (runSingle timestamp extern f signal pipe w) as [[[result|x] f'] w'].
    + rewrite IH.
      destruct (runChain_loop timestamp extern rest signal (next_pipe result) w')
        as [[[p|x] c1'] w''].
      * destruct (runChain_loop timestamp extern c2 signal p w'') as [[r c2'] w3].
        reflexivity.
      * reflexivity.
    + reflexivity.
Qed.

End ChainFacts.

Section DiagnosticFacts.





Lemma diag_present w line : diag (present w line) = diag w /\ now (present w line) = now w.
Proof.
  unfold present, os_line, os_error, os_savior, os_htmlLine, append_elem.
  repeat match goal with
         | |- context [if ?b then _ else _] => destruct b
         end; split; reflexivity.
Qed.

Lemma diag_fold_present ls : forall w,
  diag (fold_left present ls w) = diag w /\ now (fold_left present ls w) = now w.
Proof.
  induction ls as [|l r IH]; intros w; simpl; [auto|].
  destruct (IH (present w l)) as [A B]. destruct (diag_present w l) as [C D].
  split; congruence.
Qed.









End DiagnosticFacts.

Section ConstructorFacts.

Lemma services_kept_refl w : services_kept w w.
Proof. repeat split. Qed.

Lemma services_kept_trans w w1 w2 :
  services_kept w w1 -> services_kept w1 w2 -> services_kept w w2.
Proof.
  intros (A1 & B1 & C1 & D1 & E1) (A2 & B2 & C2 & D2 & E2).
  repeat split; congruence.
Qed.

Lemma services_kept_record w a : services_kept w (record w a).
Proof.
  unfold services_kept.
  rewrite exec_record, out_record, savior_record, cmd_record. repeat split.
Qed.

Lemma services_kept_defineCommand w n b f : services_kept w (defineCommand w n b f).
Proof.
  unfold defineCommand. destruct (negb (cmd_enabled (cmd w)));
    [apply services_kept_refl|].
  assert (K : services_kept w
                (record (set_commands w (map_set (commands (cmd w)) n
                                                 {| body := b; fn := f |}))
                        ("CommandService_define " ++ n))).
  { eapply services_kept_trans; [|apply services_kept_record]. repeat split. }
  destruct (o_alias (options b)) as [a|]; [|exact K].
  destruct (nonempty a); [|exact K].
  eapply services_kept_trans; [exact K|]. repeat split.
Qed.

Lemma services_kept_registerCommand w n w' :
  registerCommand w n = Ok w' -> services_kept w w'.
Proof.
  unfold registerCommand. destruct (negb (cmd_enabled (cmd w))).
  - intros E; inversion E; apply services_kept_refl.
  - rewrite registered_has_false.
    destruct (map_get (commands (cmd w)) n) as [e|]; [|discriminate].
    intros E; inversion E; subst.
    eapply services_kept_trans; [apply services_kept_record|]. repeat split.
Qed.

Lemma services_kept_bulk names : forall w w',
  bulk_loop registerCommand names w = Ok w' -> services_kept w w'.
Proof.
  induction names as [|n r IH]; intros w w' H; simpl in H.
  - inversion H. apply services_kept_refl.
  - destruct (registerCommand w n) as [w1|x] eqn:E; [|discriminate].
    eapply services_kept_trans; [apply (services_kept_registerCommand _ _ _ E)|].
    apply IH. assumption.
Qed.

Lemma services_kept_defineCommands w w' :
  defineCommands w = Ok w' -> services_kept w w'.
Proof.
  unfold defineCommands, bulkRegister. intros H.
  match type of H with
  | (if _ then Ok ?x else _) = _ =>
      assert (K : services_kept w x)
  end.
  { repeat (eapply services_kept_trans; [|apply services_kept_defineCommand]).
    apply services_kept_refl. }
  destruct (negb _).
  - inversion H; subst. exact K.
  - eapply services_kept_trans; [exact K|].
    apply (services_kept_bulk _ _ _ H).
Qed.

Lemma services_kept_unregister_defined w n : services_kept w (unregister_defined w n).
Proof.
  destruct (unregister_defined_frame w n) as (A & B & _ & D & _ & F & _).
  unfold unregister_defined, unregisterCommand in *.
  destruct (negb (cmd_enabled (cmd w))); [apply services_kept_refl|].
  destruct (negb (registered_includes w n)); [apply services_kept_refl|].
  destruct (map_get (commands (cmd w)) n) as [e|]; [|apply services_kept_refl].
  repeat split; try assumption.
  destruct (alias_of_entry e); simpl; rewrite cmd_record; reflexivity.
Qed.

Lemma services_kept_validate_param n w param :
  services_kept w (validate_param n w param).
Proof.
  unfold validate_param. destruct (_ && _); [|apply services_kept_refl].
  eapply services_kept_trans; [apply services_kept_unregister_defined|].
  repeat split.
Qed.

Lemma services_kept_validate_fold n ps : forall w,
  services_kept w (fold_left (validate_param n) ps w).
Proof.
  induction ps as [|p r IH]; intros w; simpl.
  - apply services_kept_refl.
  - eapply services_kept_trans; [apply services_kept_validate_param|apply IH].
Qed.

Lemma services_kept_validateCommand w n w' :
  validateCommand w n = Ok w' -> services_kept w w'.
Proof.
  unfold validateCommand. destruct (negb (cmd_enabled (cmd w))).
  - intros E; inversion E; apply services_kept_refl.
  - destruct (map_get (commands (cmd w)) n) as [e|]; [|discriminate].
    intros E; inversion E; subst. clear E.
    eapply services_kept_trans; [apply services_kept_record|].
    apply services_kept_validate_fold.
Qed.

Lemma services_kept_validate_loop count : forall i w w',
  validate_loop count i w = Ok w' -> services_kept w w'.
Proof.
  induction count as [|c IH]; intros i w w' H; simpl in H.
  - inversion H. apply services_kept_refl.
  - destruct (nth_error (registeredCommands (cmd w)) i) as [member|].
    + destruct member as [|first rest].
      * destruct (negb (cmd_enabled (cmd w))); [|discriminate].
        apply (IH _ _ _ H).
      * destruct (validateCommand w first) as [w1|x] eqn:E; [|discriminate].
        eapply services_kept_trans;
          [apply (services_kept_validateCommand _ _ _ E)|apply (IH _ _ _ H)].
    + inversion H. apply services_kept_refl.
Qed.

Lemma init_frames w :
  exec (savior_init (out_init (exec_init w))) = exec (out_init (exec_init w))
  /\ exec (out_init (exec_init w)) = exec (exec_init w)
  /\ (exec_os (exec w) = true -> exec (exec_init w) = exec w)
  /\ out (savior_init (out_init (exec_init w))) = out (out_init (exec_init w))
  /\ (out_os (out (exec_init w)) = true ->
      out (out_init (exec_init w)) = out (exec_init w))
  /\ out (exec_init w) = out w
  /\ (sav_os (savior (out_init (exec_init w))) = true ->
      savior (savior_init (out_init (exec_init w)))
      = savior (out_init (exec_init w)))
  /\ savior (out_init (exec_init w)) = savior (exec_init w)
  /\ savior (exec_init w) = savior w.
Proof.
  assert (S1 : forall v, exec (savior_init v) = exec v /\ out (savior_init v) = out v).
  { intros v. unfold savior_init. destruct (sav_os (savior v)); [auto|].
    rewrite exec_record, out_record. auto. }
  assert (O1 : forall v, exec (out_init v) = exec v
                         /\ savior (out_init v) = savior v).
  { intros v. unfold out_init. destruct (out_os (out v)); [auto|].
    rewrite exec_record, savior_record. auto. }
  assert (E1 : forall v, out (exec_init v) = out v
                         /\ savior (exec_init v) = savior v).
  { intros v. unfold exec_init. destruct (exec_os (exec v)); [auto|].
    rewrite out_record, savior_record. auto. }
  repeat split.
  - apply S1.
  - apply O1.
  - intros H. unfold exec_init. rewrite H. reflexivity.
  - apply S1.
  - intros H. unfold out_init. rewrite H. reflexivity.
  - apply E1.
  - intros H. unfold savior_init. rewrite H. reflexivity.
  - apply O1.
  - apply E1.
Qed.

Lemma os_new_inv w w' :
  os_new w = Ok w' ->
  exists w2 w3,
    defineCommands (cmd_init (diag_init w)) = Ok w2
    /\ validateCommands w2 = Ok w3
    /\ w' = savior_init (out_init (exec_init w3)).
Proof.
  unfold os_new.
  destruct (defineCommands (cmd_init (diag_init w))) as [w2|x]; [|discriminate].
  destruct (validateCommands w2) as [w3|x] eqn:E3; [|discriminate].
  intros H. inversion H. exists w2, w3. repeat split. assumption.
Qed.

Lemma first_inits_frame w :
  exec (cmd_init (diag_init w)) = exec w
  /\ out (cmd_init (diag_init w)) = out w
  /\ savior (cmd_init (diag_init w)) = savior w
  /\ (cmd_os (cmd w) = true ->
      cmd_enabled (cmd (cmd_init (diag_init w))) = cmd_enabled (cmd w)).
Proof.
  assert (D : exec (diag_init w) = exec w /\ out (diag_init w) = out w
              /\ savior (diag_init w) = savior w /\ cmd (diag_init w) = cmd w).
  { unfold diag_init. destruct (diag_os (diag w)); repeat split. }
  destruct D as (D1 & D2 & D3 & D4).
  unfold cmd_init. rewrite D4. destruct (cmd_os (cmd w)).
  - rewrite D4. repeat split; assumption.
  - rewrite exec_record, out_record, savior_record. simpl.
    repeat split; try assumption. discriminate.
Qed.

Lemma last_inits_cmd w : cmd (savior_init (out_init (exec_init w))) = cmd w.
Proof.
  assert (S1 : forall v, cmd (savior_init v) = cmd v).
  { intros v. unfold savior_init. destruct (sav_os (savior v)); [reflexivity|].
    rewrite cmd_record. reflexivity. }
  assert (O1 : forall v, cmd (out_init v) = cmd v).
  { intros v. unfold out_init. destruct (out_os (out v)); [reflexivity|].
    rewrite cmd_record. reflexivity. }
  assert (E1 : forall v, cmd (exec_init v) = cmd v).
  { intros v. unfold exec_init. destruct (exec_os (exec v)); [reflexivity|].
    rewrite cmd_record. reflexivity. }
  rewrite S1, O1, E1. reflexivity.
Qed.

(** X23. The services are initialised once: when the constructor of
    [OS] runs in a state in which a service already has its [os], it
    returns with that service as it was - the execution service with its
    queue, its running flag and its switch, the output service with its
    buffer, the savior with its switch - and with the switch of an
    initialised command service as it was. *)
Theorem constructor_keeps_initialised_services : forall w w',
  os_new w = Ok w' ->
  (exec_os (exec w) = true -> exec w' = exec w)
  /\ (out_os (out w) = true -> out w' = out w)
  /\ (sav_os (savior w) = true -> savior w' = savior w)
  /\ (cmd_os (cmd w) = true -> cmd_enabled (cmd w') = cmd_enabled (cmd w)).
Proof.
  intros w w' H.
  destruct (os_new_inv w w' H) as (w2 & w3 & E2 & E3 & ->).
  pose proof (services_kept_defineCommands _ _ E2) as K2.
  assert (K3 : services_kept w2 w3).
  { unfold validateCommands in E3. destruct (listCommands w2); [|discriminate].
    apply (services_kept_validate_loop _ _ _ _ E3). }
  pose proof (services_kept_trans _ _ _ K2 K3) as (A & B & C & D & _).
  destruct (first_inits_frame w) as (A0 & B0 & C0 & D0).
  assert (Ex : exec w3 = exec w) by (rewrite A; exact A0).
  assert (Ou : out w3 = out w) by (rewrite B; exact B0).
  assert (Sa : savior w3 = savior w) by (rewrite C; exact C0).
  pose proof (init_frames w3) as (I1 & I2 & I3 & I4 & I5 & I6 & I7 & I8 & I9).
  split; [|split; [|split]].
  - intros Hos. rewrite I1, I2, I3 by (rewrite Ex; assumption). assumption.
  - intros Hos. rewrite I4, I5 by (rewrite I6, Ou; assumption).
    rewrite I6. assumption.
  - intros Hos. rewrite I7 by (rewrite I8, I9, Sa; assumption).
    rewrite I8, I9. assumption.
  - intros Hos. rewrite last_inits_cmd, D. apply D0. assumption.
Qed.

Lemma constructor_keeps_initialised_services_witness :
  exists w', os_new booted = Ok w' /\ exec w' = exec booted /\ out w' = out booted.
Proof.
  destruct (os_new booted) as [w'|x] eqn:E.
  - destruct (constructor_keeps_initialised_services booted w' E) as (A & B & _).
    exists w'. split; [reflexivity|]. split; [apply A|apply B]; reflexivity.
  - vm_compute in E. discriminate E.
Defined.

End ConstructorFacts.

Section BulkFacts.

Lemma unregisterCommand_ok w n w' :
  cmd_enabled (cmd w) = true ->
  unregisterCommand w n = Ok w' ->
  registered_includes w' n = false
  /\ (forall m, registered_includes w' m = true -> registered_includes w m = true)
  /\ cmd_enabled (cmd w') = true
  /\ commands (cmd w') = commands (cmd w).
Proof.
  intros He H.
  assert (E : unregister_defined w n = w').
  { unfold unregister_defined. rewrite H. reflexivity. }
  destruct (unregister_defined_frame w n) as (_ & _ & _ & _ & F5 & F6 & F7).
  rewrite E in F5, F6, F7. split; [|split; [assumption|split; congruence]].
  rewrite <- E. clear E F5 F6 F7.
  unfold unregisterCommand in H. rewrite He in H. simpl in H.
  destruct (registered_includes w n) eqn:Hr; simpl in H.
  - destruct (map_get (commands (cmd w)) n) as [e|] eqn:Hg; [|discriminate].
    apply (unregister_defined_removes w n e He Hg).
  - unfold unregister_defined, unregisterCommand. rewrite He, Hr. simpl. assumption.
Qed.

Lemma bulk_unregister_loop names : forall w w',
  cmd_enabled (cmd w) = true ->
  bulk_loop unregisterCommand names w = Ok w' ->
  (forall n, In n names -> registered_includes w' n = false)
  /\ (forall m, registered_includes w' m = true -> registered_includes w m = true)
  /\ commands (cmd w') = commands (cmd w)
  /\ cmd_enabled (cmd w') = true.
Proof.
  induction names as [|n r IH]; intros w w' He H; simpl in H.
  - inversion H; subst. split; [intros n []|]. repeat split; auto.
  - destruct (unregisterCommand w n) as [w1|x] eqn:E; [|discriminate].
    destruct (unregisterCommand_ok w n w1 He E) as (A & B & C & D).
    destruct (IH w1 w' C H) as (A' & B' & C' & D').
    split; [|split; [|split]].
    + intros m [<-|Hm]; [|apply A'; assumption].
      destruct (registered_includes w' n) eqn:X; [|reflexivity].
      apply B' in X. congruence.
    + intros m Hm. apply B, B', Hm.
    + congruence.
    + assumption.
Qed.

(** X24. [bulkUnregister] that returns, with the command service
    enabled: none of the names given is registered afterwards, no other
    registration has appeared, and every definition is still there. *)
Theorem bulkUnregister_removes_all : forall names w w',
  cmd_enabled (cmd w) = true ->
  bulkUnregister w names = Ok w' ->
  (forall n, In n names -> fst (getCommand w' n) = LNull)
  /\ (forall m, registered_includes w' m = true -> registered_includes w m = true)
  /\ commands (cmd w') = commands (cmd w).
Proof.
  intros names w w' He H. unfold bulkUnregister in H. rewrite He in H. simpl in H.
  destruct (bulk_unregister_loop names w w' He H) as (A & B & C & D).
  split; [|split; assumption].
  intros n Hn. unfold getCommand. rewrite D, (A n Hn). reflexivity.
Qed.

Lemma bulkUnregister_removes_all_witness :
  exists w', bulkUnregister booted ["print"; "help"] = Ok w'
             /\ fst (getCommand w' "help") = LNull.
Proof.
  destruct (bulkUnregister booted ["print"; "help"]) as [w'|x] eqn:E.
  - destruct (bulkUnregister_removes_all ["print"; "help"] booted w') as (A & _).
    + vm_compute. reflexivity.
    + exact E.
    + exists w'. split; [reflexivity|]. apply A. right. left. reflexivity.
  - vm_compute in E. discriminate E.
Defined.

End BulkFacts.

Section SendFacts.

Variable timestamp : Z -> string.
Variable extern : handler -> params -> world -> res jsval * world.

(** [enqueue] and [runNext] up to the dequeue touch the execution
    service and the log only. *)
Lemma runNext_keeps w :
  out (runNext w) = out w /\ cmd (runNext w) = cmd w /\ elem (runNext w) = elem w.
Proof.
  unfold runNext.
  destruct (negb (exec_enabled (exec w))); [auto|].
  destruct (negb (exec_os (exec w))); [auto|].
  destruct (running (exec w)); [auto|].
  destruct (queue (exec w)); auto.
Qed.

Lemma enqueue_keeps w c :
  out (snd (enqueue w c)) = out w /\ cmd (snd (enqueue w c)) = cmd w
  /\ elem (snd (enqueue w c)) = elem w.
Proof.
  unfold enqueue.
  destruct (negb (exec_enabled (exec w))); [auto|].
  destruct (negb (exec_os (exec w))); [auto|].
  cbn [snd].
  match goal with |- context [runNext ?x] =>
    destruct (runNext_keeps x) as (A & B & C) end.
  rewrite A, B, C. simpl. rewrite out_record, cmd_record, elem_record. auto.
Qed.

Lemma enqueue_returns_running w c :
  running (exec w) = true ->
  enqueue_returns timestamp extern w c = enqueue w c.
Proof.
  intros H. unfold enqueue_returns. destruct (enqueue w c) as [r w1].
  rewrite H. reflexivity.
Qed.

(** X25. [sendCommand] at an idle shell. When the call returns, the
    chain of the command is in flight and its first fragment has run, as
    far as the call of its handler. If that left the execution service
    as it was, the chains of [obuffer] and [commandline] wait behind it
    in the queue, in that order, with the next two tickets, and nothing
    is settled yet. (A first fragment that switches the execution
    service off, as [service disable commandexec --confirm] does, keeps
    the two from being queued.) *)
Theorem sendCommand_idle : forall w command,
  idle w ->
  let c := parseCommand command in
  let a := {| act_item := {| q_chain := c; q_ticket := next_ticket (exec w) |};
              act_controller := List.length (controllers (exec w)) |} in
  let w1 := match c with
            | f :: _ => snd (runSingle timestamp extern f (act_controller a) VNull
                                       (started w c))
            | [] => started w c
            end in
  exec w1 = exec (started w c) ->
  exists w',
    sendCommand timestamp extern w command = (Ok tt, w')
    /\ inflight (exec w') = [a]
    /\ queue (exec w')
       = [{| q_chain := [{| name := Some "obuffer"; args := []; flags := [] |}];
             q_ticket := S (next_ticket (exec w)) |};
          {| q_chain := [{| name := Some "commandline"; args := []; flags := [] |}];
             q_ticket := S (S (next_ticket (exec w))) |}]
    /\ running (exec w') = true
    /\ resolved (exec w') = resolved (exec w)
    /\ rejected (exec w') = rejected (exec w)
    /\ out w' = out w1 /\ cmd w' = cmd w1 /\ elem w' = elem w1.
Proof.
  intros w command Hi c a w1 Hx.
  assert (Hok : forall v c, exec_enabled (exec v) = true -> exec_os (exec v) = true ->
                exists t, fst (enqueue v c) = Ok t).
  { intros v c0 A B. unfold enqueue. rewrite A, B. simpl. eexists. reflexivity. }
  pose proof (enqueue_idle w c Hi) as E1.
  destruct Hi as (He & Ho & Hr & Hq & Hin & Hs).
  assert (F1 : enqueue_returns timestamp extern w c
               = (fst (enqueue w c), w1)).
  { unfold enqueue_returns. destruct (enqueue w c) as [r1 v1]. simpl in E1. subst v1.
    rewrite Hr. simpl. unfold w1, a. destruct c; reflexivity. }
  unfold sendCommand. fold c. rewrite F1.
  destruct (Hok w c He Ho) as (t1 & T1). rewrite T1.
  assert (A1 : exec_enabled (exec w1) = true) by (rewrite Hx; reflexivity).
  assert (B1 : exec_os (exec w1) = true) by (rewrite Hx; reflexivity).
  assert (C1 : running (exec w1) = true) by (rewrite Hx; reflexivity).
  rewrite (enqueue_returns_running w1 _ C1).
  pose proof (enqueue_while_running w1 (parseCommand "obuffer") A1 B1 C1) as E2.
  destruct (Hok w1 (parseCommand "obuffer") A1 B1) as (t2 & T2).
  pose proof (enqueue_keeps w1 (parseCommand "obuffer")) as K2.
  destruct (enqueue w1 (parseCommand "obuffer")) as [r2 w2].
  simpl in T2, E2, K2. subst r2.
  assert (A2 : exec_enabled (exec w2) = true) by (rewrite E2; reflexivity).
  assert (B2 : exec_os (exec w2) = true) by (rewrite E2; reflexivity).
  assert (C2 : running (exec w2) = true) by (rewrite E2; reflexivity).
  rewrite (enqueue_returns_running w2 _ C2).
  pose proof (enqueue_while_running w2 (parseCommand "commandline") A2 B2 C2) as E3.
  destruct (Hok w2 (parseCommand "commandline") A2 B2) as (t3 & T3).
  pose proof (enqueue_keeps w2 (parseCommand "commandline")) as K3.
  destruct (enqueue w2 (parseCommand "commandline")) as [r3 w3].
  simpl in T3, E3, K3. subst r3.
  exists w3. split; [reflexivity|].
  destruct K2 as (K2a & K2b & K2c). destruct K3 as (K3a & K3b & K3c).
  rewrite K3a, K3b, K3c, K2a, K2b, K2c.
  rewrite E3, E2, Hx. simpl. rewrite ?Hq. repeat split.
Qed.

End SendFacts.

(** [service disable commandexec --confirm] sent to the booted shell:
    its handler has switched the execution service off when the first
    [enqueue] returns, so the other two queue nothing. *)
Lemma sendCommand_disable_commandexec :
  exists w',
    sendCommand no_timestamp no_extern booted "service disable commandexec --confirm"
    = (Ok tt, w')
    /\ exec_enabled (exec w') = false
    /\ queue (exec w') = []
    /\ List.length (inflight (exec w')) = 1.
Proof. eexists. split; [vm_compute; reflexivity|]. repeat split. Qed.

Lemma sendCommand_idle_witness :
  exists w', sendCommand no_timestamp no_extern booted "print hi" = (Ok tt, w')
             /\ running (exec w') = true
             /\ List.length (queue (exec w')) = 2.
Proof.
  destruct (sendCommand_idle no_timestamp no_extern booted "print hi")
    as (w' & A & _ & Q & B & _).
  - vm_compute. repeat split.
  - vm_compute. reflexivity.
  - exists w'. split; [assumption|]. split; [assumption|]. rewrite Q. reflexivity.
Defined.

